(** * claude-proxy: a metering reverse proxy in front of the Anthropic
      Messages API.

    A shallow embedding of the request gate (proxy.ts), the token verifier
    (auth.ts), the balance cache (balance.ts), the SSE usage extractor
    (stream-parser.ts) and the usage reporter with its retry queue
    (billing.ts), followed by the properties of the specification that
    concern them.

    Conventions.
    - A JavaScript value is a [json] value; [option json] adds [undefined]
      ([None]).  Numbers are rationals: rounding, overflow and NaN of
      double-precision arithmetic are outside the model.
    - A JavaScript string is a [string]; one [ascii] stands for one code
      unit, so text outside Latin-1 is outside the model.
    - Platform services (TextDecoder, JSON.parse, jose.jwtVerify, Date.now,
      fetch) are Section variables, events or oracle arguments: every
      general statement holds for each behaviour they may have. *)

From Stdlib Require Import ZArith QArith String Ascii List Lia Bool.
From Stdlib.Strings Require Import Byte.
From stdpp Require Import gmap strings list.

Local Open Scope string_scope.
Local Open Scope Z_scope.

(** ** JavaScript values *)

Module Js.

#[warnings="-register-all"] Inductive json : Type :=
| JNull
| JBool (b : bool)
| JNum (q : Q)
| JStr (s : string)
| JArr (items : list json)
| JObj (fields : list (string * json)).

Definition num (z : Z) : json := JNum (inject_Z z).

(** Own-property lookup in an object literal. *)
Fixpoint obj_get (fields : list (string * json)) (k : string) : option json :=
  match fields with
  | [] => None
  | (k', v) :: rest => if String.eqb k' k then Some v else obj_get rest k
  end.

(** [o[k] = v]: an existing key keeps its place, a new one goes last. *)
Fixpoint obj_set (fields : list (string * json)) (k : string) (v : json)
  : list (string * json) :=
  match fields with
  | [] => [(k, v)]
  | (k', v') :: rest =>
      if String.eqb k' k then (k', v) :: rest else (k', v') :: obj_set rest k v
  end.

(** [v.k] for a value [v] that is neither [null] nor [undefined]; the
    names read by the program are no built-in properties of primitives or
    arrays, so everything but an object answers [undefined]. *)
Definition prop (v : json) (k : string) : option json :=
  match v with
  | JObj fields => obj_get fields k
  | _ => None
  end.

(** [v?.k] *)
Definition opt_prop (v : option json) (k : string) : option json :=
  match v with
  | None | Some JNull => None
  | Some v' => prop v' k
  end.

(** ToBoolean *)
Definition truthy (v : option json) : bool :=
  match v with
  | None | Some JNull => false
  | Some (JBool b) => b
  | Some (JNum q) => negb (Qnum q =? 0)
  | Some (JStr s) => negb (String.eqb s "")
  | Some (JArr _) | Some (JObj _) => true
  end.

(** [v != null] *)
Definition not_nullish (v : option json) : bool :=
  match v with
  | None | Some JNull => false
  | Some _ => true
  end.

(** [a ?? b] *)
Definition nullish_or (a b : option json) : option json :=
  if not_nullish a then a else b.

(** [v || d] *)
Definition or_default (v : option json) (d : json) : json :=
  match v with
  | Some v' => if truthy v then v' else d
  | None => d
  end.

(** [v === "lit"] *)
Definition is_string (v : option json) (lit : string) : bool :=
  match v with
  | Some (JStr s) => String.eqb s lit
  | _ => false
  end.

(** [typeof v === "string"] *)
Definition typeof_string (v : option json) : option string :=
  match v with
  | Some (JStr s) => Some s
  | _ => None
  end.

(** *** String methods *)

Definition startsWith (s p : string) : bool := String.prefix p s.

(** [s.slice(n)] *)
Fixpoint slice (n : nat) (s : string) : string :=
  match n, s with
  | O, _ => s
  | S n', String _ s' => slice n' s'
  | S _, EmptyString => EmptyString
  end.

(** [s.includes(sub)] *)
Fixpoint includes (s sub : string) : bool :=
  String.prefix sub s ||
  match s with
  | String _ s' => includes s' sub
  | EmptyString => false
  end.

(** White space and line terminators among the first 256 code points. *)
Definition is_js_space (c : ascii) : bool :=
  let n := nat_of_ascii c in
  ((9 <=? n) && (n <=? 13) || (n =? 32) || (n =? 160))%nat.

Fixpoint trim_start (s : string) : string :=
  match s with
  | String c s' => if is_js_space c then trim_start s' else s
  | EmptyString => EmptyString
  end.

Fixpoint trim_end (s : string) : string :=
  match s with
  | String c s' =>
      match trim_end s' with
      | EmptyString => if is_js_space c then EmptyString else String c EmptyString
      | t => String c t
      end
  | EmptyString => EmptyString
  end.

Definition trim (s : string) : string := trim_end (trim_start s).

Definition newline : ascii := "010"%char.

(** [s.split("\n")]: never empty, one more piece than there are newlines. *)
Fixpoint split_lines (s : string) : list string :=
  match s with
  | EmptyString => [EmptyString]
  | String c s' =>
      if Ascii.eqb c newline then EmptyString :: split_lines s'
      else match split_lines s' with
           | piece :: rest => String c piece :: rest
           | [] => [String c EmptyString]
           end
  end.

(** No newline in [s]. *)
Fixpoint single_line (s : string) : bool :=
  match s with
  | EmptyString => true
  | String c s' => negb (Ascii.eqb c newline) && single_line s'
  end.

End Js.

(** ** A JSON reader

    [JSON.parse] is a parameter of the general development.  The closed
    examples use the reader below.  It follows the JSON grammar on 7-bit
    text; an escape [\uXXXX] above [ÿ] makes it give up, where
    [JSON.parse] goes on. *)

Module JsonText.
Import Js.

Definition is_ws (c : ascii) : bool :=
  let n := nat_of_ascii c in
  ((n =? 32) || (n =? 9) || (n =? 10) || (n =? 13))%nat.

Fixpoint skip_ws (s : string) : string :=
  match s with
  | String c s' => if is_ws c then skip_ws s' else s
  | EmptyString => EmptyString
  end.

Definition digit_of (c : ascii) : option Z :=
  let n := nat_of_ascii c in
  if ((48 <=? n) && (n <=? 57))%nat then Some (Z.of_nat (n - 48)) else None.

Definition hex_of (c : ascii) : option nat :=
  let n := nat_of_ascii c in
  if ((48 <=? n) && (n <=? 57))%nat then Some (n - 48)%nat
  else if ((97 <=? n) && (n <=? 102))%nat then Some (n - 87)%nat
  else if ((65 <=? n) && (n <=? 70))%nat then Some (n - 55)%nat
  else None.

(** A run of digits: its value on top of [acc], its length, the rest. *)
Fixpoint read_digits (s : string) (acc : Z) (count : nat) : Z * nat * string :=
  match s with
  | String c s' =>
      match digit_of c with
      | Some d => read_digits s' (10 * acc + d) (S count)
      | None => (acc, count, s)
      end
  | EmptyString => (acc, count, s)
  end.

Definition read_sign (s : string) : bool * string :=
  match s with
  | String c s' => if Ascii.eqb c "-" then (true, s') else (false, s)
  | EmptyString => (false, s)
  end.

Definition read_int (s : string) : option (Z * string) :=
  match s with
  | String c s' =>
      match digit_of c with
      | Some 0 => Some (0, s')
      | Some d => let '(v, _, r) := read_digits s' d 1 in Some (v, r)
      | None => None
      end
  | EmptyString => None
  end.

(** Mantissa and number of fraction digits. *)
Definition read_frac (m : Z) (s : string) : option (Z * nat * string) :=
  match s with
  | String c s' =>
      if Ascii.eqb c "." then
        let '(v, k, r) := read_digits s' m 0 in
        match k with O => None | _ => Some (v, k, r) end
      else Some (m, O, s)
  | EmptyString => Some (m, O, s)
  end.

Definition read_exp (s : string) : option (Z * string) :=
  match s with
  | String c s' =>
      if Ascii.eqb c "e" || Ascii.eqb c "E" then
        let '(neg, s1) :=
          match s' with
          | String g s2 =>
              if Ascii.eqb g "+" then (false, s2)
              else if Ascii.eqb g "-" then (true, s2) else (false, s')
          | EmptyString => (false, s')
          end in
        let '(v, k, r) := read_digits s1 0 0 in
        match k with
        | O => None
        | _ => Some (if neg then - v else v, r)
        end
      else Some (0, s)
  | EmptyString => Some (0, s)
  end.

Definition scale (m e : Z) : Q :=
  if 0 <=? e then inject_Z (m * 10 ^ e) else Qmake m (Z.to_pos (10 ^ (- e))).

Definition read_number (s : string) : option (Q * string) :=
  let '(neg, s1) := read_sign s in
  match read_int s1 with
  | None => None
  | Some (i, s2) =>
      match read_frac i s2 with
      | None => None
      | Some (m, k, s3) =>
          match read_exp s3 with
          | None => None
          | Some (e, s4) =>
              Some (scale (if neg then - m else m) (e - Z.of_nat k), s4)
          end
      end
  end.

Definition quote : ascii := "034"%char.
Definition backslash : ascii := "092"%char.

Definition unescape (c : ascii) : option ascii :=
  if Ascii.eqb c quote then Some quote
  else if Ascii.eqb c backslash then Some backslash
  else if Ascii.eqb c "/" then Some "/"%char
  else if Ascii.eqb c "b" then Some "008"%char
  else if Ascii.eqb c "f" then Some "012"%char
  else if Ascii.eqb c "n" then Some "010"%char
  else if Ascii.eqb c "r" then Some "013"%char
  else if Ascii.eqb c "t" then Some "009"%char
  else None.

Definition cons_char (c : ascii) (r : option (string * string))
  : option (string * string) :=
  match r with
  | Some (body, rest) => Some (String c body, rest)
  | None => None
  end.

(** The text of a string literal after its opening quote. *)
Fixpoint read_string (s : string) : option (string * string) :=
  match s with
  | EmptyString => None
  | String c r =>
      if Ascii.eqb c quote then Some (EmptyString, r)
      else if Ascii.eqb c backslash then
        match r with
        | String e r2 =>
            match unescape e with
            | Some ch => cons_char ch (read_string r2)
            | None =>
                if Ascii.eqb e "u" then
                  match r2 with
                  | String h1 (String h2 (String h3 (String h4 r6))) =>
                      match hex_of h1, hex_of h2, hex_of h3, hex_of h4 with
                      | Some 0%nat, Some 0%nat, Some a, Some b =>
                          cons_char (ascii_of_nat (16 * a + b)) (read_string r6)
                      | _, _, _, _ => None
                      end
                  | _ => None
                  end
                else None
            end
        | EmptyString => None
        end
      else if (nat_of_ascii c <? 32)%nat then None
      else cons_char c (read_string r)
  end.

Definition read_literal (lit : string) (v : json) (s : string)
  : option (json * string) :=
  if String.prefix lit s then Some (v, slice (String.length lit) s) else None.

Fixpoint parse_value (n : nat) (s : string) {struct n} : option (json * string) :=
  match n with
  | O => None
  | S n' =>
      match skip_ws s with
      | EmptyString => None
      | String c r =>
          if Ascii.eqb c "{" then
            match skip_ws r with
            | String c' r' =>
                if Ascii.eqb c' "}" then Some (JObj [], r')
                else parse_members n' r []
            | EmptyString => None
            end
          else if Ascii.eqb c "[" then
            match skip_ws r with
            | String c' r' =>
                if Ascii.eqb c' "]" then Some (JArr [], r')
                else parse_elements n' r []
            | EmptyString => None
            end
          else if Ascii.eqb c quote then
            match read_string r with
            | Some (str, r') => Some (JStr str, r')
            | None => None
            end
          else if Ascii.eqb c "t" then read_literal "true" (JBool true) (String c r)
          else if Ascii.eqb c "f" then read_literal "false" (JBool false) (String c r)
          else if Ascii.eqb c "n" then read_literal "null" JNull (String c r)
          else
            match read_number (String c r) with
            | Some (q, r') => Some (JNum q, r')
            | None => None
            end
      end
  end
with parse_elements (n : nat) (s : string) (acc : list json) {struct n}
  : option (json * string) :=
  match n with
  | O => None
  | S n' =>
      match parse_value n' s with
      | Some (v, r) =>
          match skip_ws r with
          | String c r' =>
              if Ascii.eqb c "," then parse_elements n' r' (acc ++ [v])
              else if Ascii.eqb c "]" then Some (JArr (acc ++ [v]), r')
              else None
          | EmptyString => None
          end
      | None => None
      end
  end
with parse_members (n : nat) (s : string) (acc : list (string * json)) {struct n}
  : option (json * string) :=
  match n with
  | O => None
  | S n' =>
      match skip_ws s with
      | String c r =>
          if Ascii.eqb c quote then
            match read_string r with
            | Some (k, r1) =>
                match skip_ws r1 with
                | String c1 r2 =>
                    if Ascii.eqb c1 ":" then
                      match parse_value n' r2 with
                      | Some (v, r3) =>
                          match skip_ws r3 with
                          | String c3 r4 =>
                              if Ascii.eqb c3 "," then
                                parse_members n' r4 (obj_set acc k v)
                              else if Ascii.eqb c3 "}" then
                                Some (JObj (obj_set acc k v), r4)
                              else None
                          | EmptyString => None
                          end
                      | None => None
                      end
                    else None
                | EmptyString => None
                end
            | None => None
            end
          else None
      | EmptyString => None
      end
  end.

Definition parse (s : string) : option json :=
  match parse_value (2 * String.length s + 2) s with
  | Some (v, r) =>
      match skip_ws r with
      | EmptyString => Some v
      | String _ _ => None
      end
  | None => None
  end.

(** JSON texts are written below with single quotes for the double ones. *)
Definition dq (s : string) : string :=
  string_of_list_ascii
    (List.map (fun c => if Ascii.eqb c "'" then quote else c)
       (list_ascii_of_string s)).

End JsonText.

(** ** stream-parser.ts: the usage-tracking transform *)

Module StreamParser.
Import Js.

(** [UsageTokens] (pricing.ts), over the type of its [number] fields. *)
Record UsageTokens (number : Type) : Type := mkUsage {
  inputTokens : number;
  outputTokens : number;
  cacheReadTokens : number;
  cacheCreationTokens : number
}.
Arguments mkUsage {number}.
Arguments inputTokens {number}.
Arguments outputTokens {number}.
Arguments cacheReadTokens {number}.
Arguments cacheCreationTokens {number}.

(** At run time the parser stores whatever value the event carries. *)
Abbreviation usage_tokens := (UsageTokens json).

Definition set_inputTokens (v : json) (u : usage_tokens) : usage_tokens :=
  mkUsage v (outputTokens u) (cacheReadTokens u) (cacheCreationTokens u).
Definition set_outputTokens (v : json) (u : usage_tokens) : usage_tokens :=
  mkUsage (inputTokens u) v (cacheReadTokens u) (cacheCreationTokens u).
Definition set_cacheReadTokens (v : json) (u : usage_tokens) : usage_tokens :=
  mkUsage (inputTokens u) (outputTokens u) v (cacheCreationTokens u).
Definition set_cacheCreationTokens (v : json) (u : usage_tokens) : usage_tokens :=
  mkUsage (inputTokens u) (outputTokens u) (cacheReadTokens u) v.

Definition zero_usage : usage_tokens := mkUsage (num 0) (num 0) (num 0) (num 0).

(** Objects live in a store; a variable of object type holds a location. *)
Abbreviation loc := positive.
Abbreviation store := (gmap loc usage_tokens).

(** A [Uint8Array]. *)
Abbreviation chunk := (list Byte.byte).

(** [if (u.k != null) usage.f = u.k] *)
Definition assign_present (field : option json)
    (set : json -> usage_tokens -> usage_tokens) (u : usage_tokens) : usage_tokens :=
  match field with
  | Some v => if not_nullish field then set v u else u
  | None => u
  end.

(** The first [if] of [extractUsage]. *)
Definition on_message_start (event : json) (usage : usage_tokens) : usage_tokens :=
  let mu := opt_prop (prop event "message") "usage" in
  if is_string (prop event "type") "message_start" && truthy mu then
    match mu with
    | Some u =>
        set_cacheCreationTokens (or_default (prop u "cache_creation_input_tokens") (num 0))
          (set_cacheReadTokens (or_default (prop u "cache_read_input_tokens") (num 0))
             (set_inputTokens (or_default (prop u "input_tokens") (num 0)) usage))
    | None => usage
    end
  else usage.

(** The second [if] of [extractUsage]. *)
Definition on_message_delta (event : json) (usage : usage_tokens) : usage_tokens :=
  let eu := prop event "usage" in
  if is_string (prop event "type") "message_delta" && truthy eu then
    match eu with
    | Some u =>
        assign_present (prop u "cache_creation_input_tokens") set_cacheCreationTokens
          (assign_present (prop u "cache_read_input_tokens") set_cacheReadTokens
             (assign_present (prop u "input_tokens") set_inputTokens
                (assign_present (prop u "output_tokens") set_outputTokens usage)))
    | None => usage
    end
  else usage.

(** [extractUsage(event, usage)] writes through the reference [usage].
    [None]: the TypeError of [event.type] on [null], raised before any
    write. *)
Definition extractUsage (event : json) (usage : loc) (h : store) : option store :=
  match event with
  | JNull => None
  | _ => Some (alter (fun u => on_message_delta event (on_message_start event u)) usage h)
  end.

Section Transform.
(** [TextDecoder]: a state (the bytes of an unfinished sequence) and
    [decode(chunk, {stream: true})]. *)
Context {D : Type}.
Variable decode : D -> chunk -> D * string.
Variable decoder0 : D.
Variable JSON_parse : string -> option json.

(** What [createUsageTrackingTransform] closes over, the store, and the
    chunks handed to the controller so far. *)
Record stream : Type := mkStream {
  heap : store;
  usage : loc;
  model : json;
  buffer : string;
  decoder : D;
  enqueued : list chunk
}.

Definition set_heap (h : store) (s : stream) : stream :=
  mkStream h (usage s) (model s) (buffer s) (decoder s) (enqueued s).
Definition set_model (m : json) (s : stream) : stream :=
  mkStream (heap s) (usage s) m (buffer s) (decoder s) (enqueued s).
Definition set_buffer (b : string) (s : stream) : stream :=
  mkStream (heap s) (usage s) (model s) b (decoder s) (enqueued s).
Definition set_decoder (d : D) (s : stream) : stream :=
  mkStream (heap s) (usage s) (model s) (buffer s) d (enqueued s).
Definition enqueue (chunk : chunk) (s : stream) : stream :=
  mkStream (heap s) (usage s) (model s) (buffer s) (decoder s)
    (enqueued s ++ [chunk]).

Definition createUsageTrackingTransform (h : store) : stream :=
  let l := fresh (dom h) in
  mkStream (<[l := zero_usage]> h) l (JStr "") "" decoder0 [].

(** The body of the loop over [lines] in [transform]. *)
Definition transform_line (line : string) (s : stream) : stream :=
  if negb (startsWith line "data: ") then s
  else
    let data := trim (slice 6 line) in
    if String.eqb data "[DONE]" then s
    else
      match JSON_parse data with
      | None => s
      | Some event =>
          match extractUsage event (usage s) (heap s) with
          | None => s
          | Some h' =>
              let s' := set_heap h' s in
              let m := opt_prop (prop event "message") "model" in
              if is_string (prop event "type") "message_start" && truthy m then
                match m with
                | Some v => set_model v s'
                | None => s'
                end
              else s'
          end
      end.

(** The body of the loop over [lines] in [flush]. *)
Definition flush_line (line : string) (s : stream) : stream :=
  if negb (startsWith line "data: ") then s
  else
    let data := trim (slice 6 line) in
    if String.eqb data "[DONE]" then s
    else
      match JSON_parse data with
      | None => s
      | Some event =>
          match extractUsage event (usage s) (heap s) with
          | None => s
          | Some h' => set_heap h' s
          end
      end.

(** [transform(chunk, controller)] *)
Definition transform (chunk : chunk) (s : stream) : stream :=
  let s1 := enqueue chunk s in
  let '(d, text) := decode (decoder s1) chunk in
  let lines := split_lines (buffer s1 ++ text) in
  let s2 := set_buffer (List.last lines "") (set_decoder d s1) in
  fold_left (fun acc line => transform_line line acc) (removelast lines) s2.

(** [flush(controller)] *)
Definition flush (s : stream) : stream :=
  if negb (String.eqb (trim (buffer s)) "") then
    fold_left (fun acc line => flush_line line acc) (split_lines (buffer s)) s
  else s.

(** [getUsage()]: [{ ...usage }] is a new object. *)
Definition getUsage (s : stream) : stream * loc :=
  let l := fresh (dom (heap s)) in
  (set_heap (<[l := default zero_usage (heap s !! usage s)]> (heap s)) s, l).

(** [getModel()] *)
Definition getModel (s : stream) : json := model s.

(** The caller of [getUsage()] assigns to fields of the object at [l],
    which becomes [v]. *)
Definition assign (l : loc) (v : usage_tokens) (s : stream) : stream :=
  set_heap (<[l := v]> (heap s)) s.

(** A TransformStream fed [chunks], and then closed. *)
Definition feed (chunks : list chunk) (s : stream) : stream :=
  fold_left (fun acc chunk => transform chunk acc) chunks s.

Definition pipe (chunks : list chunk) (s : stream) : stream :=
  flush (feed chunks s).

Definition pipeThrough (chunks : list chunk) : stream :=
  pipe chunks (createUsageTrackingTransform ∅).

(** Two streams agree when they differ at most in objects other than
    the accumulator. *)
Definition agree (s s' : stream) : Prop :=
  usage s = usage s' ∧ model s = model s' ∧ buffer s = buffer s'
  ∧ decoder s = decoder s' ∧ enqueued s = enqueued s'
  ∧ heap s !! usage s = heap s' !! usage s'.

(** The record behind the reference [getUsage()] returns. *)
Definition read_usage (s : stream) : stream * usage_tokens :=
  let '(s', l) := getUsage s in (s', default zero_usage (heap s' !! l)).

End Transform.

Arguments mkStream {D}.
Arguments stream : clear implicits.

End StreamParser.

(** ** pricing.ts: prices in USD per million tokens *)

Module Pricing.
Import StreamParser.

Record ModelPricing : Type := mkPricing {
  input : Q;
  output : Q;
  cacheRead : Q;
  cacheWrite : Q
}.

Definition sonnet : ModelPricing := mkPricing 3 15 0.3 3.75.
Definition opus : ModelPricing := mkPricing 5 25 0.5 6.25.

Definition PRICING : list (string * ModelPricing) :=
  [ ("claude-sonnet-4-6", sonnet);
    ("claude-sonnet-4-6-20250514", sonnet);
    ("claude-opus-4-6", opus);
    ("claude-opus-4-6-20250520", opus) ].

Definition DEFAULT_PRICING : ModelPricing := sonnet.

Fixpoint lookup_price (table : list (string * ModelPricing)) (modelId : string)
  : option ModelPricing :=
  match table with
  | [] => None
  | (k, p) :: rest => if String.eqb k modelId then Some p else lookup_price rest modelId
  end.

(** The names a plain object inherits from [Object.prototype]: for them
    [PRICING[modelId]] answers a member of the prototype, which is neither
    [undefined] nor an object with the four rates. *)
Definition Object_prototype : list string :=
  [ "constructor"; "__defineGetter__"; "__defineSetter__"; "hasOwnProperty";
    "__lookupGetter__"; "__lookupSetter__"; "isPrototypeOf";
    "propertyIsEnumerable"; "toString"; "valueOf"; "__proto__";
    "toLocaleString" ].

Definition inherited (modelId : string) : bool :=
  existsb (String.eqb modelId) Object_prototype.

(** [PRICING[modelId] ?? DEFAULT_PRICING]; [None]: an inherited member,
    all of whose rates read [undefined]. *)
Definition getModelPricing (modelId : string) : option ModelPricing :=
  match lookup_price PRICING modelId with
  | Some pricing => Some pricing
  | None => if inherited modelId then None else Some DEFAULT_PRICING
  end.

(** In exact arithmetic; the program computes in double precision.
    [None]: NaN, the sum over rates that are [undefined], whatever the
    token counts. *)
Definition calculateCostUsd (modelId : string) (usage : UsageTokens Q)
  : option Q :=
  match getModelPricing modelId with
  | Some pricing =>
      Some (Qred ((inputTokens usage * input pricing
                   + outputTokens usage * output pricing
                   + cacheReadTokens usage * cacheRead pricing
                   + cacheCreationTokens usage * cacheWrite pricing)
                  / 1000000)%Q)
  | None => None
  end.

End Pricing.

(** ** auth.ts: the token verifier *)

Module Auth.
Import Js.

(** The principal: [{ ...payload, userId }]. *)
Record JwtPayload : Type := mkJwt {
  userId : string;
  claims : list (string * json)
}.

Definition missing_claim : string := "JWT missing userId/sub/id claim".

Section Verify.
(** [jose.jwtVerify(token, secret)]: the message of the error it throws
    (malformed token, bad signature, expired), or the claims object. *)
Variable jwtVerify : string -> string + list (string * json).

Definition verifyToken (token : string) : string + JwtPayload :=
  match jwtVerify token with
  | inl message => inl message
  | inr payload =>
      let userId :=
        nullish_or
          (nullish_or (obj_get payload "userId") (obj_get payload "sub"))
          (obj_get payload "id") in
      match typeof_string userId with
      | None => inl missing_claim
      | Some u => inr (mkJwt u (obj_set payload "userId" (JStr u)))
      end
  end.
End Verify.

(** The first of the claims [userId], [sub], [id] that is present, in the
    words of the specification; [null] counts as absent. *)
Definition first_present (payload : list (string * json)) : option json :=
  head (omap (fun k => match obj_get payload k with
                       | Some JNull | None => None
                       | Some v => Some v
                       end)
          ["userId"; "sub"; "id"]).

End Auth.

(** ** balance.ts: the balance cache *)

Module Balance.

Definition gt0 (q : Q) : bool := 0 <? Qnum q.

(** [x ?? 0] on an optional numeric field. *)
Definition or0 (x : option Q) : Q := default 0%Q x.

Record BalanceResult : Type := mkResult {
  balance : Q;
  freeTokens : Q;
  ok : bool;
  serviceUnavailable : option bool
}.

Record CacheEntry : Type := mkEntry {
  cached_balance : Q;
  cached_freeTokens : Q;
  expiry : Z
}.

Definition CACHE_TTL_MS : Z := 2 * 60 * 1000.
Definition STALE_CACHE_TTL_MS : Z := 10 * 60 * 1000.

(** The body of the billing server's answer, fields optional. *)
Record BalanceData : Type := mkData {
  data_balance : option Q;
  data_freeTokens : option Q;
  data_totalAvailable : option Q;
  data_claudeBalance : option Q
}.

(** What [await fetch(...)] and [await res.json()] come to: a rejected
    promise, or a response with its [ok] flag and, when the body parses,
    its data. *)
Inductive fetch_outcome : Type :=
| Rejected
| Responded (res_ok : bool) (body : option BalanceData).

Definition fallbackToStaleCache (userId : string) (cached : option CacheEntry)
    (now : Z) : BalanceResult :=
  match cached with
  | Some c =>
      if expiry c >? now - STALE_CACHE_TTL_MS then
        mkResult (cached_balance c) (cached_freeTokens c)
          (gt0 (cached_balance c) || gt0 (cached_freeTokens c)) None
      else mkResult 0 0 false (Some true)
  | None => mkResult 0 0 false (Some true)
  end.

(** [checkBalance(userId, token)] at time [now]; [net] is consulted only
    when the cache holds no fresh entry.  The call runs with no other call
    between its cache read and its cache write. *)
Definition checkBalance (cache : gmap string CacheEntry) (now : Z)
    (userId token : string) (net : fetch_outcome)
  : BalanceResult * gmap string CacheEntry :=
  let cached := cache !! userId in
  let refetch :=
    match net with
    | Rejected => (fallbackToStaleCache userId cached now, cache)
    | Responded false _ => (fallbackToStaleCache userId cached now, cache)
    | Responded true None => (fallbackToStaleCache userId cached now, cache)
    | Responded true (Some data) =>
        let balance := or0 (data_balance data) in
        let freeTokens := or0 (data_freeTokens data) in
        (mkResult balance freeTokens (gt0 balance || gt0 freeTokens) None,
         <[userId := mkEntry balance freeTokens (now + CACHE_TTL_MS)]> cache)
    end in
  match cached with
  | Some c =>
      if expiry c >? now then
        (mkResult (cached_balance c) (cached_freeTokens c)
           (gt0 (cached_balance c) || gt0 (cached_freeTokens c)) None, cache)
      else refetch
  | None => refetch
  end.

Definition invalidateBalanceCache (cache : gmap string CacheEntry) (now : Z)
    (userId : string) : gmap string CacheEntry :=
  alter (fun e => mkEntry (cached_balance e) (cached_freeTokens e) now) userId cache.

(** The sweep run every five minutes. *)
Definition sweep (cache : gmap string CacheEntry) (now : Z)
  : gmap string CacheEntry :=
  filter (fun kv => ¬ (expiry kv.2 < now - STALE_CACHE_TTL_MS)) cache.

(** The predicate of the specification's data model, on the answer of the
    billing server: [claudeBalance > 0 OR freeTokens > 0]. *)
Definition usable_spec (data : BalanceData) : bool :=
  gt0 (or0 (data_claudeBalance data)) || gt0 (or0 (data_freeTokens data)).

End Balance.

(** ** The later balance.ts, gating on [claudeBalance] and [totalAvailable] *)

Module BalanceClaude.
Import Balance.

Record BalanceResult : Type := mkResult {
  balance : Q;
  totalAvailable : Q;
  ok : bool;
  serviceUnavailable : option bool
}.

Record CacheEntry : Type := mkEntry {
  cached_balance : Q;
  cached_totalAvailable : Q;
  cached_claudeBalance : Q;
  expiry : Z
}.

Definition fallbackToStaleCache (userId : string) (cached : option CacheEntry)
    (now : Z) : BalanceResult :=
  match cached with
  | Some c =>
      if expiry c >? now - STALE_CACHE_TTL_MS then
        mkResult (cached_balance c) (cached_totalAvailable c)
          (gt0 (cached_claudeBalance c) || gt0 (cached_totalAvailable c)) None
      else mkResult 0 0 false (Some true)
  | None => mkResult 0 0 false (Some true)
  end.

Definition checkBalance (cache : gmap string CacheEntry) (now : Z)
    (userId token : string) (net : fetch_outcome)
  : BalanceResult * gmap string CacheEntry :=
  let cached := cache !! userId in
  let refetch :=
    match net with
    | Rejected => (fallbackToStaleCache userId cached now, cache)
    | Responded false _ => (fallbackToStaleCache userId cached now, cache)
    | Responded true None => (fallbackToStaleCache userId cached now, cache)
    | Responded true (Some data) =>
        let balance := or0 (data_balance data) in
        let totalAvailable := or0 (data_totalAvailable data) in
        let claudeBalance := or0 (data_claudeBalance data) in
        (mkResult balance totalAvailable
           (gt0 claudeBalance || gt0 totalAvailable) None,
         <[userId := mkEntry balance totalAvailable claudeBalance
                       (now + CACHE_TTL_MS)]> cache)
    end in
  match cached with
  | Some c =>
      if expiry c >? now then
        (mkResult (cached_balance c) (cached_totalAvailable c)
           (gt0 (cached_claudeBalance c) || gt0 (cached_totalAvailable c)) None,
         cache)
      else refetch
  | None => refetch
  end.

End BalanceClaude.

(** ** billing.ts: the usage reporter and its retry queue *)

Module Billing.

Definition MAX_FAILED_REPORTS : nat := 1000.
Definition MAX_RETRIES : Z := 3.
Definition BASE_RETRY_MS : Z := 30000.

(** An entry of the queue is an object; a location tells one object from
    another with the same fields. *)
Abbreviation loc := nat.

Section Reporter.
(** JavaScript numbers and their [+]. *)
Context {number : Type}.
Variable add : number -> number -> number.

(** The report object as the route handler and the tests build it.  The
    interface declared next to [reportUsage] names [userId], [model],
    [inputTokens], [outputTokens] and [cost]; the object carries the two
    cache counts as well. *)
Record UsageReport : Type := mkReport {
  userId : string;
  model : string;
  inputTokens : number;
  outputTokens : number;
  cacheReadTokens : number;
  cacheCreationTokens : number;
  cost : number
}.

(** A payload object: its keys in order, each with a string or a number. *)
Inductive pvalue : Type :=
| PStr (s : string)
| PNum (n : number).

Abbreviation payload := (list (string * pvalue)).

(** The object literal of [reportUsage]. *)
Definition report_payload (report : UsageReport) : payload :=
  [ ("model", PStr (model report));
    ("provider", PStr "anthropic");
    ("inputTokens", PNum (inputTokens report));
    ("outputTokens", PNum (outputTokens report));
    ("totalTokens", PNum (add (inputTokens report) (outputTokens report)));
    ("cost", PNum (cost report)) ].

(** The payload the specification describes. *)
Definition payload_spec (report : UsageReport) : payload :=
  [ ("model", PStr (model report));
    ("provider", PStr "anthropic");
    ("inputTokens", PNum (inputTokens report));
    ("outputTokens", PNum (outputTokens report));
    ("cacheReadTokens", PNum (cacheReadTokens report));
    ("cacheWriteTokens", PNum (cacheCreationTokens report));
    ("totalTokens",
      PNum (add (add (add (inputTokens report) (outputTokens report))
                   (cacheReadTokens report)) (cacheCreationTokens report)));
    ("cost", PNum (cost report));
    ("currency", PStr "USD") ].

(** Two payloads are the same JSON object: same keys, same values. *)
Definition same_object (p1 p2 : payload) : Prop :=
  forall k : string,
    (list_to_map p1 : gmap string pvalue) !! k
    = (list_to_map p2 : gmap string pvalue) !! k.

Record FailedReport : Type := mkFailed {
  token : string;
  failed_payload : payload;
  retries : Z;
  nextRetry : Z
}.

Abbreviation entry := (loc * FailedReport)%type.

(** The module state and what is under way in the event loop.
    - [failedReports]: the queue;
    - [sending]: the first POST of each report, not settled yet;
    - [retrying]: the POSTs of the scanner not settled yet, each with the
      entry its handlers close over;
    - [posted]: the entries the scanner has POSTed, in order;
    - [allocated]: how many entry objects were created. *)
Record reporter : Type := mkReporter {
  failedReports : list entry;
  sending : list (string * payload);
  retrying : list entry;
  posted : list loc;
  allocated : nat
}.

Definition init : reporter := mkReporter [] [] [] [] 0.

Definition set_queue (q : list entry) (s : reporter) : reporter :=
  mkReporter q (sending s) (retrying s) (posted s) (allocated s).

(** [sendReport(token, payload)]: the POST leaves; its outcome comes later. *)
Definition sendReport (tok : string) (p : payload) (s : reporter) : reporter :=
  mkReporter (failedReports s) (sending s ++ [(tok, p)]) (retrying s)
    (posted s) (allocated s).

(** [reportUsage(token, report)]; the cache invalidation it starts with
    belongs to balance.ts. *)
Definition reportUsage (tok : string) (report : UsageReport) (s : reporter)
  : reporter :=
  sendReport tok (report_payload report) s.

Definition enqueueFailedReport (tok : string) (p : payload) (now : Z)
    (s : reporter) : reporter :=
  let q :=
    if (MAX_FAILED_REPORTS <=? length (failedReports s))%nat
    then tail (failedReports s) else failedReports s in
  mkReporter (q ++ [(allocated s, mkFailed tok p 0 (now + BASE_RETRY_MS))])
    (sending s) (retrying s) (posted s) (S (allocated s)).

(** The [i]th pending first POST settles: fulfilled with [res.ok], or
    else ([.catch]) the report is queued. *)
Definition first_settles (i : nat) (success : bool) (now : Z) (s : reporter)
  : reporter :=
  match sending s !! i with
  | None => s
  | Some (tok, p) =>
      let s' := mkReporter (failedReports s) (delete i (sending s))
                  (retrying s) (posted s) (allocated s) in
      if success then s' else enqueueFailedReport tok p now s'
  end.

(** The [while] loop of [_processRetryQueue], from index [i]; each turn
    either moves [i] forward or shortens the queue. *)
Fixpoint scan (turns : nat) (now : Z) (i : nat) (s : reporter) : reporter :=
  match turns with
  | O => s
  | S turns' =>
      match failedReports s !! i with
      | None => s
      | Some (l, e) =>
          if nextRetry e >? now then scan turns' now (S i) s
          else
            let e' := mkFailed (token e) (failed_payload e)
                        (retries e + 1) (nextRetry e) in
            let q := delete i (failedReports s) in
            if retries e' >? MAX_RETRIES then
              scan turns' now i (set_queue q s)
            else
              scan turns' now i
                (mkReporter q (sending s) (retrying s ++ [(l, e')])
                   (posted s ++ [l]) (allocated s))
      end
  end.

Definition _processRetryQueue (now : Z) (s : reporter) : reporter :=
  scan (length (failedReports s)) now 0 s.

(** [BASE_RETRY_MS * Math.pow(2, entry.retries - 1)] *)
Definition backoff (r : Z) : Z := BASE_RETRY_MS * 2 ^ (r - 1).

(** The [i]th pending retry settles; [now] is the clock in [.catch]. *)
Definition retry_settles (i : nat) (success : bool) (now : Z) (s : reporter)
  : reporter :=
  match retrying s !! i with
  | None => s
  | Some (l, e) =>
      let s' := mkReporter (failedReports s) (sending s)
                  (delete i (retrying s)) (posted s) (allocated s) in
      if success then s'
      else if retries e <? MAX_RETRIES then
        let e' := mkFailed (token e) (failed_payload e) (retries e)
                    (now + backoff (retries e)) in
        if (length (failedReports s') <? MAX_FAILED_REPORTS)%nat
        then set_queue (failedReports s' ++ [(l, e')]) s'
        else s'
      else s'
  end.

(** What can happen to the reporter, one event-loop task at a time. *)
Inductive action : Type :=
| Report (tok : string) (report : UsageReport)
| FirstSettles (i : nat) (success : bool) (now : Z)
| Tick (now : Z)
| RetrySettles (i : nat) (success : bool) (now : Z).

Definition exec (s : reporter) (a : action) : reporter :=
  match a with
  | Report tok report => reportUsage tok report s
  | FirstSettles i success now => first_settles i success now s
  | Tick now => _processRetryQueue now s
  | RetrySettles i success now => retry_settles i success now s
  end.

Definition run (script : list action) : reporter := fold_left exec script init.

Definition reachable (s : reporter) : Prop := exists script, s = run script.

Definition queued (l : loc) (s : reporter) : Prop := l ∈ (failedReports s).*1.
Definition in_retry (l : loc) (s : reporter) : Prop := l ∈ (retrying s).*1.

Definition occurrences (l : loc) (ps : list loc) : nat :=
  length (filter (fun l' => l' = l) ps).

(** Number of POSTs the scanner has issued for the entry [l]. *)
Definition attempts (l : loc) (s : reporter) : nat :=
  occurrences l (posted s).

(** The entry [l] was created and is neither queued nor under retry:
    it was delivered or dropped. *)
Definition gone (l : loc) (s : reporter) : Prop :=
  (l < allocated s)%nat ∧ ¬ queued l s ∧ ¬ in_retry l s.

(** What holds of the reporter between two tasks of the event loop. *)
Record invariant (s : reporter) : Prop := mkInvariant {
  inv_nodup : NoDup ((failedReports s).*1 ++ (retrying s).*1);
  inv_queue : forall l e, (l, e) ∈ failedReports s ->
    (l < allocated s)%nat
    ∧ 0 <= retries e < MAX_RETRIES
    ∧ Z.of_nat (attempts l s) = retries e;
  inv_retry : forall l e, (l, e) ∈ retrying s ->
    (l < allocated s)%nat
    ∧ 1 <= retries e <= MAX_RETRIES
    ∧ Z.of_nat (attempts l s) = retries e;
  inv_bound : forall l, Z.of_nat (attempts l s) <= MAX_RETRIES;
  inv_posted : forall l, l ∈ posted s -> (l < allocated s)%nat;
  inv_cap : (length (failedReports s) <= MAX_FAILED_REPORTS)%nat
}.

(** An entry is due when its [nextRetry] is not after [now]. *)
Definition waits (now : Z) (x : entry) : Prop := now < nextRetry x.2.
Definition sent_at (now : Z) (x : entry) : Prop :=
  ¬ (now < nextRetry x.2) ∧ retries x.2 + 1 <= MAX_RETRIES.

#[global] Instance waits_dec (now : Z) (x : entry) : Decision (waits now x).
Proof. unfold waits. apply _. Defined.

#[global] Instance sent_at_dec (now : Z) (x : entry) : Decision (sent_at now x).
Proof. unfold sent_at. apply _. Defined.

Definition bump (x : entry) : entry :=
  (x.1, mkFailed (token x.2) (failed_payload x.2) (retries x.2 + 1)
          (nextRetry x.2)).

End Reporter.

Arguments UsageReport : clear implicits.
Arguments pvalue : clear implicits.
Arguments FailedReport : clear implicits.
Arguments reporter : clear implicits.
Arguments action : clear implicits.

Abbreviation payload number := (list (string * pvalue number)).
Abbreviation entry number := (loc * FailedReport number)%type.

End Billing.

(** ** The first billing.ts: one POST, no retry *)

Module BillingFirst.
Import Js StreamParser.

Section Reporter.
Context {number : Type}.

Record UsageReport : Type := mkReport {
  userId : string;
  model : string;
  usage : UsageTokens number;
  costUsd : number
}.

Definition report_payload (report : UsageReport)
  : Billing.payload number :=
  [ ("model", Billing.PStr (model report));
    ("inputTokens", Billing.PNum (inputTokens (usage report)));
    ("outputTokens", Billing.PNum (outputTokens (usage report)));
    ("cacheReadTokens", Billing.PNum (cacheReadTokens (usage report)));
    ("cacheCreationTokens", Billing.PNum (cacheCreationTokens (usage report)));
    ("costUsd", Billing.PNum (costUsd report)) ].
End Reporter.

Arguments UsageReport : clear implicits.

End BillingFirst.

(** ** Programs that call out

    A handler is a tree of calls: each node names a call to another module
    or to the network, and continues with the answer. *)

Module Prog.

Inductive prog (E : Type -> Type) (A : Type) : Type :=
| Ret (a : A)
| Vis (X : Type) (e : E X) (k : X -> prog E A).
Arguments Ret {E A}.
Arguments Vis {E A X}.

Fixpoint bind {E A B} (p : prog E A) (f : A -> prog E B) : prog E B :=
  match p with
  | Ret a => f a
  | Vis e k => Vis e (fun x => bind (k x) f)
  end.

Definition call {E X} (e : E X) : prog E X := Vis e Ret.

#[global] Instance prog_bind {E} : MBind (prog E) := fun A B f p => bind p f.
#[global] Instance prog_ret {E} : MRet (prog E) := fun A a => Ret a.

(** A call that was made, with the answer it got. *)
Inductive made (E : Type -> Type) : Type :=
| Made (X : Type) (e : E X) (answer : X).
Arguments Made {E X}.

(** The world the program runs in: it answers each call, and may change
    while doing so. *)
Definition world (E : Type -> Type) (W : Type) : Type :=
  forall X : Type, E X -> W -> X * W.

(** Running a program: the calls made in order, the result, the world. *)
Fixpoint run {E W A} (answer : world E W) (p : prog E A) (w : W)
  : list (made E) * A * W :=
  match p with
  | Ret a => ([], a, w)
  | Vis e k =>
      let '(x, w1) := answer _ e w in
      let '(calls, a, w2) := run answer (k x) w1 in
      (Made e x :: calls, a, w2)
  end.

End Prog.

(** ** proxy.ts: the route [POST /v1/messages] *)

Module Proxy.
Import Js StreamParser Prog.

Definition ANTHROPIC_BASE : string := "https://api.anthropic.com".

Definition FORWARD_HEADERS : list string :=
  ["anthropic-version"; "anthropic-beta"; "content-type"].

(** [request.headers[name]]: absent, a string, or a list of strings. *)
Inductive header_value : Type :=
| HString (s : string)
| HArray (l : list string).

Record Request : Type := mkRequest {
  headers : gmap string header_value;
  body : option json
}.

(** What [fetch] is called with; [sent_body] is the value handed to
    [JSON.stringify]. *)
Record UpstreamRequest : Type := mkUpstream {
  url : string;
  method : string;
  sent_headers : gmap string string;
  sent_body : option json
}.

(** The upstream response: [body] is [None] for a null body, and else
    the chunks its stream delivers. *)
Record Response : Type := mkResponse {
  status : Z;
  res_headers : gmap string string;
  res_body : option (list chunk)
}.

Definition res_ok (r : Response) : bool := (200 <=? status r) && (status r <=? 299).

Inductive sent : Type :=
| SendJson (v : json)
| SendBuffer (bytes : chunk)
| SendStream (chunks : list chunk).

Record Reply : Type := mkReply {
  reply_status : Z;
  reply_headers : gmap string string;
  reply_sent : sent
}.

(** The report objects the two versions of the handler build; the fields
    hold the values found at run time. *)
Record UsageReport : Type := mkReport {
  userId : string;
  model : json;
  inputTokens : json;
  outputTokens : json;
  cacheReadTokens : json;
  cacheCreationTokens : json;
  cost : json
}.

Record UsageReportFirst : Type := mkReportFirst {
  first_userId : string;
  first_model : json;
  first_usage : usage_tokens;
  first_costUsd : json
}.

Section Route.
(** The result of [checkBalance], through the two fields the handler
    reads. *)
Context {BalanceResult : Type}.
Variable ok : BalanceResult -> bool.
Variable serviceUnavailable : BalanceResult -> option bool.

(** [config.anthropicApiKey] *)
Variable anthropicApiKey : string.

(** TextDecoder, [JSON.parse], [buf.toString("utf-8")], the comparison
    [v > 0] and [calculateCostUsd] (double-precision arithmetic). *)
Context {D : Type}.
Variable decode : D -> chunk -> D * string.
Variable decoder0 : D.
Variable JSON_parse : string -> option json.
Variable toString : chunk -> string.
Variable gt0 : option json -> bool.
Variable calculateCostUsd : json -> usage_tokens -> json.

Inductive event : Type -> Type :=
| VerifyToken (apiKey : string) : event (string + Auth.JwtPayload)
| CheckBalance (userId apiKey : string) : event BalanceResult
| Fetch (rq : UpstreamRequest) : event (option Response)
| ReportUsage (apiKey : string) (report : UsageReport) : event unit
| ReportUsageFirst (apiKey : string) (report : UsageReportFirst) : event unit
| Log (level message : string) : event unit.

Definition error_body (message : string) : json :=
  JObj [("error", JStr message)].

Definition reject (code : Z) (v : json) : Reply := mkReply code ∅ (SendJson v).

(** Step 3: [(body?.model as string) || ""] *)
Definition request_model (request : Request) : json :=
  or_default (opt_prop (body request) "model") (JStr "").

(** Step 4 *)
Definition upstream_headers (request : Request) : gmap string string :=
  fold_left
    (fun acc header =>
       match headers request !! header with
       | Some (HString value) =>
           if negb (String.eqb value "") then <[header := value]> acc else acc
       | _ => acc
       end)
    FORWARD_HEADERS
    (<["content-type" := "application/json"]>
       (<["x-api-key" := anthropicApiKey]> ∅)).

Definition upstream_request (request : Request) : UpstreamRequest :=
  mkUpstream (ANTHROPIC_BASE ++ "/v1/messages") "POST"
    (upstream_headers request) (body request).

(** [upstreamRes.headers.get("content-type")].  An empty value is read as
an absent one: the handler tests the value for truth, or asks whether
it includes a non-empty text, and both fail alike on [""] and [null]. *)
Definition content_type (r : Response) : option string :=
  match res_headers r !! "content-type" with
  | Some v => if String.eqb v "" then None else Some v
  | None => None
  end.

(** Step 6: the headers copied to the reply. *)
Definition passed_headers (r : Response) : gmap string string :=
  let rate :=
    filter (fun kv => (startsWith kv.1 "x-ratelimit" = true ∨ kv.1 = "request-id")
                      ∧ kv.2 ≠ "")
      (res_headers r) in
  match content_type r with
  | Some ct => <["content-type" := ct]> rate
  | None => rate
  end.

(** [!upstreamRes.body || !contentType?.includes("text/event-stream")] *)
Definition not_streaming (r : Response) : bool :=
  match res_body r, content_type r with
  | Some _, Some ct => negb (includes ct "text/event-stream")
  | _, _ => true
  end.

(** [await upstreamRes.arrayBuffer()] *)
Definition arrayBuffer (r : Response) : chunk :=
  match res_body r with
  | Some chunks => concat chunks
  | None => []
  end.

(** The metering of a non-streaming answer (the [try] block of step 7). *)
Definition meter_json (apiKey : string) (jwt : Auth.JwtPayload) (model : json)
    (buf : chunk) : prog event unit :=
  match JSON_parse (toString buf) with
  | None | Some JNull =>
      call (Log "warn" "Failed to parse non-streaming response for billing")
  | Some json =>
      let usage := prop json "usage" in
      let resolvedModel := or_default (prop json "model") model in
      if truthy usage
         && (gt0 (opt_prop usage "input_tokens")
             || gt0 (opt_prop usage "output_tokens"))
      then
        let inputTokens := or_default (opt_prop usage "input_tokens") (num 0) in
        let outputTokens := or_default (opt_prop usage "output_tokens") (num 0) in
        let cacheReadTokens :=
          or_default (opt_prop usage "cache_read_input_tokens") (num 0) in
        let cacheCreationTokens :=
          or_default (opt_prop usage "cache_creation_input_tokens") (num 0) in
        let costUsd :=
          calculateCostUsd resolvedModel
            (mkUsage inputTokens outputTokens cacheReadTokens
               cacheCreationTokens) in
        (call (Log "info" "Usage report (non-streaming)") ;;
         call (ReportUsage apiKey
                 (mkReport (Auth.userId jwt) resolvedModel inputTokens
                    outputTokens cacheReadTokens cacheCreationTokens costUsd)))
      else Ret tt
  end.

(** The listener on the end of the piped stream (step 8). *)
Definition meter_stream (apiKey : string) (jwt : Auth.JwtPayload) (model : json)
    (s : stream D) : prog event unit :=
  let usage := (read_usage s).2 in
  let resolvedModel := or_default (Some (getModel (read_usage s).1)) model in
  let costUsd := calculateCostUsd resolvedModel usage in
  if gt0 (Some (StreamParser.inputTokens usage))
     || gt0 (Some (StreamParser.outputTokens usage))
  then
    (call (Log "info" "Usage report") ;;
     call (ReportUsage apiKey
             (mkReport (Auth.userId jwt) resolvedModel
                (StreamParser.inputTokens usage)
                (StreamParser.outputTokens usage)
                (StreamParser.cacheReadTokens usage)
                (StreamParser.cacheCreationTokens usage) costUsd)))
  else Ret tt.

(** Steps 6 to 8.  The body of the upstream answer is read to its end. *)
Definition respond (apiKey : string) (jwt : Auth.JwtPayload) (model : json)
    (upstreamRes : Response) : prog event Reply :=
  let reply body :=
    mkReply (status upstreamRes) (passed_headers upstreamRes) body in
  if not_streaming upstreamRes then
    let buf := arrayBuffer upstreamRes in
    ((if res_ok upstreamRes
         && match content_type upstreamRes with
            | Some ct => includes ct "application/json"
            | None => false
            end
      then meter_json apiKey jwt model buf
      else Ret tt) ;;
     Ret (reply (SendBuffer buf)))
  else
    let s := pipeThrough decode decoder0 JSON_parse
               (default [] (res_body upstreamRes)) in
    (meter_stream apiKey jwt model s ;;
     Ret (reply (SendStream (enqueued s)))).

(** Steps 3 to 5, then the rest. *)
Definition forward (request : Request) (apiKey : string)
    (jwt : Auth.JwtPayload) : prog event Reply :=
  let model := request_model request in
  (upstream ← call (Fetch (upstream_request request));
   match upstream with
   | None =>
       call (Log "error" "Failed to reach Anthropic API") ;;
       Ret (reject 502 (error_body "Failed to reach Anthropic API"))
   | Some upstreamRes => respond apiKey jwt model upstreamRes
   end).

(** The handler registered by [registerProxyRoute]. *)
Definition registerProxyRoute (request : Request) : prog event Reply :=
  match headers request !! "x-api-key" with
  | Some (HString apiKey) =>
      if String.eqb apiKey "" then
        Ret (reject 401 (error_body "Missing x-api-key header"))
      else
        (verified ← call (VerifyToken apiKey);
         match verified with
         | inl message =>
             Ret (reject 401
                    (JObj [("error", JStr "Invalid or expired token");
                           ("details", JStr message)]))
         | inr jwt =>
             balanceResult ← call (CheckBalance (Auth.userId jwt) apiKey);
             if negb (ok balanceResult) then
               match serviceUnavailable balanceResult with
               | Some true =>
                   Ret (reject 503 (error_body "Billing service unavailable"))
               | _ => Ret (reject 402 (error_body "Insufficient balance"))
               end
             else forward request apiKey jwt
         end)
  | _ => Ret (reject 401 (error_body "Missing x-api-key header"))
  end.

(** *** The first version of the handler

    It knows one refusal for the balance, 402; it meters streamed
    answers only, and reports them in the shape of the first billing.ts. *)

Definition meter_stream_first (apiKey : string) (jwt : Auth.JwtPayload)
    (model : json) (s : stream D) : prog event unit :=
  let usage := (read_usage s).2 in
  let resolvedModel := or_default (Some (getModel (read_usage s).1)) model in
  let costUsd := calculateCostUsd resolvedModel usage in
  if gt0 (Some (StreamParser.inputTokens usage))
     || gt0 (Some (StreamParser.outputTokens usage))
  then
    (call (Log "info" "Usage report") ;;
     call (ReportUsageFirst apiKey
             (mkReportFirst (Auth.userId jwt) resolvedModel usage costUsd)))
  else Ret tt.

Definition respond_first (apiKey : string) (jwt : Auth.JwtPayload)
    (model : json) (upstreamRes : Response) : prog event Reply :=
  let reply body :=
    mkReply (status upstreamRes) (passed_headers upstreamRes) body in
  if not_streaming upstreamRes then
    Ret (reply (SendBuffer (arrayBuffer upstreamRes)))
  else
    let s := pipeThrough decode decoder0 JSON_parse
               (default [] (res_body upstreamRes)) in
    (meter_stream_first apiKey jwt model s ;;
     Ret (reply (SendStream (enqueued s)))).

Definition forward_first (request : Request) (apiKey : string)
    (jwt : Auth.JwtPayload) : prog event Reply :=
  let model := request_model request in
  (upstream ← call (Fetch (upstream_request request));
   match upstream with
   | None =>
       call (Log "error" "Failed to reach Anthropic API") ;;
       Ret (reject 502 (error_body "Failed to reach Anthropic API"))
   | Some upstreamRes => respond_first apiKey jwt model upstreamRes
   end).

Definition registerProxyRoute_first (request : Request) : prog event Reply :=
  match headers request !! "x-api-key" with
  | Some (HString apiKey) =>
      if String.eqb apiKey "" then
        Ret (reject 401 (error_body "Missing x-api-key header"))
      else
        (verified ← call (VerifyToken apiKey);
         match verified with
         | inl message =>
             Ret (reject 401
                    (JObj [("error", JStr "Invalid or expired token");
                           ("details", JStr message)]))
         | inr jwt =>
             balanceResult ← call (CheckBalance (Auth.userId jwt) apiKey);
             if negb (ok balanceResult) then
               Ret (reject 402 (error_body "Insufficient balance"))
             else forward_first request apiKey jwt
         end)
  | _ => Ret (reject 401 (error_body "Missing x-api-key header"))
  end.

(** *** Reading a run of the handler *)

Definition is_verify (c : made event) : bool :=
  match c with
  | Made e _ => match e with VerifyToken _ => true | _ => false end
  end.

Definition is_balance (c : made event) : bool :=
  match c with
  | Made e _ => match e with CheckBalance _ _ => true | _ => false end
  end.

Definition is_fetch (c : made event) : bool :=
  match c with
  | Made e _ => match e with Fetch _ => true | _ => false end
  end.

(** The credential and the principal, when the call is a token
    verification that succeeded. *)
Definition verified (c : made event) : option (string * Auth.JwtPayload) :=
  match c with
  | Made e x =>
      match e in event X return X -> option (string * Auth.JwtPayload) with
      | VerifyToken apiKey =>
          fun answer =>
            match answer with
            | inr jwt => Some (apiKey, jwt)
            | inl _ => None
            end
      | _ => fun _ => None
      end x
  end.

(** The result, when the call is a balance check. *)
Definition balance_of (c : made event) : option BalanceResult :=
  match c with
  | Made e x =>
      match e in event X return X -> option BalanceResult with
      | CheckBalance _ _ => fun result => Some result
      | _ => fun _ => None
      end x
  end.

(** The upstream was contacted: [fetch] was called. *)
Definition contacts_upstream (calls : list (made event)) : Prop :=
  exists c, c ∈ calls ∧ is_fetch c = true.

(** Token verification of the [x-api-key] header of [request] succeeded. *)
Definition verification_succeeded (request : Request)
    (calls : list (made event)) : Prop :=
  exists c apiKey jwt,
    c ∈ calls ∧ verified c = Some (apiKey, jwt)
    ∧ headers request !! "x-api-key" = Some (HString apiKey).

(** The balance check returned [ok == true]. *)
Definition balance_ok (calls : list (made event)) : Prop :=
  exists c result,
    c ∈ calls ∧ balance_of c = Some result ∧ ok result = true.

(** The balance check returned [result]. *)
Definition balance_returned (result : BalanceResult)
    (calls : list (made event)) : Prop :=
  exists c, c ∈ calls ∧ balance_of c = Some result.

(** A call of the gate; the others are logging and the usage report. *)
Definition is_gate (c : made event) : bool :=
  is_verify c || is_balance c || is_fetch c.

(** Authentication, then the balance check, then the forward: the gate
    calls come first and in this order, each at most once. *)
Definition gate_in_order (calls : list (made event)) : Prop :=
  forall i j ci cj,
    calls !! i = Some ci -> calls !! j = Some cj ->
    (is_verify ci = true -> is_balance cj = true -> (i < j)%nat)
    ∧ (is_balance ci = true -> is_fetch cj = true -> (i < j)%nat)
    ∧ (is_verify ci = true -> is_fetch cj = true -> (i < j)%nat).

(** The handler refused the request itself, with one of the codes of
    the gate and an error object. *)
Definition refused (r : Reply) : Prop :=
  (reply_status r = 401 ∨ reply_status r = 402 ∨ reply_status r = 503)
  ∧ exists v, reply_sent r = SendJson v.

(** The refusal for want of balance, in the two versions. *)
Definition refusal (result : BalanceResult) : Reply :=
  match serviceUnavailable result with
  | Some true => reject 503 (error_body "Billing service unavailable")
  | _ => reject 402 (error_body "Insufficient balance")
  end.

Definition refusal_first (result : BalanceResult) : Reply :=
  reject 402 (error_body "Insufficient balance").

(** The four ways a run of the handler can go: no usable key; a key
    that does not verify; a principal without balance; a principal with
    balance, whose request is forwarded. *)
Inductive outcome (refuse : BalanceResult -> Reply) (request : Request)
  : list (made event) -> Reply -> Prop :=
| no_key :
    (forall apiKey, headers request !! "x-api-key" = Some (HString apiKey) ->
                    apiKey = "") ->
    outcome refuse request []
      (reject 401 (error_body "Missing x-api-key header"))
| bad_token (apiKey message : string) :
    headers request !! "x-api-key" = Some (HString apiKey) ->
    apiKey ≠ "" ->
    outcome refuse request
      [Made (VerifyToken apiKey) (inl message)]
      (reject 401 (JObj [("error", JStr "Invalid or expired token");
                         ("details", JStr message)]))
| no_balance (apiKey : string) (jwt : Auth.JwtPayload) (result : BalanceResult) :
    headers request !! "x-api-key" = Some (HString apiKey) ->
    apiKey ≠ "" ->
    ok result = false ->
    outcome refuse request
      [Made (VerifyToken apiKey) (inr jwt);
       Made (CheckBalance (Auth.userId jwt) apiKey) result]
      (refuse result)
| forwarded (apiKey : string) (jwt : Auth.JwtPayload) (result : BalanceResult)
    (upstream : option Response) (rest : list (made event)) (reply : Reply) :
    headers request !! "x-api-key" = Some (HString apiKey) ->
    apiKey ≠ "" ->
    ok result = true ->
    Forall (fun c => is_gate c = false) rest ->
    ¬ refused reply ->
    outcome refuse request
      (Made (VerifyToken apiKey) (inr jwt)
       :: Made (CheckBalance (Auth.userId jwt) apiKey) result
       :: Made (Fetch (upstream_request request)) upstream
       :: rest)
      reply.

(** A program that makes no call of the gate. *)
Definition quiet {A : Type} (p : prog event A) : Prop :=
  forall (W : Type) (answer : world event W) (w : W),
    Forall (fun c => is_gate c = false) (run answer p w).1.1.

(** *** The gate, read off the answers of the services

    The handler's verification succeeds when the [x-api-key] header is a
    non-empty string and [verifyToken], asked about it in the world [w],
    answers a principal. *)
Definition verifies {W : Type} (answer : world event W) (w : W)
    (request : Request) (apiKey : string) (jwt : Auth.JwtPayload) (w1 : W)
  : Prop :=
  headers request !! "x-api-key" = Some (HString apiKey)
  ∧ apiKey ≠ ""
  ∧ answer _ (VerifyToken apiKey) w = (inr jwt, w1).

(** Verification succeeds and [checkBalance], asked next about the
    principal's user and the same credential, answers [result]. *)
Definition balance_answer {W : Type} (answer : world event W) (w : W)
    (request : Request) (result : BalanceResult) (w2 : W) : Prop :=
  exists apiKey jwt w1,
    verifies answer w request apiKey jwt w1
    ∧ answer _ (CheckBalance (Auth.userId jwt) apiKey) w1 = (result, w2).

(** Verification succeeds and the balance check answers [ok == true]. *)
Definition admitted {W : Type} (answer : world event W) (w : W)
    (request : Request) : Prop :=
  exists result w2,
    balance_answer answer w request result w2 ∧ ok result = true.

(** A run that does what the answers of the services call for: no call
    without a usable key; the verification alone when it fails; the
    verification and the balance check when the balance is wanting, with
    the refusal [refuse]; and these two calls followed by the fetch when
    the request is admitted. *)
Definition follows_world {W : Type} (answer : world event W) (w : W)
    (request : Request) (refuse : BalanceResult -> Reply)
    (out : list (made event) * Reply * W) : Prop :=
  match headers request !! "x-api-key" with
  | Some (HString apiKey) =>
      if String.eqb apiKey "" then
        out = ([], reject 401 (error_body "Missing x-api-key header"), w)
      else
        match answer _ (VerifyToken apiKey) w with
        | (inl message, w1) =>
            out = ([Made (VerifyToken apiKey) (inl message)],
                   reject 401 (JObj [("error", JStr "Invalid or expired token");
                                     ("details", JStr message)]),
                   w1)
        | (inr jwt, w1) =>
            match answer _ (CheckBalance (Auth.userId jwt) apiKey) w1 with
            | (result, w2) =>
                if ok result then
                  exists upstream rest,
                    out.1.1
                    = Made (VerifyToken apiKey) (inr jwt)
                      :: Made (CheckBalance (Auth.userId jwt) apiKey) result
                      :: Made (Fetch (upstream_request request)) upstream
                      :: rest
                    ∧ Forall (fun c => is_gate c = false) rest
                    ∧ ¬ refused out.1.2
                else
                  out = ([Made (VerifyToken apiKey) (inr jwt);
                          Made (CheckBalance (Auth.userId jwt) apiKey) result],
                         refuse result, w2)
            end
        end
  | _ => out = ([], reject 401 (error_body "Missing x-api-key header"), w)
  end.

End Route.

End Proxy.

(** ** Further notions for the properties of the second part *)

Module BalanceMore.
Import Balance.

(** The fetch did not yield the data of a 2xx answer. *)
Definition failed (net : fetch_outcome) : bool :=
  match net with
  | Responded true (Some _) => false
  | _ => true
  end.

End BalanceMore.

Module ProxyMore.
Import Js StreamParser Prog Proxy.

Section Calls.
Context {BalanceResult : Type}.

Local Abbreviation event := (@Proxy.event BalanceResult).

(** The request handed to [fetch] and what came of it ([None]: the
    promise was rejected), when the call is one. *)
Definition fetch_of (c : made event)
  : option (UpstreamRequest * option Response) :=
  match c with
  | Made e x =>
      match e in Proxy.event X
            return X -> option (UpstreamRequest * option Response) with
      | Fetch rq => fun upstream => Some (rq, upstream)
      | _ => fun _ => None
      end x
  end.

(** The arguments of [reportUsage], when the call is one. *)
Definition report_of (c : made event) : option (string * UsageReport) :=
  match c with
  | Made e _ =>
      match e with
      | ReportUsage apiKey r => Some (apiKey, r)
      | _ => None
      end
  end.

Definition report_first_of (c : made event)
  : option (string * UsageReportFirst) :=
  match c with
  | Made e _ =>
      match e with
      | ReportUsageFirst apiKey r => Some (apiKey, r)
      | _ => None
      end
  end.

(** The credential handed to [verifyToken], when the call is one. *)
Definition verify_arg (c : made event) : option string :=
  match c with
  | Made e _ =>
      match e with
      | VerifyToken apiKey => Some apiKey
      | _ => None
      end
  end.

(** The user and the credential handed to [checkBalance]. *)
Definition balance_args (c : made event) : option (string * string) :=
  match c with
  | Made e _ =>
      match e with
      | CheckBalance userId apiKey => Some (userId, apiKey)
      | _ => None
      end
  end.

Definition log_of (c : made event) : option (string * string) :=
  match c with
  | Made e _ =>
      match e with
      | Log level message => Some (level, message)
      | _ => None
      end
  end.

End Calls.

Section Passed.
Context {BalanceResult : Type}.
Variable anthropicApiKey : string.

Local Abbreviation event := (@Proxy.event BalanceResult).

(** What the two handlers have in common: the gate, the forward, and a
    way [answering] to deal with the upstream answer. *)
Inductive passed {W : Type} (answer : world event W)
    (answering : string -> Auth.JwtPayload -> json -> Response -> prog event Reply)
    (request : Request) : list (made event) * Reply * W -> Prop :=
| stopped (calls : list (made event)) (reply : Reply) (w : W) :
    refused reply ->
    omap fetch_of calls = [] -> omap report_of calls = [] ->
    omap report_first_of calls = [] ->
    passed answer answering request (calls, reply, w)
| unreachable (apiKey : string) (jwt : Auth.JwtPayload) (result : BalanceResult)
    (w : W) :
    headers request !! "x-api-key" = Some (HString apiKey) ->
    passed answer answering request
      ([Made (VerifyToken apiKey) (inr jwt);
        Made (CheckBalance (Auth.userId jwt) apiKey) result;
        Made (Fetch (upstream_request anthropicApiKey request)) None;
        Made (Log "error" "Failed to reach Anthropic API") tt],
       reject 502 (error_body "Failed to reach Anthropic API"), w)
| answered (apiKey : string) (jwt : Auth.JwtPayload) (result : BalanceResult)
    (r : Response) (w1 : W) :
    headers request !! "x-api-key" = Some (HString apiKey) ->
    passed answer answering request
      (Made (VerifyToken apiKey) (inr jwt)
       :: Made (CheckBalance (Auth.userId jwt) apiKey) result
       :: Made (Fetch (upstream_request anthropicApiKey request)) (Some r)
       :: (run answer (answering apiKey jwt (request_model request) r) w1).1.1,
       (run answer (answering apiKey jwt (request_model request) r) w1).1.2,
       (run answer (answering apiKey jwt (request_model request) r) w1).2).

End Passed.

(** [value && typeof value === "string"], on a request header. *)
Definition string_value (v : option header_value) : option string :=
  match v with
  | Some (HString s) => if String.eqb s "" then None else Some s
  | _ => None
  end.

(** What a call of [fetch] by the handler looks like, for the request it
    serves: at most one call, the fixed endpoint, the client's body, the
    configured key, and of the client's headers the three of
    [FORWARD_HEADERS] and no other. *)
Definition upstream_shape {BalanceResult : Type} (anthropicApiKey : string)
    (request : Request) (calls : list (made (@Proxy.event BalanceResult)))
  : Prop :=
  (length (omap fetch_of calls) <= 1)%nat
  ∧ forall rq upstream,
      (rq, upstream) ∈ omap fetch_of calls ->
      url rq = "https://api.anthropic.com/v1/messages"
      ∧ method rq = "POST"
      ∧ sent_body rq = body request
      ∧ sent_headers rq !! "x-api-key" = Some anthropicApiKey
      ∧ sent_headers rq !! "content-type"
        = Some (default "application/json"
                  (string_value (headers request !! "content-type")))
      ∧ sent_headers rq !! "anthropic-version"
        = string_value (headers request !! "anthropic-version")
      ∧ sent_headers rq !! "anthropic-beta"
        = string_value (headers request !! "anthropic-beta")
      ∧ forall h, is_Some (sent_headers rq !! h) ->
                  h ∈ ["x-api-key"; "content-type"; "anthropic-version";
                       "anthropic-beta"].

(** A report is the handler's own: it goes out under the credential
    [apiKey], names the principal [jwt], and its cost is computed from the
    model and the token counts it carries. *)
Definition own_report (calculateCostUsd : json -> usage_tokens -> json)
    (apiKey : string) (jwt : Auth.JwtPayload)
    (sent : string * UsageReport) : Prop :=
  sent.1 = apiKey
  ∧ userId sent.2 = Auth.userId jwt
  ∧ cost sent.2
    = calculateCostUsd (model sent.2)
        (mkUsage (inputTokens sent.2) (outputTokens sent.2)
           (cacheReadTokens sent.2) (cacheCreationTokens sent.2)).

(** The bytes a reply hands to the client. *)
Definition payload_bytes (s : sent) : option chunk :=
  match s with
  | SendBuffer bytes => Some bytes
  | SendStream chunks => Some (concat chunks)
  | SendJson _ => None
  end.

End ProxyMore.

(** ** config.ts: the settings read when the module is loaded *)

Module Config.

Definition missing_variable (name : string) : string :=
  "Missing required environment variable: " ++ name.

Section Load.
(** [process.env]: the variables that are set, each a string. *)
Variable env : gmap string string.

(** [requireEnv(name)]: the value, or the message of the error thrown. *)
Definition requireEnv (name : string) : string + string :=
  match env !! name with
  | Some value =>
      if String.eqb value "" then inl (missing_variable name) else inr value
  | None => inl (missing_variable name)
  end.

(** [parseInt(text, 10)] *)
Context {number : Type}.
Variable parseInt : string -> number.

Record config : Type := mkConfig {
  anthropicApiKey : string;
  jwtSecret : string;
  domesticApiUrl : string;
  port : number
}.

(** [process.env.PORT || "3000"] *)
Definition port_text : string :=
  match env !! "PORT" with
  | Some value => if String.eqb value "" then "3000" else value
  | None => "3000"
  end.

(** The object literal [config], its properties evaluated in order. *)
Definition load : string + config :=
  match requireEnv "ANTHROPIC_API_KEY" with
  | inl message => inl message
  | inr anthropicApiKey =>
      match requireEnv "JWT_SECRET" with
      | inl message => inl message
      | inr jwtSecret =>
          match requireEnv "DOMESTIC_API_URL" with
          | inl message => inl message
          | inr domesticApiUrl =>
              inr (mkConfig anthropicApiKey jwtSecret domesticApiUrl
                     (parseInt port_text))
          end
      end
  end.

End Load.

Arguments mkConfig {number}.
Arguments config : clear implicits.

(** A variable counts as set when it has a non-empty value. *)
Definition is_set (env : gmap string string) (name : string) : Prop :=
  exists value, env !! name = Some value ∧ value ≠ "".

#[global] Instance is_set_dec (env : gmap string string) (name : string) :
  Decision (is_set env name).
Proof.
  unfold is_set. destruct (env !! name) as [value|].
  - destruct (decide (value = "")) as [->|Hne].
    + right. by intros (v & [= <-] & Hv).
    + left. by exists value.
  - right. by intros (v & Hv & _).
Defined.

Definition required : list string :=
  ["ANTHROPIC_API_KEY"; "JWT_SECRET"; "DOMESTIC_API_URL"].

End Config.

(** ** The stream parser under different chunkings *)

Module StreamMore.
Import Js StreamParser.

Section Decoder.
Context {D : Type}.
Variable decode : D -> chunk -> D * string.

(** [decoder.decode(chunk, { stream: true })] holds back the bytes of an
    unfinished sequence: decoding two chunks in a row gives the text of
    decoding them joined, and an empty chunk gives no text. *)
Definition streaming : Prop :=
  (forall d, decode d [] = (d, ""))
  ∧ forall d a b,
      decode d (a ++ b)
      = let '(d1, t1) := decode d a in
        let '(d2, t2) := decode d1 b in
        (d2, (t1 ++ t2)%string).

(** What the parser has made of the stream: everything but the chunks it
    has passed on. *)
Definition parsed (s : stream D) : stream D :=
  mkStream (heap s) (usage s) (model s) (buffer s) (decoder s) [].

(** The same, with another residual line and decoder state. *)
Definition with_tail (b : string) (d : D) (s : stream D) : stream D :=
  mkStream (heap s) (usage s) (model s) b d [].

End Decoder.

End StreamMore.

(** ** The reporter's pending work *)

Module BillingMore.
Import Billing.

Section Pending.
Context {number : Type}.
Variable add : number -> number -> number.

(** The credential and the body of the POST an entry stands for. *)
Definition origin (x : entry number) : string * payload number :=
  (token x.2, failed_payload x.2).

(** Every POST that is under way or still to be made. *)
Definition pending (s : reporter number) : list (string * payload number) :=
  sending s ++ (origin <$> failedReports s) ++ (origin <$> retrying s).

(** What [reportUsage] was asked to send in the course of a script. *)
Definition submitted (script : list (action number))
  : list (string * payload number) :=
  omap (fun a =>
          match a with
          | Report tok report => Some (tok, report_payload add report)
          | _ => None
          end) script.

End Pending.

End BillingMore.

(** ** Concrete platform services and sample data *)

Module Samples.
Import Js JsonText StreamParser.

(** The decoder of 7-bit text: one byte, one code unit, nothing held back.
    On such text it is what TextDecoder does. *)
Definition ascii_decode (d : unit) (c : chunk) : unit * string :=
  (d, string_of_list_byte c).

(** [new TextEncoder().encode(text)] on 7-bit text. *)
Definition encode (text : string) : chunk := list_byte_of_string text.

Definition pipeChunks (chunks : list string) : stream unit :=
  pipeThrough ascii_decode tt parse (List.map encode chunks).

Definition message_start_line : string :=
  dq "data: {'type':'message_start','message':{'model':'claude-sonnet-4-6','usage':{'input_tokens':42}}}".

Definition LF : string := String newline EmptyString.

(** A verifier that accepts every credential, with the claims given. *)
Definition accept (claims : list (string * json))
  : string -> string + list (string * json) :=
  fun _ => inr claims.

Definition empty_id_claims : list (string * json) := [("userId", JStr "")].

Definition sub_claims : list (string * json) :=
  [("userId", JNull); ("sub", JStr "user-1"); ("id", num 7)].

(** Answers of the billing server (balance.test.ts). *)
Definition paid_only : Balance.BalanceData :=
  Balance.mkData (Some 10.5%Q) (Some 0%Q) None None.

Definition total_only : Balance.BalanceData :=
  Balance.mkData (Some 0%Q) None (Some 300000%Q) (Some 0%Q).

(** [baseReport] of billing.test.ts. *)
Definition baseReport : Billing.UsageReport Q :=
  Billing.mkReport "user-1" "claude-sonnet-4-6" 1000%Q 500%Q 200%Q 100%Q
    0.0105%Q.

Definition baseReport_first : BillingFirst.UsageReport Q :=
  BillingFirst.mkReport "user-1" "claude-sonnet-4-6"
    (mkUsage 1000%Q 500%Q 200%Q 100%Q) 0.0105%Q.

(** A report whose first send fails at time [t]. *)
Definition fail_report (t : Z) : list (Billing.action Q) :=
  [Billing.Report "token" baseReport; Billing.FirstSettles 0 false t].

(** The retry ladder of billing.test.ts: every POST fails. *)
Definition ladder_script : list (Billing.action Q) :=
  fail_report 0
  ++ [Billing.Tick 31000; Billing.RetrySettles 0 false 31001;
      Billing.Tick 92001; Billing.RetrySettles 0 false 92002;
      Billing.Tick 213002; Billing.RetrySettles 0 false 213003;
      Billing.Tick 513003].

Definition ladder_state : Billing.reporter Q := Billing.run Qplus ladder_script.

(** A thousand and one failed reports, the first of them due half a
    minute later and then under retry while one more report fails. *)
Definition full_script : list (Billing.action Q) :=
  fail_report 0
  ++ concat (replicate 999 (fail_report 1000))
  ++ [Billing.Tick 30000]
  ++ fail_report 30001.

Definition full_state : Billing.reporter Q := Billing.run Qplus full_script.

(** A queue holding one entry that is due with its counter at the limit. *)
Definition spent_entry : Billing.entry Q :=
  (0%nat, Billing.mkFailed "token" (Billing.report_payload Qplus baseReport) 3 0).

Definition spent_state : Billing.reporter Q :=
  Billing.mkReporter [spent_entry] [] [] [0%nat; 0%nat; 0%nat] 1.

(** *** A world for the route handler, as proxy.test.ts mocks it *)

Definition as_number (v : json) : Q :=
  match v with
  | JNum q => q
  | _ => 0%Q
  end.

Definition as_text (v : json) : string :=
  match v with
  | JStr s => s
  | _ => EmptyString
  end.

(** [v > 0] on numbers. *)
Definition positive (v : option json) : bool :=
  match v with
  | Some (JNum q) => 0 <? Qnum q
  | _ => false
  end.

(** NaN is written [JNull], as [JSON.stringify] writes it. *)
Definition cost_of (model : json) (usage : usage_tokens) : json :=
  match Pricing.calculateCostUsd (as_text model)
          (mkUsage (as_number (inputTokens usage))
             (as_number (outputTokens usage))
             (as_number (cacheReadTokens usage))
             (as_number (cacheCreationTokens usage))) with
  | Some cost => JNum cost
  | None => JNull
  end.

Definition user1 : Auth.JwtPayload :=
  Auth.mkJwt "user-1" [("userId", JStr "user-1")].

(** Every token verifies as [user1]; the balance check returns [result];
    the upstream answers [upstream] ([None]: unreachable). *)
Definition mock (result : Balance.BalanceResult) (upstream : option Proxy.Response)
  : Prog.world (@Proxy.event Balance.BalanceResult) unit :=
  fun X e w =>
    match e in Proxy.event X return X * unit with
    | Proxy.VerifyToken _ => (inr user1, w)
    | Proxy.CheckBalance _ _ => (result, w)
    | Proxy.Fetch _ => (upstream, w)
    | Proxy.ReportUsage _ _ => (tt, w)
    | Proxy.ReportUsageFirst _ _ => (tt, w)
    | Proxy.Log _ _ => (tt, w)
    end.

Definition handle (result : Balance.BalanceResult)
    (upstream : option Proxy.Response) (request : Proxy.Request)
  : list (Prog.made (@Proxy.event Balance.BalanceResult)) * Proxy.Reply * unit :=
  Prog.run (mock result upstream)
    (Proxy.registerProxyRoute Balance.ok Balance.serviceUnavailable
       "sk-real-anthropic-key" ascii_decode tt parse string_of_list_byte
       positive cost_of request) tt.


Definition valid_request : Proxy.Request :=
  Proxy.mkRequest
    (<["content-type" := Proxy.HString "application/json"]>
       (<["x-api-key" := Proxy.HString "valid-jwt"]> ∅))
    (parse (dq "{'model':'claude-sonnet-4-6','messages':[]}")).

Definition with_balance : Balance.BalanceResult :=
  Balance.mkResult 10 0 true None.
Definition broke : Balance.BalanceResult :=
  Balance.mkResult 0 0 false None.

(** The report handed to [reportUsage], when the call is one. *)
Definition reported (c : Prog.made (@Proxy.event Balance.BalanceResult))
  : option (string * Proxy.UsageReport) :=
  match c with
  | Prog.Made e _ =>
      match e with
      | Proxy.ReportUsage apiKey r => Some (apiKey, r)
      | _ => None
      end
  end.

(** The streamed answer of scenario S1. *)
Definition sse_answer : Proxy.Response :=
  Proxy.mkResponse 200
    (<["request-id" := "req_1"]>
       (<["content-type" := "text/event-stream"]> ∅))
    (Some (List.map encode
       [ (dq "data: {'type':'message_start','message':{'model':'claude-sonnet-4-6','usage':{'input_tokens':500,'cache_read_input_tokens':100,'cache_creation_input_tokens':0}}}" ++ LF ++ LF)%string;
         (dq "data: {'type':'message_delta','usage':{'output_tokens':150}}" ++ LF ++ LF)%string;
         ("data: [DONE]" ++ LF ++ LF)%string ])).

End Samples.

(** ** More sample data *)

Module MoreSamples.
Import Js JsonText StreamParser Samples.

Definition rich : Balance.BalanceData :=
  Balance.mkData (Some 20%Q) (Some 500%Q) None None.

Definition rich_entry : Balance.CacheEntry := Balance.mkEntry 20 500 120000.

(** A non-streamed answer of the upstream, as proxy.test.ts mocks it. *)
Definition json_answer : Proxy.Response :=
  Proxy.mkResponse 200
    (<["x-powered-by" := "upstream"]>
       (<["x-ratelimit-remaining" := "99"]>
          (<["content-type" := "application/json"]> ∅)))
    (Some [encode (dq "{'model':'claude-sonnet-4-6','usage':{'input_tokens':1000,'output_tokens':500}}")]).

(** The bytes of a message_start line. *)
Definition start_bytes : chunk := encode (message_start_line ++ LF)%string.

Definition sent_upstream : Proxy.UpstreamRequest :=
  Proxy.upstream_request "sk-real-anthropic-key" valid_request.

End MoreSamples.

Module ConfigSamples.

Definition full_env : gmap string string :=
  <["DOMESTIC_API_URL" := "https://billing.example.cn"]>
    (<["JWT_SECRET" := "secret"]>
       (<["ANTHROPIC_API_KEY" := "sk-real-anthropic-key"]> ∅)).

(** The secret is set but empty, and the billing URL is missing. *)
Definition empty_secret_env : gmap string string :=
  <["JWT_SECRET" := ""]>
    (<["ANTHROPIC_API_KEY" := "sk-real-anthropic-key"]> ∅).

End ConfigSamples.

(** * Properties *)

Import Js StreamParser.
Local Open Scope list_scope.

(** ** The usage-tracking transform *)

Section StreamParserFacts.
Context {D : Type}.
Variable decode : D -> chunk -> D * string.
Variable decoder0 : D.
Variable JSON_parse : string -> option json.

Lemma enqueued_transform_line (line : string) (s : stream D) :
  enqueued (transform_line JSON_parse line s) = enqueued s.
Proof.
  unfold transform_line.
  repeat (case_match; simpl; try reflexivity).
Qed.

Lemma enqueued_flush_line (line : string) (s : stream D) :
  enqueued (flush_line JSON_parse line s) = enqueued s.
Proof.
  unfold flush_line.
  repeat (case_match; simpl; try reflexivity).
Qed.

Lemma enqueued_lines (f : string -> stream D -> stream D) (lines : list string) :
  (forall line s, enqueued (f line s) = enqueued s) ->
  forall s, enqueued (fold_left (fun acc line => f line acc) lines s) = enqueued s.
Proof.
  intros Hf. induction lines as [|line lines IH]; intros s; simpl.
  - reflexivity.
  - rewrite IH. apply Hf.
Qed.

Lemma enqueued_transform (c : chunk) (s : stream D) :
  enqueued (transform decode JSON_parse c s) = enqueued s ++ [c].
Proof.
  unfold transform.
  destruct (decode (decoder (enqueue c s)) c) as [d text].
  rewrite (enqueued_lines (transform_line JSON_parse)).
  - reflexivity.
  - apply enqueued_transform_line.
Qed.

Lemma enqueued_flush (s : stream D) :
  enqueued (flush JSON_parse s) = enqueued s.
Proof.
  unfold flush. case_match; [|reflexivity].
  apply (enqueued_lines (flush_line JSON_parse)), enqueued_flush_line.
Qed.

Lemma enqueued_pipe (chunks : list chunk) (s : stream D) :
  enqueued (pipe decode JSON_parse chunks s) = enqueued s ++ chunks.
Proof.
  unfold pipe, feed. rewrite enqueued_flush.
  revert s. induction chunks as [|c chunks IH]; intros s; simpl.
  - by rewrite app_nil_r.
  - rewrite IH, enqueued_transform, <- app_assoc. reflexivity.
Qed.

(** C2.  Whatever chunks are written to the transform, and whatever the
    decoder and the JSON parser make of them, the chunks it has emitted
    when the stream is closed are the chunks written, so their
    concatenation is byte for byte the concatenation of the input. *)
Theorem passthrough_bytes (chunks : list chunk) :
  enqueued (pipeThrough decode decoder0 JSON_parse chunks) = chunks
  ∧ concat (enqueued (pipeThrough decode decoder0 JSON_parse chunks))
    = concat chunks.
Proof.
  assert (enqueued (pipeThrough decode decoder0 JSON_parse chunks) = chunks) as H.
  { unfold pipeThrough. rewrite enqueued_pipe. reflexivity. }
  split; [exact H | by rewrite H].
Qed.

(** *** The accumulator is private *)

Lemma agree_refl (s : stream D) : agree s s.
Proof. by repeat split. Qed.

Lemma agree_trans (s1 s2 s3 : stream D) :
  agree s1 s2 -> agree s2 s3 -> agree s1 s3.
Proof.
  intros (?&?&?&?&?&?) (?&?&?&?&?&?). repeat split; congruence.
Qed.

Lemma extractUsage_agree (event : json) (l : loc) (h h' : store) :
  h !! l = h' !! l ->
  match extractUsage event l h, extractUsage event l h' with
  | Some h1, Some h1' => h1 !! l = h1' !! l
  | None, None => True
  | _, _ => False
  end.
Proof.
  intros Hl. unfold extractUsage.
  destruct event; try exact I; by rewrite !lookup_alter_eq, Hl.
Qed.

Lemma transform_line_agree (line : string) (s s' : stream D) :
  agree s s' ->
  agree (transform_line JSON_parse line s) (transform_line JSON_parse line s').
Proof.
  destruct s as [h u m b d q], s' as [h' u' m' b' d' q'].
  intros (Hu&Hm&Hb&Hd&Hq&Hh); simpl in *; subst.
  unfold transform_line; simpl.
  destruct (negb (startsWith line "data: ")); [by repeat split|].
  destruct (String.eqb _ "[DONE]"); [by repeat split|].
  destruct (JSON_parse _) as [event|]; [|by repeat split].
  pose proof (extractUsage_agree event u' h h' Hh) as He.
  destruct (extractUsage event u' h) as [h1|],
           (extractUsage event u' h') as [h1'|];
    try done; try (by repeat split).
  destruct (is_string _ _ && truthy _); [|by repeat split].
  destruct (opt_prop _ "model"); by repeat split.
Qed.

Lemma flush_line_agree (line : string) (s s' : stream D) :
  agree s s' ->
  agree (flush_line JSON_parse line s) (flush_line JSON_parse line s').
Proof.
  destruct s as [h u m b d q], s' as [h' u' m' b' d' q'].
  intros (Hu&Hm&Hb&Hd&Hq&Hh); simpl in *; subst.
  unfold flush_line; simpl.
  destruct (negb (startsWith line "data: ")); [by repeat split|].
  destruct (String.eqb _ "[DONE]"); [by repeat split|].
  destruct (JSON_parse _) as [event|]; [|by repeat split].
  pose proof (extractUsage_agree event u' h h' Hh) as He.
  destruct (extractUsage event u' h) as [h1|],
           (extractUsage event u' h') as [h1'|];
    try done; by repeat split.
Qed.

Lemma lines_agree (f : string -> stream D -> stream D) (lines : list string) :
  (forall line s s', agree s s' -> agree (f line s) (f line s')) ->
  forall s s', agree s s' ->
    agree (fold_left (fun acc line => f line acc) lines s)
          (fold_left (fun acc line => f line acc) lines s').
Proof.
  intros Hf. induction lines as [|line lines IH]; intros s s' Hs; simpl.
  - exact Hs.
  - apply IH, Hf, Hs.
Qed.

Lemma transform_agree (c : chunk) (s s' : stream D) :
  agree s s' ->
  agree (transform decode JSON_parse c s) (transform decode JSON_parse c s').
Proof.
  intros (Hu&Hm&Hb&Hd&Hq&Hh). unfold transform. simpl.
  rewrite <- Hd, <- Hb.
  destruct (decode (decoder s) c) as [d text].
  apply (lines_agree (transform_line JSON_parse)).
  - apply transform_line_agree.
  - repeat split; simpl; congruence.
Qed.

Lemma flush_agree (s s' : stream D) :
  agree s s' -> agree (flush JSON_parse s) (flush JSON_parse s').
Proof.
  intros Hs. unfold flush.
  destruct Hs as (Hu&Hm&Hb&Hd&Hq&Hh). rewrite <- Hb.
  destruct (negb _); [|by repeat split].
  apply (lines_agree (flush_line JSON_parse));
    [apply flush_line_agree | by repeat split].
Qed.

Lemma feed_agree (chunks : list chunk) (s s' : stream D) :
  agree s s' ->
  agree (feed decode JSON_parse chunks s) (feed decode JSON_parse chunks s').
Proof.
  revert s s'. unfold feed.
  induction chunks as [|c chunks IH]; intros s s' Hs; simpl.
  - exact Hs.
  - apply IH, transform_agree, Hs.
Qed.

Lemma pipe_agree (chunks : list chunk) (s s' : stream D) :
  agree s s' ->
  agree (pipe decode JSON_parse chunks s) (pipe decode JSON_parse chunks s').
Proof. intros Hs. apply flush_agree, feed_agree, Hs. Qed.

Lemma getUsage_fresh (s : stream D) :
  is_Some (heap s !! usage s) -> (getUsage s).2 ≠ usage s.
Proof.
  intros Hsome Heq. simpl in Heq.
  apply (elem_of_dom (heap s)) in Hsome. rewrite <- Heq in Hsome.
  by apply is_fresh in Hsome.
Qed.

Lemma getUsage_agree (s : stream D) :
  is_Some (heap s !! usage s) -> agree (getUsage s).1 s.
Proof.
  intros Hsome. repeat split; simpl.
  rewrite lookup_insert_ne; [done|]. apply (getUsage_fresh s Hsome).
Qed.

Lemma assign_agree (l : loc) (v : usage_tokens) (s : stream D) :
  l ≠ usage s -> agree (assign l v s) s.
Proof.
  intros Hl. repeat split; simpl. by rewrite lookup_insert_ne.
Qed.

Lemma read_usage_value (s : stream D) :
  (read_usage s).2 = default zero_usage (heap s !! usage s).
Proof. unfold read_usage. simpl. by rewrite lookup_insert_eq. Qed.

Lemma read_usage_agree (s s' : stream D) :
  agree s s' -> (read_usage s).2 = (read_usage s').2.
Proof.
  intros (Hu&_&_&_&_&Hh). by rewrite !read_usage_value, Hh.
Qed.

(** The accumulator of a stream made by [createUsageTrackingTransform]
is in the store, and stays there. *)
Lemma allocated_line (f : string -> stream D -> stream D) (lines : list string) :
  (forall line s, is_Some (heap s !! usage s) ->
                  is_Some (heap (f line s) !! usage (f line s))) ->
  forall s, is_Some (heap s !! usage s) ->
    is_Some (heap (fold_left (fun acc line => f line acc) lines s)
             !! usage (fold_left (fun acc line => f line acc) lines s)).
Proof.
  intros Hf. induction lines as [|line lines IH]; intros s Hs; simpl; [done|].
  by apply IH, Hf.
Qed.

Lemma allocated_extractUsage (event : json) (l : loc) (h h' : store) :
  extractUsage event l h = Some h' -> is_Some (h !! l) -> is_Some (h' !! l).
Proof.
  unfold extractUsage. intros Hx Hl.
  assert (h' = alter (fun u => on_message_delta event (on_message_start event u))
                 l h) as -> by (destruct event; by simplify_eq).
  rewrite lookup_alter_eq. by apply fmap_is_Some.
Qed.

Lemma allocated_transform_line (line : string) (s : stream D) :
  is_Some (heap s !! usage s) ->
  is_Some (heap (transform_line JSON_parse line s)
           !! usage (transform_line JSON_parse line s)).
Proof.
  intros Hs. unfold transform_line.
  destruct (negb _); [done|]. destruct (String.eqb _ _); [done|].
  destruct (JSON_parse _) as [event|]; [|done].
  destruct (extractUsage event (usage s) (heap s)) as [h'|] eqn:Hx; [|done].
  pose proof (allocated_extractUsage _ _ _ _ Hx Hs).
  destruct (is_string _ _ && truthy _); [|done].
  by destruct (opt_prop _ "model").
Qed.

Lemma allocated_flush_line (line : string) (s : stream D) :
  is_Some (heap s !! usage s) ->
  is_Some (heap (flush_line JSON_parse line s)
           !! usage (flush_line JSON_parse line s)).
Proof.
  intros Hs. unfold flush_line.
  destruct (negb _); [done|]. destruct (String.eqb _ _); [done|].
  destruct (JSON_parse _) as [event|]; [|done].
  destruct (extractUsage event (usage s) (heap s)) as [h'|] eqn:Hx; [|done].
  by pose proof (allocated_extractUsage _ _ _ _ Hx Hs).
Qed.

Lemma allocated_pipe (chunks : list chunk) (h : store) :
  let s := createUsageTrackingTransform decoder0 h in
  is_Some (heap (feed decode JSON_parse chunks s)
           !! usage (feed decode JSON_parse chunks s))
  ∧ is_Some (heap (pipe decode JSON_parse chunks s)
             !! usage (pipe decode JSON_parse chunks s)).
Proof.
  intros s.
  assert (is_Some (heap (feed decode JSON_parse chunks s)
                   !! usage (feed decode JSON_parse chunks s))) as Hfeed.
  { assert (is_Some (heap s !! usage s)) as Hs.
    { subst s. simpl. rewrite lookup_insert_eq. by eexists. }
    revert Hs. generalize s. unfold feed.
    induction chunks as [|c chunks IH]; intros s0 Hs; simpl; [done|].
    apply IH. unfold transform.
    destruct (decode (decoder (enqueue c s0)) c) as [d text].
    apply (allocated_line (transform_line JSON_parse));
      [apply allocated_transform_line | exact Hs]. }
  split; [exact Hfeed|].
  unfold pipe, flush. destruct (negb _); [|exact Hfeed].
  apply (allocated_line (flush_line JSON_parse));
    [apply allocated_flush_line | exact Hfeed].
Qed.

(** C10.  [getUsage()] hands out a new object holding the values of the
    accumulator.  The call leaves the accumulator, the model and the
    rest of the closure as they were; so does any assignment [v] the
    caller makes to the object it got; and whatever chunks the stream
    processes afterwards, a later [getUsage()] and [getModel()] answer
    as if the first call and the assignment had not happened. *)
Theorem getUsage_returns_a_copy (s : stream D) :
  is_Some (heap s !! usage s) ->
  let s1 := (getUsage s).1 in
  let l := (getUsage s).2 in
  heap s !! l = None
  ∧ heap s1 !! l = heap s !! usage s
  ∧ agree s1 s
  ∧ getModel s1 = getModel s
  ∧ forall (v : usage_tokens) (chunks : list chunk),
      let s2 := assign l v s1 in
      agree s2 s
      ∧ (read_usage s2).2 = default zero_usage (heap s !! usage s)
      ∧ (read_usage (feed decode JSON_parse chunks s2)).2
        = (read_usage (feed decode JSON_parse chunks s)).2
      ∧ getModel (feed decode JSON_parse chunks s2)
        = getModel (feed decode JSON_parse chunks s)
      ∧ (read_usage (pipe decode JSON_parse chunks s2)).2
        = (read_usage (pipe decode JSON_parse chunks s)).2
      ∧ getModel (pipe decode JSON_parse chunks s2)
        = getModel (pipe decode JSON_parse chunks s).
Proof.
  intros Hsome s1 l.
  pose proof (getUsage_agree s Hsome) as H1.
  pose proof (getUsage_fresh s Hsome) as Hl.
  split.
  { apply (not_elem_of_dom (heap s)). apply is_fresh. }
  split.
  { subst s1 l. simpl. rewrite lookup_insert_eq.
    destruct Hsome as [u Hu]. by rewrite Hu. }
  split; [exact H1|].
  split; [reflexivity|].
  intros v chunks s2.
  assert (agree s2 s) as H2.
  { apply (agree_trans _ s1); [|exact H1]. apply assign_agree. exact Hl. }
  split; [exact H2|].
  split.
  { rewrite read_usage_value. by destruct H2 as (->&_&_&_&_&->). }
  split; [apply read_usage_agree, feed_agree, H2|].
  split; [apply feed_agree, H2|].
  split; [apply read_usage_agree, pipe_agree, H2|].
  apply pipe_agree, H2.
Qed.

(** *** What [flush] does with the residual buffer *)

Lemma split_single_line (b : string) :
  single_line b = true -> split_lines b = [b].
Proof.
  induction b as [|c b IH]; simpl; [done|].
  intros [Hc Hb]%andb_prop. apply negb_true_iff in Hc. rewrite Hc.
  by rewrite (IH Hb).
Qed.

Lemma split_lines_last (t : string) :
  single_line (List.last (split_lines t) "") = true.
Proof.
  induction t as [|c t IH]; simpl; [done|].
  destruct (Ascii.eqb c newline) eqn:Hc.
  - destruct (split_lines t) eqn:Ht; [done|]. exact IH.
  - destruct (split_lines t) as [|piece rest] eqn:Ht; simpl.
    + by rewrite Hc.
    + destruct rest; simpl in *; [by rewrite Hc, IH | exact IH].
Qed.

Lemma trim_blank_not_data (b : string) :
  trim b = "" -> startsWith b "data: " = false.
Proof.
  intros Hb. destruct (startsWith b "data: ") eqn:Hp; [|done].
  unfold startsWith in Hp. destruct b as [|c b]; [done|].
  cbn [String.prefix] in Hp.
  destruct (ascii_dec "d" c) as [<-|]; [|done].
  unfold trim in Hb.
  change (trim_start (String "d" b)) with (String "d" b) in Hb.
  cbn [trim_end] in Hb.
  destruct (trim_end b); [|done].
  change (is_js_space "d") with false in Hb. done.
Qed.

Lemma buffer_transform_line (line : string) (s : stream D) :
  buffer (transform_line JSON_parse line s) = buffer s.
Proof.
  unfold transform_line. repeat (case_match; simpl; try reflexivity).
Qed.

Lemma buffer_single_line (chunks : list chunk) (s : stream D) :
  single_line (buffer s) = true ->
  single_line (buffer (feed decode JSON_parse chunks s)) = true.
Proof.
  revert s. unfold feed.
  induction chunks as [|c chunks IH]; intros s Hs; simpl; [exact Hs|].
  apply IH. unfold transform.
  destruct (decode (decoder (enqueue c s)) c) as [d text].
  match goal with
  | |- context [fold_left ?f ?ls ?s0] =>
      assert (buffer (fold_left f ls s0) = buffer s0) as ->
  end.
  { generalize (set_buffer (List.last (split_lines (buffer (enqueue c s) ++ text)) "")
                  (set_decoder d (enqueue c s))).
    induction (removelast _) as [|line lines IHl]; intros s0; simpl; [done|].
    by rewrite IHl, buffer_transform_line. }
  simpl. apply split_lines_last.
Qed.

Lemma heap_flush_line (line : string) (s : stream D) :
  heap (flush_line JSON_parse line s) = heap (transform_line JSON_parse line s)
  ∧ model (flush_line JSON_parse line s) = model s.
Proof.
  unfold flush_line, transform_line.
  repeat (case_match; simpl; try done).
Qed.

(** On a buffer without newline, [flush] updates the accumulator as the
    loop of [transform] does for that line, and leaves the model alone. *)
Lemma flush_single_line (s : stream D) :
  single_line (buffer s) = true ->
  heap (flush JSON_parse s) = heap (transform_line JSON_parse (buffer s) s)
  ∧ model (flush JSON_parse s) = model s.
Proof.
  intros Hs. unfold flush.
  destruct (String.eqb (trim (buffer s)) "") eqn:Hb; simpl.
  - apply String.eqb_eq, trim_blank_not_data in Hb.
    unfold transform_line. by rewrite Hb.
  - rewrite (split_single_line _ Hs). simpl. apply heap_flush_line.
Qed.

(** Whatever was written before the stream is closed, closing it treats
    the residual line as [transform] would for the token counts, and
    never sets the model. *)
Lemma flush_after_feed (chunks : list chunk) :
  let s := feed decode JSON_parse chunks
             (createUsageTrackingTransform decoder0 ∅) in
  heap (flush JSON_parse s) = heap (transform_line JSON_parse (buffer s) s)
  ∧ getModel (flush JSON_parse s) = getModel s.
Proof.
  intros s. apply flush_single_line, buffer_single_line. reflexivity.
Qed.

End StreamParserFacts.

Import Samples.

(** C8 (the code departs from it).  A [message_start] line that ends the
    stream without a newline is parsed at [flush]: the token counts are
    those of the same line read inside a chunk, but the model stays
    empty, while the line read inside a chunk sets it. *)
Theorem flush_misses_model :
  let at_flush := pipeChunks [message_start_line] in
  let in_chunk := pipeChunks [(message_start_line ++ LF)%string] in
  (read_usage at_flush).2 = (read_usage in_chunk).2
  ∧ inputTokens (read_usage at_flush).2 = num 42
  ∧ getModel in_chunk = JStr "claude-sonnet-4-6"
  ∧ getModel at_flush = JStr "".
Proof. vm_compute. repeat split. Qed.

Lemma getUsage_returns_a_copy_witness :
  let s := createUsageTrackingTransform tt ∅ in
  is_Some (heap s !! usage s)
  ∧ heap s !! (getUsage s).2 = None.
Proof.
  intros s.
  assert (is_Some (heap s !! usage s)) as H by (vm_compute; eauto).
  split; [exact H|].
  apply (getUsage_returns_a_copy ascii_decode JsonText.parse s H).
Defined.


(** ** The token verifier *)

Section AuthFacts.
Import Auth.
Variable jwtVerify : string -> string + list (string * json).

Lemma first_present_chain (payload : list (string * json)) :
  nullish_or
    (nullish_or (obj_get payload "userId") (obj_get payload "sub"))
    (obj_get payload "id")
  = first_present payload
  ∨ (first_present payload = None
     ∧ typeof_string
         (nullish_or
            (nullish_or (obj_get payload "userId") (obj_get payload "sub"))
            (obj_get payload "id")) = None).
Proof.
  unfold first_present, nullish_or; simpl.
  destruct (obj_get payload "userId") as [[]|],
           (obj_get payload "sub") as [[]|],
           (obj_get payload "id") as [[]|]; simpl; auto.
Qed.

(** C9, as the code has it.  When the signature of the credential
    verifies, the verifier looks at the first present of the claims
    [userId], [sub], [id]: a string there, empty or not, becomes the
    [userId] of the principal; anything else, or none present, is the
    missing-identifier error.  An error of the signature check is passed
    on. *)
Theorem verifyToken_first_claim (token : string)
    (payload : list (string * json)) :
  jwtVerify token = inr payload ->
  match first_present payload with
  | Some (JStr u) =>
      verifyToken jwtVerify token
      = inr (mkJwt u (obj_set payload "userId" (JStr u)))
  | _ => verifyToken jwtVerify token = inl missing_claim
  end.
Proof.
  intros Hv. unfold verifyToken. rewrite Hv.
  destruct (first_present_chain payload) as [->|[-> ->]]; [|done].
  by destruct (first_present payload) as [[]|].
Qed.

Lemma verifyToken_rejected (token message : string) :
  jwtVerify token = inl message -> verifyToken jwtVerify token = inl message.
Proof. intros Hv. unfold verifyToken. by rewrite Hv. Qed.

End AuthFacts.

Lemma verifyToken_first_claim_witness :
  accept sub_claims "credential" = inr sub_claims
  ∧ Auth.verifyToken (accept sub_claims) "credential"
    = inr (Auth.mkJwt "user-1"
             [("userId", JStr "user-1"); ("sub", JStr "user-1"); ("id", num 7)]).
Proof.
  split; [reflexivity|].
  apply (verifyToken_first_claim (accept sub_claims) "credential" sub_claims).
  reflexivity.
Defined.

(** C9, as stated, fails: a verified credential whose [userId] claim is
    the empty string is accepted, and the principal has an empty
    [userId]. *)
Lemma verifyToken_empty_userId :
  Auth.verifyToken (accept empty_id_claims) "credential"
  = inr (Auth.mkJwt "" empty_id_claims)
  ∧ ¬ (forall jwtVerify token jwt,
         Auth.verifyToken jwtVerify token = inr jwt -> Auth.userId jwt ≠ "").
Proof.
  split; [reflexivity|].
  intros H. by apply (H (accept empty_id_claims) "credential" _ eq_refl).
Qed.

(** ** The balance cache *)

Section BalanceFacts.
Import Balance.

Lemma fallback_ok (userId : string) (cached : option CacheEntry) (now : Z) :
  let r := fallbackToStaleCache userId cached now in
  serviceUnavailable r = None ->
  ok r = gt0 (balance r) || gt0 (freeTokens r).
Proof.
  unfold fallbackToStaleCache.
  destruct cached as [c|]; [|done]. by destruct (expiry c >? _).
Qed.

Lemma fallback_claude_ok (userId : string)
    (cached : option BalanceClaude.CacheEntry) (now : Z) :
  let r := BalanceClaude.fallbackToStaleCache userId cached now in
  BalanceClaude.serviceUnavailable r = None ->
  exists snapshot,
    cached = Some snapshot
    ∧ BalanceClaude.balance r = BalanceClaude.cached_balance snapshot
    ∧ BalanceClaude.totalAvailable r
      = BalanceClaude.cached_totalAvailable snapshot
    ∧ BalanceClaude.ok r
      = gt0 (BalanceClaude.cached_claudeBalance snapshot)
        || gt0 (BalanceClaude.cached_totalAvailable snapshot).
Proof.
  unfold BalanceClaude.fallbackToStaleCache.
  destruct cached as [c|]; [|done].
  destruct (BalanceClaude.expiry c >? _); [|done]. by exists c.
Qed.

(** C4, as the code has it.  A result without [serviceUnavailable]
    (fresh hit, 2xx answer, stale entry within the grace period) has
    [ok] equal to [balance > 0 || freeTokens > 0] on the two fields it
    returns.  In the later balance.ts the result is read from a
    snapshot (the entry found in the cache, or the one just stored) and
    [ok] is [claudeBalance > 0 || totalAvailable > 0] on it. *)
Theorem checkBalance_ok (now : Z) (userId token : string) (net : fetch_outcome) :
  (forall cache : gmap string CacheEntry,
     let r := (checkBalance cache now userId token net).1 in
     serviceUnavailable r = None ->
     ok r = gt0 (balance r) || gt0 (freeTokens r))
  ∧ (forall cache : gmap string BalanceClaude.CacheEntry,
       let r := (BalanceClaude.checkBalance cache now userId token net).1 in
       let cache' := (BalanceClaude.checkBalance cache now userId token net).2 in
       BalanceClaude.serviceUnavailable r = None ->
       exists snapshot,
         (cache !! userId = Some snapshot ∨ cache' !! userId = Some snapshot)
         ∧ BalanceClaude.balance r = BalanceClaude.cached_balance snapshot
         ∧ BalanceClaude.totalAvailable r
           = BalanceClaude.cached_totalAvailable snapshot
         ∧ BalanceClaude.ok r
           = gt0 (BalanceClaude.cached_claudeBalance snapshot)
             || gt0 (BalanceClaude.cached_totalAvailable snapshot)).
Proof.
  split.
  - intros cache. unfold checkBalance.
    pose proof (fallback_ok userId (cache !! userId) now) as Hf.
    destruct (cache !! userId) as [c|] eqn:Hc.
    + destruct (expiry c >? now); [done|].
      destruct net as [|[] [data|]]; simpl; try exact Hf. done.
    + destruct net as [|[] [data|]]; simpl; try exact Hf. done.
  - intros cache.
    unfold BalanceClaude.checkBalance, BalanceClaude.fallbackToStaleCache.
    destruct (cache !! userId) as [c|] eqn:Hc; cbv zeta.
    + destruct (BalanceClaude.expiry c >? now); simpl.
      { intros _. exists c. auto. }
      destruct net as [|[] [data|]]; simpl;
        try (destruct (BalanceClaude.expiry c >? now - STALE_CACHE_TTL_MS);
             simpl; [intros _; exists c; by auto | done]).
      intros _. eexists. split; [right; apply lookup_insert_eq|done].
    + destruct net as [|[] [data|]]; simpl; try done.
      intros _. eexists. split; [right; apply lookup_insert_eq|done].
Qed.

End BalanceFacts.

Lemma checkBalance_ok_witness :
  Balance.serviceUnavailable
    (Balance.checkBalance ∅ 0 "user-1" "token-1"
       (Balance.Responded true (Some paid_only))).1 = None
  ∧ Balance.ok
      (Balance.checkBalance ∅ 0 "user-1" "token-1"
         (Balance.Responded true (Some paid_only))).1 = true.
Proof.
  split; [reflexivity|].
  exact (proj1 (checkBalance_ok 0 "user-1" "token-1"
                  (Balance.Responded true (Some paid_only))) ∅ eq_refl).
Defined.

(** C4, as stated, fails.  On the answer [{balance: 10.5, freeTokens: 0}]
    the result has [ok = true] and no [serviceUnavailable], while
    [claudeBalance > 0 OR freeTokens > 0] is false; the later version says
    [ok = true] on [{balance: 0, totalAvailable: 300000, claudeBalance: 0}],
    where that predicate is false as well. *)
Lemma checkBalance_not_claude_or_free :
  (let r := (Balance.checkBalance ∅ 0 "user-1" "token-1"
               (Balance.Responded true (Some paid_only))).1 in
   Balance.serviceUnavailable r = None
   ∧ Balance.ok r = true
   ∧ Balance.usable_spec paid_only = false)
  ∧ (let r := (BalanceClaude.checkBalance ∅ 0 "user-freeonly" "token-2"
                 (Balance.Responded true (Some total_only))).1 in
     BalanceClaude.serviceUnavailable r = None
     ∧ BalanceClaude.ok r = true
     ∧ Balance.usable_spec total_only = false).
Proof. vm_compute. repeat split. Qed.

(** ** The usage reporter *)

Section ReporterFacts.
Import Billing.
Context {number : Type}.
Variable add : number -> number -> number.

Local Abbreviation reporter := (Billing.reporter number).
Local Abbreviation entry := (Billing.entry number).

Lemma occurrences_snoc (l l' : loc) (ps : list loc) :
  occurrences l (ps ++ [l'])
  = (occurrences l ps + if decide (l' = l) then 1 else 0)%nat.
Proof.
  unfold occurrences. rewrite filter_app, length_app. f_equal.
  rewrite filter_cons, filter_nil. by case_decide.
Qed.

Lemma occurrences_fresh (n : nat) (ps : list loc) :
  (forall l, l ∈ ps -> (l < n)%nat) -> occurrences n ps = 0%nat.
Proof.
  unfold occurrences. induction ps as [|p ps IH]; intros H; [done|].
  rewrite filter_cons. case_decide as Hp.
  - subst p. specialize (H n (list_elem_of_here _ _)). lia.
  - apply IH. intros l Hl. apply H. by apply list_elem_of_further.
Qed.

Lemma cap_positive : (0 < MAX_FAILED_REPORTS)%nat.
Proof. unfold MAX_FAILED_REPORTS. lia. Qed.

Lemma invariant_init : invariant (@init number).
Proof.
  split; simpl; try (intros; by set_solver).
  - apply NoDup_nil_2.
  - intros l. unfold attempts, occurrences, MAX_RETRIES. simpl. lia.
  - unfold MAX_FAILED_REPORTS. lia.
Qed.

Lemma invariant_sending (s : reporter) (pending : list (string * payload number)) :
  invariant s ->
  invariant (mkReporter (failedReports s) pending (retrying s) (posted s)
               (allocated s)).
Proof. intros [? ? ? ? ? ?]. by split. Qed.

Lemma invariant_reportUsage (tok : string) (r : UsageReport number)
    (s : reporter) :
  invariant s -> invariant (reportUsage add tok r s).
Proof. apply invariant_sending. Qed.

Lemma elem_of_tail {A : Type} (x : A) (l : list A) : x ∈ tail l -> x ∈ l.
Proof. destruct l; simpl; [done|]. apply list_elem_of_further. Qed.

Lemma invariant_enqueue (tok : string) (p : payload number) (now : Z)
    (s : reporter) :
  invariant s -> invariant (enqueueFailedReport tok p now s).
Proof.
  intros [Hnd Hq Hr Hb Hp Hc]. unfold enqueueFailedReport.
  set (q := if (MAX_FAILED_REPORTS <=? length (failedReports s))%nat
            then tail (failedReports s) else failedReports s).
  assert (forall x, x ∈ q -> x ∈ failedReports s) as Hsub.
  { intros x. subst q. case_match; [apply elem_of_tail|done]. }
  assert (NoDup (q.*1 ++ (retrying s).*1)) as Hnd'.
  { subst q. case_match; [|done].
    destruct (failedReports s); [done|]. simpl in *. by apply NoDup_cons in Hnd as [_ ?]. }
  assert (attempts (allocated s) s = 0%nat) as Hfresh.
  { apply occurrences_fresh, Hp. }
  split; simpl.
  - rewrite fmap_app. simpl.
    assert ((q.*1 ++ [allocated s]) ++ (retrying s).*1
            ≡ₚ allocated s :: q.*1 ++ (retrying s).*1) as ->.
    { rewrite <- app_assoc. simpl. by rewrite Permutation_middle. }
    apply NoDup_cons. split; [|done].
    intros [Hin|Hin]%elem_of_app;
      apply list_elem_of_fmap in Hin as ([l e]&Heq&Hin);
      simpl in Heq; subst l.
    + apply Hsub, Hq in Hin. lia.
    + apply Hr in Hin. lia.
  - intros l e [Hin|Hin%list_elem_of_singleton]%elem_of_app.
    + apply Hsub, Hq in Hin. unfold attempts in *. simpl. lia.
    + injection Hin as Hl He. subst l e. simpl. unfold attempts in *. simpl.
      rewrite Hfresh. unfold MAX_RETRIES. lia.
  - intros l e Hin. apply Hr in Hin. unfold attempts in *. simpl. lia.
  - exact Hb.
  - intros l Hl. apply Hp in Hl. lia.
  - rewrite length_app. simpl. subst q. case_match eqn:Hfull.
    + apply Nat.leb_le in Hfull. pose proof cap_positive.
      destruct (failedReports s); simpl in *; lia.
    + apply Nat.leb_gt in Hfull. lia.
Qed.

Lemma invariant_first_settles (i : nat) (success : bool) (now : Z)
    (s : reporter) :
  invariant s -> invariant (first_settles i success now s).
Proof.
  intros Hs. unfold first_settles.
  destruct (sending s !! i) as [[tok p]|]; [|done].
  destruct success.
  - by apply invariant_sending.
  - by apply invariant_enqueue, invariant_sending.
Qed.

(** Taking the entry at index [i] out of the queue. *)
Lemma queue_split (s : reporter) (i : nat) (l : loc) (e : FailedReport number) :
  invariant s -> failedReports s !! i = Some (l, e) ->
  (l, e) ∈ failedReports s
  ∧ (forall x, x ∈ delete i (failedReports s) -> x ∈ failedReports s)
  ∧ NoDup (l :: (delete i (failedReports s)).*1 ++ (retrying s).*1)
  ∧ (length (delete i (failedReports s)) <= MAX_FAILED_REPORTS)%nat.
Proof.
  intros [Hnd _ _ _ _ Hc] Hi.
  pose proof (delete_Permutation _ _ _ Hi) as Hperm.
  split; [by eapply list_elem_of_lookup_2|].
  split.
  { intros x Hx. rewrite Hperm. by apply list_elem_of_further. }
  split.
  { rewrite Hperm in Hnd. exact Hnd. }
  rewrite length_delete; [lia | by eexists].
Qed.

Lemma invariant_drop (s : reporter) (i : nat) (l : loc)
    (e : FailedReport number) :
  invariant s -> failedReports s !! i = Some (l, e) ->
  invariant (set_queue (delete i (failedReports s)) s).
Proof.
  intros Hs Hi.
  destruct (queue_split s i l e Hs Hi) as (Hin&Hsub&Hnd'&Hlen).
  destruct Hs as [Hnd Hq Hr Hb Hp Hc].
  split; simpl; try done.
  - by apply NoDup_cons in Hnd' as [_ ?].
  - intros l1 e1 Hin1. apply Hsub, Hq in Hin1. exact Hin1.
Qed.

Lemma invariant_dispatch (s : reporter) (i : nat) (l : loc)
    (e : FailedReport number) :
  invariant s -> failedReports s !! i = Some (l, e) ->
  ¬ (retries e + 1 > MAX_RETRIES) ->
  invariant
    (mkReporter (delete i (failedReports s)) (sending s)
       (retrying s ++ [(l, mkFailed (token e) (failed_payload e)
                             (retries e + 1) (nextRetry e))])
       (posted s ++ [l]) (allocated s)).
Proof.
  intros Hs Hi Hmax.
  destruct (queue_split s i l e Hs Hi) as (Hin&Hsub&Hnd'&Hlen).
  destruct Hs as [Hnd Hq Hr Hb Hp Hc].
  apply NoDup_cons in Hnd' as [Hl Hnd'].
  destruct (Hq l e Hin) as (Hla&Hre&Hat).
  split; simpl.
  - rewrite fmap_app. simpl.
    rewrite app_assoc. apply NoDup_app. split; [done|]. split.
    + intros l1 Hl1 Heq%list_elem_of_singleton. by subst l1.
    + apply NoDup_singleton.
  - intros l1 e1 Hin1.
    assert (l1 ≠ l) as Hne.
    { intros ->. apply Hl, elem_of_app. left.
      apply list_elem_of_fmap. by exists (l, e1). }
    apply Hsub, Hq in Hin1. unfold attempts in *. simpl.
    rewrite occurrences_snoc. case_decide; [congruence|]. lia.
  - intros l1 e1 [Hin1|Hin1%list_elem_of_singleton]%elem_of_app.
    + assert (l1 ≠ l) as Hne.
      { intros ->. apply Hl, elem_of_app. right.
        apply list_elem_of_fmap. by exists (l, e1). }
      apply Hr in Hin1. unfold attempts in *. simpl.
      rewrite occurrences_snoc. case_decide; [congruence|]. lia.
    + injection Hin1 as Hl1 He1. subst l1 e1. unfold attempts in *. simpl.
      rewrite occurrences_snoc. case_decide; [|done]. lia.
  - intros l1. unfold attempts in *. simpl. rewrite occurrences_snoc.
    case_decide; [subst l1|]; [lia|]. specialize (Hb l1). lia.
  - intros l1 [Hl1|Heq%list_elem_of_singleton]%elem_of_app;
      [by apply Hp | by subst l1].
  - exact Hlen.
Qed.

Lemma invariant_scan (turns : nat) (now : Z) (i : nat) (s : reporter) :
  invariant s -> invariant (scan turns now i s).
Proof.
  revert i s. induction turns as [|turns IH]; intros i s Hs; simpl; [done|].
  destruct (failedReports s !! i) as [[l e]|] eqn:Hi; [|done].
  destruct (nextRetry e >? now); [by apply IH|].
  simpl. destruct (retries e + 1 >? MAX_RETRIES) eqn:Hmax.
  - apply IH. by eapply invariant_drop.
  - apply IH, invariant_dispatch; [done..|].
    rewrite Z.gtb_ltb in Hmax. apply Z.ltb_ge in Hmax. lia.
Qed.

Lemma invariant_retry_settles (i : nat) (success : bool) (now : Z)
    (s : reporter) :
  invariant s -> invariant (retry_settles i success now s).
Proof.
  intros Hs. unfold retry_settles.
  destruct (retrying s !! i) as [[l e]|] eqn:Hi; [|done].
  pose proof (delete_Permutation _ _ _ Hi) as Hperm.
  destruct Hs as [Hnd Hq Hr Hb Hp Hc].
  assert ((l, e) ∈ retrying s) as Hin by (by eapply list_elem_of_lookup_2).
  assert (forall x, x ∈ delete i (retrying s) -> x ∈ retrying s) as Hsub.
  { intros x Hx. rewrite Hperm. by apply list_elem_of_further. }
  assert (NoDup (l :: (failedReports s).*1 ++ (delete i (retrying s)).*1))
    as Hnd'.
  { rewrite Hperm in Hnd. simpl in Hnd.
    by rewrite Permutation_middle. }
  apply NoDup_cons in Hnd' as [Hl Hnd'].
  destruct (Hr l e Hin) as (Hla&Hre&Hat).
  assert (invariant (mkReporter (failedReports s) (sending s)
                       (delete i (retrying s)) (posted s) (allocated s)))
    as Hdone.
  { split; simpl; try done. intros l1 e1 Hin1. by apply Hr, Hsub. }
  destruct success; [exact Hdone|].
  destruct (retries e <? MAX_RETRIES) eqn:Hlt; [|exact Hdone].
  simpl. destruct (length (failedReports s) <? MAX_FAILED_REPORTS)%nat eqn:Hroom;
    [|exact Hdone].
  apply Z.ltb_lt in Hlt. apply Nat.ltb_lt in Hroom.
  split; simpl.
  - rewrite fmap_app. simpl.
    assert (((failedReports s).*1 ++ [l]) ++ (delete i (retrying s)).*1
            ≡ₚ l :: (failedReports s).*1 ++ (delete i (retrying s)).*1) as ->.
    { rewrite <- app_assoc. simpl. by rewrite Permutation_middle. }
    by apply NoDup_cons.
  - intros l1 e1 [Hin1|Hin1%list_elem_of_singleton]%elem_of_app.
    + by apply Hq.
    + injection Hin1 as Hl1 He1. subst l1 e1. simpl.
      unfold attempts in *. simpl in *. lia.
  - intros l1 e1 Hin1. by apply Hr, Hsub.
  - exact Hb.
  - exact Hp.
  - rewrite length_app. simpl. lia.
Qed.

Lemma invariant_exec (s : reporter) (a : action number) :
  invariant s -> invariant (exec add s a).
Proof.
  intros Hs. destruct a; simpl.
  - by apply invariant_reportUsage.
  - by apply invariant_first_settles.
  - by apply invariant_scan.
  - by apply invariant_retry_settles.
Qed.

Lemma invariant_fold (script : list (action number)) (s : reporter) :
  invariant s -> invariant (fold_left (exec add) script s).
Proof.
  revert s. induction script as [|a script IH]; intros s Hs; simpl; [done|].
  by apply IH, invariant_exec.
Qed.

Lemma invariant_reachable (s : reporter) : reachable add s -> invariant s.
Proof. intros [script ->]. apply invariant_fold, invariant_init. Qed.

(** *** The scan in closed form: the loop runs to its end *)

Lemma delete_take_drop_at {A : Type} (q : list A) (i : nat) (x : A) :
  q !! i = Some x ->
  take i (delete i q) = take i q ∧ drop i (delete i q) = drop (S i) q.
Proof.
  intros Hi. apply lookup_lt_Some in Hi.
  rewrite delete_take_drop.
  assert (length (take i q) = i) as Hlen by (rewrite length_take; lia).
  split.
  - by rewrite take_app_length'.
  - by rewrite drop_app_length'.
Qed.

Lemma scan_spec (turns : nat) (now : Z) (i : nat) (s : reporter) :
  (length (failedReports s) <= i + turns)%nat ->
  let q := failedReports s in
  let s' := scan turns now i s in
  failedReports s' = take i q ++ filter (waits now) (drop i q)
  ∧ retrying s' = retrying s ++ (bump <$> filter (sent_at now) (drop i q))
  ∧ posted s' = posted s ++ (filter (sent_at now) (drop i q)).*1
  ∧ sending s' = sending s
  ∧ allocated s' = allocated s.
Proof.
  revert i s. induction turns as [|turns IH]; intros i s Hlen; simpl.
  { rewrite drop_ge, take_ge by lia. by rewrite !app_nil_r. }
  destruct (failedReports s !! i) as [[l e]|] eqn:Hi.
  2:{ apply lookup_ge_None in Hi.
      rewrite drop_ge, take_ge by lia. by rewrite !app_nil_r. }
  rewrite (drop_S _ _ _ Hi).
  destruct (nextRetry e >? now) eqn:Hdue.
  - rewrite Z.gtb_ltb in Hdue. apply Z.ltb_lt in Hdue.
    destruct (IH (S i) s ltac:(lia)) as (H1&H2&H3&H4&H5).
    rewrite H1, H2, H3, H4, H5.
    rewrite filter_cons_True by exact Hdue.
    rewrite filter_cons_False by (intros [Hn _]; by apply Hn).
    rewrite (take_S_r _ _ _ Hi), <- app_assoc. done.
  - rewrite Z.gtb_ltb in Hdue. apply Z.ltb_ge in Hdue.
    rewrite filter_cons_False by (unfold waits; simpl; lia).
    pose proof (delete_take_drop_at _ _ _ Hi) as [Ht Hd].
    assert (length (delete i (failedReports s)) <= i + turns)%nat as Hlen'.
    { rewrite length_delete by (by eexists). lia. }
    simpl. destruct (retries e + 1 >? MAX_RETRIES) eqn:Hmax.
    + rewrite Z.gtb_ltb in Hmax. apply Z.ltb_lt in Hmax.
      destruct (IH i (set_queue (delete i (failedReports s)) s) Hlen')
        as (H1&H2&H3&H4&H5).
      rewrite H1, H2, H3, H4, H5. simpl. rewrite Ht, Hd.
      rewrite filter_cons_False by (unfold sent_at; simpl; lia).
      done.
    + rewrite Z.gtb_ltb in Hmax. apply Z.ltb_ge in Hmax.
      match goal with
      | |- context [scan turns now i ?s1] =>
          destruct (IH i s1 Hlen') as (H1&H2&H3&H4&H5)
      end.
      rewrite H1, H2, H3, H4, H5. simpl. rewrite Ht, Hd.
      rewrite filter_cons_True by (unfold sent_at; simpl; lia).
      rewrite fmap_cons, <- !app_assoc. done.
Qed.

(** After [_processRetryQueue] the queue holds the entries that were not
    due, in order; every due entry was POSTed once or, past the limit,
    dropped. *)
Lemma processRetryQueue_spec (now : Z) (s : reporter) :
  let s' := _processRetryQueue now s in
  failedReports s' = filter (waits now) (failedReports s)
  ∧ retrying s' = retrying s ++ (bump <$> filter (sent_at now) (failedReports s))
  ∧ posted s' = posted s ++ (filter (sent_at now) (failedReports s)).*1
  ∧ sending s' = sending s
  ∧ allocated s' = allocated s.
Proof.
  unfold _processRetryQueue.
  destruct (scan_spec (length (failedReports s)) now 0 s ltac:(lia))
    as (H1&H2&H3&H4&H5).
  by rewrite drop_0, take_0 in *.
Qed.

(** *** Entries that left do not come back *)

Lemma live_first_settles (i : nat) (success : bool) (now : Z) (s : reporter)
    (l : loc) :
  let s' := first_settles i success now s in
  (allocated s <= allocated s')%nat
  ∧ (queued l s' -> queued l s ∨ (allocated s <= l)%nat)
  ∧ (in_retry l s' -> in_retry l s).
Proof.
  unfold first_settles, queued, in_retry.
  destruct (sending s !! i) as [[tok p]|]; [|by auto].
  destruct success; simpl; [by auto|].
  split; [lia|]. split; [|done].
  rewrite fmap_app. simpl.
  intros [Hl|Hl%list_elem_of_singleton]%elem_of_app; [|right; lia].
  left. case_match; [|done].
  destruct (failedReports s); [done|]. simpl in *.
  by apply list_elem_of_further.
Qed.

Lemma live_processRetryQueue (now : Z) (s : reporter) (l : loc) :
  let s' := _processRetryQueue now s in
  allocated s' = allocated s
  ∧ (queued l s' -> queued l s)
  ∧ (in_retry l s' -> in_retry l s ∨ queued l s).
Proof.
  destruct (processRetryQueue_spec now s) as (H1&H2&_&_&H5).
  unfold queued, in_retry. cbv zeta. rewrite H1, H2, H5.
  split; [done|]. split.
  - intros (x&->&Hx%list_elem_of_filter)%list_elem_of_fmap.
    apply list_elem_of_fmap. exists x. by destruct Hx.
  - rewrite fmap_app. intros [Hl|Hl]%elem_of_app; [by left|right].
    apply list_elem_of_fmap in Hl as (y&->&Hy).
    apply list_elem_of_fmap in Hy as (x&->&Hx%list_elem_of_filter).
    apply list_elem_of_fmap. exists x. by destruct Hx.
Qed.

Lemma live_retry_settles (i : nat) (success : bool) (now : Z) (s : reporter)
    (l : loc) :
  let s' := retry_settles i success now s in
  allocated s' = allocated s
  ∧ (queued l s' -> queued l s ∨ in_retry l s)
  ∧ (in_retry l s' -> in_retry l s).
Proof.
  unfold retry_settles, queued, in_retry.
  destruct (retrying s !! i) as [[l0 e0]|] eqn:Hi; [|by auto].
  assert (forall x, x ∈ (delete i (retrying s)).*1 -> x ∈ (retrying s).*1)
    as Hsub.
  { intros x (y&->&Hy)%list_elem_of_fmap. apply list_elem_of_fmap. exists y.
    split; [done|]. rewrite (delete_Permutation _ _ _ Hi).
    by apply list_elem_of_further. }
  assert (l0 ∈ (retrying s).*1) as Hl0.
  { apply list_elem_of_fmap. exists (l0, e0). split; [done|].
    by eapply list_elem_of_lookup_2. }
  destruct success; simpl; [by auto|].
  destruct (retries e0 <? MAX_RETRIES); simpl; [|by auto].
  destruct (length (failedReports s) <? MAX_FAILED_REPORTS)%nat; simpl;
    [|by auto].
  split; [done|]. split; [|by auto].
  rewrite fmap_app. simpl.
  intros [Hl|Hl%list_elem_of_singleton]%elem_of_app; [by left|].
  right. by subst l.
Qed.

Lemma gone_exec (s : reporter) (a : action number) (l : loc) :
  gone l s -> gone l (exec add s a).
Proof.
  intros (Hlt&Hq&Hr). destruct a as [tok r|i success now|now|i success now];
    simpl.
  - done.
  - destruct (live_first_settles i success now s l) as (Ha&Hq'&Hr').
    split; [lia|]. split; [|by auto].
    intros [?|?]%Hq'; [done|lia].
  - destruct (live_processRetryQueue now s l) as (Ha&Hq'&Hr').
    split; [lia|]. split; [by auto|]. intros [?|?]%Hr'; done.
  - destruct (live_retry_settles i success now s l) as (Ha&Hq'&Hr').
    split; [lia|]. split; [|by auto]. intros [?|?]%Hq'; done.
Qed.

Lemma gone_forever (script : list (action number)) (s : reporter) (l : loc) :
  gone l s -> gone l (fold_left (exec add) script s).
Proof.
  revert s. induction script as [|a script IH]; intros s Hs; simpl; [done|].
  by apply IH, gone_exec.
Qed.

Lemma nodup_fst_unique {A B : Type} (q : list (A * B)) (k : A) (a b : B) :
  NoDup q.*1 -> (k, a) ∈ q -> (k, b) ∈ q -> a = b.
Proof.
  induction q as [|[k' c] q IH]; simpl; intros Hnd Ha Hb.
  - by apply elem_of_nil in Ha.
  - apply NoDup_cons in Hnd as [Hk Hnd].
    apply elem_of_cons in Ha as [Ha|Ha], Hb as [Hb|Hb].
    + congruence.
    + exfalso. apply Hk. injection Ha as <- <-.
      apply list_elem_of_fmap. by exists (k, b).
    + exfalso. apply Hk. injection Hb as <- <-.
      apply list_elem_of_fmap. by exists (k, a).
    + by apply IH.
Qed.

(** An entry whose failed attempt was the last allowed one is dropped. *)
Lemma last_attempt_drops (s : reporter) (i : nat) (now : Z) (l : loc)
    (e : FailedReport number) :
  invariant s -> retrying s !! i = Some (l, e) -> retries e = MAX_RETRIES ->
  gone l (retry_settles i false now s).
Proof.
  intros [Hnd Hq Hr Hb Hp Hc] Hi He.
  assert ((l, e) ∈ retrying s) as Hin by (by eapply list_elem_of_lookup_2).
  destruct (Hr l e Hin) as (Hla&_&_).
  pose proof (delete_Permutation _ _ _ Hi) as Hperm.
  rewrite Hperm in Hnd. simpl in Hnd.
  rewrite <- Permutation_middle in Hnd. apply NoDup_cons in Hnd as [Hl _].
  unfold retry_settles, gone, queued, in_retry. rewrite Hi.
  assert ((retries e <? MAX_RETRIES) = false) as -> by (apply Z.ltb_ge; lia).
  simpl. split; [done|].
  split; intros Hx; apply Hl, elem_of_app; auto.
Qed.

(** A due entry whose counter would pass the limit is taken out of the
    queue without a POST. *)
Lemma over_limit_drops (s : reporter) (now : Z) (l : loc)
    (e : FailedReport number) :
  NoDup ((failedReports s).*1 ++ (retrying s).*1) ->
  (l, e) ∈ failedReports s -> ¬ waits now (l, e) ->
  retries e + 1 > MAX_RETRIES ->
  let s' := _processRetryQueue now s in
  ¬ queued l s' ∧ ¬ in_retry l s' ∧ attempts l s' = attempts l s.
Proof.
  intros Hnd Hin Hdue Hover.
  destruct (processRetryQueue_spec now s) as (H1&H2&H3&_&_).
  unfold queued, in_retry, attempts. cbv zeta. rewrite H1, H2, H3.
  assert (forall e', (l, e') ∈ failedReports s -> e' = e) as Huniq.
  { intros e' Hin'. apply NoDup_app in Hnd as (Hnd&_&_).
    by apply (nodup_fst_unique _ _ _ _ Hnd Hin' Hin). }
  assert (l ∉ (filter (sent_at now) (failedReports s)).*1) as Hns.
  { intros ([l' e']&Heq&[Hs Hin']%list_elem_of_filter)%list_elem_of_fmap.
    simpl in Heq. subst l'. apply Huniq in Hin'. subst e'.
    destruct Hs as [_ Hs]. simpl in Hs. lia. }
  split; [|split].
  - intros ([l' e']&Heq&[Hw Hin']%list_elem_of_filter)%list_elem_of_fmap.
    simpl in Heq. subst l'. apply Huniq in Hin'. by subst e'.
  - rewrite fmap_app. intros [Hl|Hl]%elem_of_app.
    + apply NoDup_app in Hnd as (_&Hnd&_). apply (Hnd l); [|done].
      apply list_elem_of_fmap. by exists (l, e).
    + apply Hns. apply list_elem_of_fmap in Hl as (y&->&Hy).
      apply list_elem_of_fmap in Hy as (x&->&Hx).
      apply list_elem_of_fmap. by exists x.
  - revert Hns. generalize ((filter (sent_at now) (failedReports s)).*1).
    intros ps. induction ps as [|p ps IH] using rev_ind; intros Hns;
      [by rewrite app_nil_r|].
    rewrite app_assoc, occurrences_snoc. case_decide as Hp.
    + exfalso. apply Hns, elem_of_app. right. subst p. apply list_elem_of_here.
    + rewrite Nat.add_0_r. apply IH. intros Hx. apply Hns, elem_of_app. by left.
Qed.

(** C6.  In every state the reporter can reach, the scanner has POSTed
    each entry at most [MAX_RETRIES] = 3 times (so the report was POSTed
    at most four times, the first send included).  An entry whose
    attempt fails with [retries] at the limit is dropped; an entry that
    is due with [retries] already at the limit is dropped without a
    POST; and an entry that has left the queue and the pending retries
    never returns to either, whatever happens next. *)
Theorem retries_bounded (s : reporter) :
  reachable add s ->
  (forall l, Z.of_nat (attempts l s) <= MAX_RETRIES)
  ∧ MAX_RETRIES = 3
  ∧ (forall i now l e,
       retrying s !! i = Some (l, e) -> retries e = MAX_RETRIES ->
       gone l (retry_settles i false now s))
  ∧ (forall (s0 : reporter) now l e,
       NoDup ((failedReports s0).*1 ++ (retrying s0).*1) ->
       (l, e) ∈ failedReports s0 -> ¬ waits now (l, e) ->
       retries e + 1 > MAX_RETRIES ->
       ¬ queued l (_processRetryQueue now s0)
       ∧ ¬ in_retry l (_processRetryQueue now s0)
       ∧ attempts l (_processRetryQueue now s0) = attempts l s0)
  ∧ (forall l script,
       gone l s ->
       gone l (fold_left (exec add) script s)
       ∧ Z.of_nat (attempts l (fold_left (exec add) script s)) <= MAX_RETRIES).
Proof.
  intros Hreach. pose proof (invariant_reachable s Hreach) as Hinv.
  split; [apply (inv_bound s Hinv)|].
  split; [reflexivity|].
  split; [intros i now l e; by apply last_attempt_drops|].
  split; [intros s0 now l e; apply over_limit_drops|].
  intros l script Hgone. split; [by apply gone_forever|].
  apply inv_bound, invariant_fold, Hinv.
Qed.

(** C7, as the code has it.  The queue never holds more than
    [MAX_FAILED_REPORTS] = 1000 entries.  When a first send fails and the
    queue is full, the oldest entry is discarded and the new one goes
    last.  When a retry fails and the queue is full, the queue stays as
    it is and the entry of the retry is the one lost; below the cap it
    goes last with its new [nextRetry]. *)
Theorem queue_bounded (s : reporter) :
  reachable add s ->
  (length (failedReports s) <= MAX_FAILED_REPORTS)%nat
  ∧ MAX_FAILED_REPORTS = 1000%nat
  ∧ (forall tok p now,
       length (failedReports s) = MAX_FAILED_REPORTS ->
       failedReports (enqueueFailedReport tok p now s)
       = tail (failedReports s)
         ++ [(allocated s, mkFailed tok p 0 (now + BASE_RETRY_MS))])
  ∧ (forall i now l e,
       retrying s !! i = Some (l, e) ->
       length (failedReports s) = MAX_FAILED_REPORTS ->
       failedReports (retry_settles i false now s) = failedReports s
       ∧ gone l (retry_settles i false now s))
  ∧ (forall i now l e,
       retrying s !! i = Some (l, e) -> retries e < MAX_RETRIES ->
       (length (failedReports s) < MAX_FAILED_REPORTS)%nat ->
       failedReports (retry_settles i false now s)
       = failedReports s
         ++ [(l, mkFailed (token e) (failed_payload e) (retries e)
                   (now + backoff (retries e)))]).
Proof.
  intros Hreach. pose proof (invariant_reachable s Hreach) as Hinv.
  split; [apply (inv_cap s Hinv)|].
  split; [reflexivity|].
  split.
  { intros tok p now Hfull. unfold enqueueFailedReport.
    cbn [failedReports]. by rewrite Hfull, Nat.leb_refl. }
  split.
  { intros i now l e Hi Hfull.
    destruct Hinv as [Hnd Hq Hr Hb Hp Hc].
    assert ((l, e) ∈ retrying s) as Hin by (by eapply list_elem_of_lookup_2).
    destruct (Hr l e Hin) as (Hla&_&_).
    pose proof (delete_Permutation _ _ _ Hi) as Hperm.
    rewrite Hperm in Hnd. simpl in Hnd.
    rewrite <- Permutation_middle in Hnd. apply NoDup_cons in Hnd as [Hl _].
    unfold retry_settles, gone, queued, in_retry. rewrite Hi.
    cbn [failedReports]. rewrite Hfull, Nat.ltb_irrefl.
    destruct (retries e <? MAX_RETRIES); cbn [failedReports retrying allocated];
      (split; [done|]); (split; [done|]);
      split; intros Hx; apply Hl, elem_of_app; auto. }
  intros i now l e Hi Hlt Hroom.
  unfold retry_settles. rewrite Hi. cbn [failedReports].
  apply Z.ltb_lt in Hlt. apply Nat.ltb_lt in Hroom.
  by rewrite Hlt, Hroom.
Qed.

End ReporterFacts.

(** The ladder of billing.test.ts: three retries, then the entry is gone
    and a later scan sends nothing. *)
Example ladder_three_retries :
  Billing.posted ladder_state = [0%nat; 0%nat; 0%nat]
  ∧ Billing.failedReports ladder_state = []
  ∧ Billing.retrying ladder_state = [].
Proof. vm_compute. repeat split. Qed.

Lemma retries_bounded_witness :
  Billing.reachable Qplus ladder_state
  ∧ Z.of_nat (Billing.attempts 0 ladder_state) <= Billing.MAX_RETRIES.
Proof.
  assert (Billing.reachable Qplus ladder_state) as H
    by (exists ladder_script; unfold ladder_state; reflexivity).
  split; [exact H|].
  exact (proj1 (retries_bounded Qplus ladder_state H) 0%nat).
Defined.

(** The clause on the counter passing the limit, on a queue where it does:
    the entry leaves without a POST. *)
Example over_limit_spent :
  ¬ Billing.queued 0 (Billing._processRetryQueue 0 spent_state)
  ∧ ¬ Billing.in_retry 0 (Billing._processRetryQueue 0 spent_state)
  ∧ Billing.attempts 0 (Billing._processRetryQueue 0 spent_state) = 3%nat.
Proof.
  apply (over_limit_drops spent_state 0 0%nat (snd spent_entry)).
  - apply (bool_decide_unpack _). vm_compute. exact I.
  - apply list_elem_of_here.
  - unfold Billing.waits. simpl. lia.
  - simpl. unfold Billing.MAX_RETRIES. lia.
Qed.

Lemma queue_bounded_witness :
  Billing.reachable Qplus full_state
  ∧ (length (Billing.failedReports full_state) <= Billing.MAX_FAILED_REPORTS)%nat.
Proof.
  assert (Billing.reachable Qplus full_state) as H
    by (exists full_script; unfold full_state; reflexivity).
  split; [exact H|].
  exact (proj1 (queue_bounded Qplus full_state H)).
Defined.

(** C7, as stated, fails for the re-append.  With the queue at its cap and
    the entry 0 under retry, the failure of that retry leaves the queue
    as it was, its oldest entry (1) included; the entry 0, which was to
    be inserted, is the one discarded. *)
Lemma retry_at_cap_keeps_oldest :
  let s := full_state in
  let s' := Billing.retry_settles 0 false 30002 s in
  Billing.reachable Qplus s
  ∧ length (Billing.failedReports s) = Billing.MAX_FAILED_REPORTS
  ∧ (Billing.retrying s).*1 = [0%nat]
  ∧ Billing.retries <$> (Billing.retrying s).*2 = [1]
  ∧ head (Billing.failedReports s).*1 = Some 1%nat
  ∧ Billing.failedReports s' = Billing.failedReports s
  ∧ head (Billing.failedReports s').*1 = Some 1%nat
  ∧ Billing.retrying s' = []
  ∧ ¬ Billing.queued 0 s'.
Proof.
  split; [exists full_script; unfold full_state; reflexivity|].
  split; [vm_compute; reflexivity|].
  split; [vm_compute; reflexivity|].
  split; [vm_compute; reflexivity|].
  split; [vm_compute; reflexivity|].
  split; [vm_compute; reflexivity|].
  split; [vm_compute; reflexivity|].
  split; [vm_compute; reflexivity|].
  unfold Billing.queued. intros Hq. apply (bool_decide_pack _) in Hq.
  vm_compute in Hq. exact Hq.
Qed.

(** ** The payload of a usage report *)

Section PayloadFacts.
Import Billing.
Context {number : Type}.
Variable add : number -> number -> number.

(** The body of the first POST is the object literal of [reportUsage]. *)
Lemma reportUsage_sends (tok : string) (r : UsageReport number) :
  sending (reportUsage add tok r init) = [(tok, report_payload add r)].
Proof. reflexivity. Qed.

(** Whatever the report, the object sent has no [currency] field. *)
Lemma payload_not_spec (r : UsageReport number) :
  ¬ same_object (report_payload add r) (payload_spec add r).
Proof. intros H. specialize (H "currency"). vm_compute in H. discriminate. Qed.

Lemma payload_first_not_spec (r1 : BillingFirst.UsageReport number)
    (r : UsageReport number) :
  ¬ same_object (BillingFirst.report_payload r1) (payload_spec add r).
Proof. intros H. specialize (H "currency"). vm_compute in H. discriminate. Qed.

End PayloadFacts.

(** C5 (the code departs from it).  For [baseReport] of billing.test.ts
    the object POSTed has six fields: no [cacheReadTokens], no
    [cacheWriteTokens], no [currency], and [totalTokens] is
    [inputTokens + outputTokens] = 1500, where the four counts add up to
    1800.  The first billing.ts sends [cacheCreationTokens] and [costUsd]
    and no total.  Neither is the object of the specification. *)
Theorem reportUsage_payload_baseReport :
  Billing.sending (Billing.reportUsage Qplus "jwt-token" baseReport Billing.init)
  = [("jwt-token", Billing.report_payload Qplus baseReport)]
  ∧ Billing.report_payload Qplus baseReport
    = [ ("model", Billing.PStr "claude-sonnet-4-6");
        ("provider", Billing.PStr "anthropic");
        ("inputTokens", Billing.PNum 1000%Q);
        ("outputTokens", Billing.PNum 500%Q);
        ("totalTokens", Billing.PNum 1500%Q);
        ("cost", Billing.PNum 0.0105%Q) ]
  ∧ Billing.payload_spec Qplus baseReport
    = [ ("model", Billing.PStr "claude-sonnet-4-6");
        ("provider", Billing.PStr "anthropic");
        ("inputTokens", Billing.PNum 1000%Q);
        ("outputTokens", Billing.PNum 500%Q);
        ("cacheReadTokens", Billing.PNum 200%Q);
        ("cacheWriteTokens", Billing.PNum 100%Q);
        ("totalTokens", Billing.PNum 1800%Q);
        ("cost", Billing.PNum 0.0105%Q);
        ("currency", Billing.PStr "USD") ]
  ∧ ¬ Billing.same_object (Billing.report_payload Qplus baseReport)
        (Billing.payload_spec Qplus baseReport)
  ∧ BillingFirst.report_payload baseReport_first
    = [ ("model", Billing.PStr "claude-sonnet-4-6");
        ("inputTokens", Billing.PNum 1000%Q);
        ("outputTokens", Billing.PNum 500%Q);
        ("cacheReadTokens", Billing.PNum 200%Q);
        ("cacheCreationTokens", Billing.PNum 100%Q);
        ("costUsd", Billing.PNum 0.0105%Q) ]
  ∧ ¬ Billing.same_object (BillingFirst.report_payload baseReport_first)
        (Billing.payload_spec Qplus baseReport).
Proof.
  split; [reflexivity|].
  split; [reflexivity|].
  split; [reflexivity|].
  split; [apply payload_not_spec|].
  split; [reflexivity|].
  apply payload_first_not_spec.
Qed.

(** ** The route handler *)

Section ProgFacts.
Import Prog.
Context {E : Type -> Type} {W : Type}.
Variable answer : world E W.

Lemma run_bind {A B : Type} (p : prog E A) (f : A -> prog E B) (w : W) :
  run answer (bind p f) w
  = let '(c1, a, w1) := run answer p w in
    let '(c2, b, w2) := run answer (f a) w1 in
    (c1 ++ c2, b, w2).
Proof.
  revert w. induction p as [a|X e k IH]; intros w; simpl.
  - by destruct (run answer (f a) w) as [[c2 b] w2].
  - destruct (answer X e w) as [x w1]. rewrite IH.
    destruct (run answer (k x) w1) as [[c1 a] w2].
    by destruct (run answer (f a) w2) as [[c2 b] w3].
Qed.

Lemma run_call_bind {X B : Type} (e : E X) (f : X -> prog E B) (w : W) :
  run answer (bind (call e) f) w
  = let '(x, w1) := answer X e w in
    let '(calls, b, w2) := run answer (f x) w1 in
    (Made e x :: calls, b, w2).
Proof. reflexivity. Qed.

End ProgFacts.

Section ProxyFacts.
Import Prog Proxy.
Context {BalanceResult : Type}.
Variable ok : BalanceResult -> bool.
Variable serviceUnavailable : BalanceResult -> option bool.
Variable anthropicApiKey : string.
Context {D : Type}.
Variable decode : D -> chunk -> D * string.
Variable decoder0 : D.
Variable JSON_parse : string -> option json.
Variable toString : chunk -> string.
Variable gt0 : option json -> bool.
Variable calculateCostUsd : json -> usage_tokens -> json.

Local Abbreviation event := (@Proxy.event BalanceResult).

Lemma quiet_ret {A : Type} (a : A) : quiet (Ret a : prog event A).
Proof. intros W answer w. simpl. constructor. Qed.

Lemma quiet_bind {A B : Type} (p : prog event A) (f : A -> prog event B) :
  quiet p -> (forall a, quiet (f a)) -> quiet (bind p f).
Proof.
  intros Hp Hf W answer w. rewrite run_bind.
  specialize (Hp W answer w).
  destruct (run answer p w) as [[c1 a] w1].
  specialize (Hf a W answer w1).
  destruct (run answer (f a) w1) as [[c2 b] w2].
  simpl in *. by apply Forall_app.
Qed.

Lemma quiet_log (level message : string) :
  quiet (call (Log level message) : prog event unit).
Proof.
  intros W answer w. simpl. destruct (answer _ _ w). simpl.
  by repeat constructor.
Qed.

Lemma quiet_report (apiKey : string) (r : UsageReport) :
  quiet (call (ReportUsage apiKey r) : prog event unit).
Proof.
  intros W answer w. simpl. destruct (answer _ _ w). simpl.
  by repeat constructor.
Qed.

Lemma quiet_report_first (apiKey : string) (r : UsageReportFirst) :
  quiet (call (ReportUsageFirst apiKey r) : prog event unit).
Proof.
  intros W answer w. simpl. destruct (answer _ _ w). simpl.
  by repeat constructor.
Qed.

Ltac quiet_steps :=
  unfold mbind, prog_bind;
  repeat first
    [ apply quiet_ret | apply quiet_log | apply quiet_report
    | apply quiet_report_first
    | apply quiet_bind; [|intros]
    | case_match ].

Lemma quiet_meter_json (apiKey : string) (jwt : Auth.JwtPayload)
    (model : json) (buf : chunk) :
  quiet (meter_json (BalanceResult := BalanceResult) JSON_parse toString gt0
           calculateCostUsd apiKey jwt model buf).
Proof. unfold meter_json. quiet_steps. Qed.

Lemma quiet_meter_stream (apiKey : string) (jwt : Auth.JwtPayload)
    (model : json) (s : stream D) :
  quiet (meter_stream (BalanceResult := BalanceResult) gt0 calculateCostUsd
           apiKey jwt model s).
Proof. unfold meter_stream. quiet_steps. Qed.

Lemma quiet_meter_stream_first (apiKey : string) (jwt : Auth.JwtPayload)
    (model : json) (s : stream D) :
  quiet (meter_stream_first (BalanceResult := BalanceResult) gt0
           calculateCostUsd apiKey jwt model s).
Proof. unfold meter_stream_first. quiet_steps. Qed.

(** The answer of the upstream goes back with its status, as a buffer or
    as a stream, after calls that are none of the gate. *)
Lemma respond_passes {W : Type} (answer : world event W) (w : W)
    (apiKey : string) (jwt : Auth.JwtPayload) (model : json) (r : Response) :
  let out := run answer
               (respond decode decoder0 JSON_parse toString gt0
                  calculateCostUsd apiKey jwt model r) w in
  Forall (fun c => is_gate c = false) out.1.1
  ∧ ¬ refused out.1.2.
Proof.
  unfold respond. destruct (not_streaming r); unfold mbind, prog_bind;
    rewrite run_bind.
  - match goal with
    | |- context [run answer ?p w] =>
        assert (quiet p) as Hq
          by (case_match; [apply quiet_meter_json | apply quiet_ret])
    end.
    specialize (Hq W answer w).
    destruct (run answer _ w) as [[c1 a] w1]. simpl in *.
    rewrite app_nil_r. split; [done|]. by intros [_ [v Hv]].
  - pose proof (quiet_meter_stream apiKey jwt model
                  (pipeThrough decode decoder0 JSON_parse
                     (default [] (res_body r))) W answer w) as Hq.
    destruct (run answer _ w) as [[c1 a] w1]. simpl in *.
    rewrite app_nil_r. split; [done|]. by intros [_ [v Hv]].
Qed.

Lemma respond_first_passes {W : Type} (answer : world event W) (w : W)
    (apiKey : string) (jwt : Auth.JwtPayload) (model : json) (r : Response) :
  let out := run answer
               (respond_first decode decoder0 JSON_parse gt0
                  calculateCostUsd apiKey jwt model r) w in
  Forall (fun c => is_gate c = false) out.1.1
  ∧ ¬ refused out.1.2.
Proof.
  unfold respond_first. destruct (not_streaming r).
  - simpl. split; [constructor|]. by intros [_ [v Hv]].
  - unfold mbind, prog_bind. rewrite run_bind.
    pose proof (quiet_meter_stream_first apiKey jwt model
                  (pipeThrough decode decoder0 JSON_parse
                     (default [] (res_body r))) W answer w) as Hq.
    destruct (run answer _ w) as [[c1 a] w1]. simpl in *.
    rewrite app_nil_r. split; [done|]. by intros [_ [v Hv]].
Qed.

Lemma forward_run {W : Type} (answer : world event W) (w : W)
    (request : Request) (apiKey : string) (jwt : Auth.JwtPayload) :
  let out := run answer
               (forward anthropicApiKey decode decoder0 JSON_parse toString
                  gt0 calculateCostUsd request apiKey jwt) w in
  exists upstream rest,
    out.1.1 = Made (Fetch (upstream_request anthropicApiKey request)) upstream
              :: rest
    ∧ Forall (fun c => is_gate c = false) rest
    ∧ ¬ refused out.1.2.
Proof.
  unfold forward, mbind, prog_bind. rewrite run_call_bind.
  destruct (answer _ _ w) as [upstream w1].
  destruct upstream as [r|].
  - pose proof (respond_passes answer w1 apiKey jwt
                  (request_model request) r) as [Hq Hr].
    destruct (run answer _ w1) as [[c a] w2]. simpl in *.
    by exists (Some r), c.
  - rewrite run_call_bind. destruct (answer _ _ w1) as [[] w2]. simpl.
    exists None. eexists. split; [done|]. split; [by repeat constructor|].
    intros [[?|[?|?]] _]; done.
Qed.

Lemma forward_first_run {W : Type} (answer : world event W) (w : W)
    (request : Request) (apiKey : string) (jwt : Auth.JwtPayload) :
  let out := run answer
               (forward_first anthropicApiKey decode decoder0 JSON_parse
                  gt0 calculateCostUsd request apiKey jwt) w in
  exists upstream rest,
    out.1.1 = Made (Fetch (upstream_request anthropicApiKey request)) upstream
              :: rest
    ∧ Forall (fun c => is_gate c = false) rest
    ∧ ¬ refused out.1.2.
Proof.
  unfold forward_first, mbind, prog_bind. rewrite run_call_bind.
  destruct (answer _ _ w) as [upstream w1].
  destruct upstream as [r|].
  - pose proof (respond_first_passes answer w1 apiKey jwt
                  (request_model request) r) as [Hq Hr].
    destruct (run answer _ w1) as [[c a] w2]. simpl in *.
    by exists (Some r), c.
  - rewrite run_call_bind. destruct (answer _ _ w1) as [[] w2]. simpl.
    exists None. eexists. split; [done|]. split; [by repeat constructor|].
    intros [[?|[?|?]] _]; done.
Qed.

(** Every run of the handler is one of the four outcomes. *)
Lemma handler_outcome {W : Type} (answer : world event W) (w : W)
    (request : Request) :
  let out := run answer
               (registerProxyRoute ok serviceUnavailable anthropicApiKey
                  decode decoder0 JSON_parse toString gt0 calculateCostUsd
                  request) w in
  outcome ok anthropicApiKey (refusal serviceUnavailable) request
    out.1.1 out.1.2.
Proof.
  unfold registerProxyRoute.
  destruct (headers request !! "x-api-key") as [[apiKey|l]|] eqn:Hk;
    [|simpl; apply no_key; intros k Hk'; congruence..].
  destruct (String.eqb apiKey "") eqn:Hne.
  { simpl. apply no_key. intros k Hk'. apply String.eqb_eq. congruence. }
  apply String.eqb_neq in Hne.
  unfold mbind, prog_bind. rewrite run_call_bind.
  destruct (answer _ _ w) as [[message|jwt] w1].
  { simpl. by apply bad_token. }
  rewrite run_call_bind.
  destruct (answer _ _ w1) as [result w2].
  destruct (ok result) eqn:Hok; cbn [negb].
  - pose proof (forward_run answer w2 request apiKey jwt)
      as (upstream&rest&Hc&Hq&Hr).
    destruct (run answer _ w2) as [[c a] w3]. simpl in *. subst c.
    by apply forwarded.
  - assert (forall r : Reply,
              r = refusal serviceUnavailable result ->
              outcome ok anthropicApiKey (refusal serviceUnavailable) request
                [Made (VerifyToken apiKey) (inr jwt);
                 Made (CheckBalance (Auth.userId jwt) apiKey) result] r)
      as Hrefuse by (intros r ->; by apply no_balance).
    unfold refusal in Hrefuse.
    destruct (serviceUnavailable result) as [[]|]; simpl; by apply Hrefuse.
Qed.

Lemma handler_first_outcome {W : Type} (answer : world event W) (w : W)
    (request : Request) :
  let out := run answer
               (registerProxyRoute_first ok anthropicApiKey decode decoder0
                  JSON_parse gt0 calculateCostUsd request) w in
  outcome ok anthropicApiKey refusal_first request out.1.1 out.1.2.
Proof.
  unfold registerProxyRoute_first.
  destruct (headers request !! "x-api-key") as [[apiKey|l]|] eqn:Hk;
    [|simpl; apply no_key; intros k Hk'; congruence..].
  destruct (String.eqb apiKey "") eqn:Hne.
  { simpl. apply no_key. intros k Hk'. apply String.eqb_eq. congruence. }
  apply String.eqb_neq in Hne.
  unfold mbind, prog_bind. rewrite run_call_bind.
  destruct (answer _ _ w) as [[message|jwt] w1].
  { simpl. by apply bad_token. }
  rewrite run_call_bind.
  destruct (answer _ _ w1) as [result w2].
  destruct (ok result) eqn:Hok; cbn [negb].
  - pose proof (forward_first_run answer w2 request apiKey jwt)
      as (upstream&rest&Hc&Hq&Hr).
    destruct (run answer _ w2) as [[c a] w3]. simpl in *. subst c.
    by apply forwarded.
  - simpl. by apply (no_balance ok anthropicApiKey refusal_first).
Qed.

(** *** Reading the outcomes *)

Lemma not_gate (c : made event) :
  is_gate c = false ->
  is_verify c = false ∧ is_balance c = false ∧ is_fetch c = false
  ∧ balance_of c = None ∧ verified c = None.
Proof.
  unfold is_gate. destruct c as [X e x]. by destruct e.
Qed.

Lemma quiet_rest (rest : list (made event)) (c : made event) :
  Forall (fun c => is_gate c = false) rest -> c ∈ rest ->
  is_verify c = false ∧ is_balance c = false ∧ is_fetch c = false
  ∧ balance_of c = None ∧ verified c = None.
Proof.
  intros Hq Hc. apply not_gate. by apply (proj1 (Forall_forall _ _) Hq).
Qed.

Lemma outcome_in_order (refuse : BalanceResult -> Reply) (request : Request)
    (calls : list (made event)) (reply : Reply) :
  outcome ok anthropicApiKey refuse request calls reply ->
  gate_in_order calls.
Proof.
  intros [Hk|k msg Hk Hne|k jwt b Hk Hne Hok|k jwt b up rest r Hk Hne Hok Hq Hr];
    intros i j ci cj Hi Hj.
  - done.
  - destruct i as [|i]; [|done]. destruct j as [|j]; [|done].
    simpl in *. simplify_eq. by repeat split.
  - destruct i as [|[|i]]; [| |done]; (destruct j as [|[|j]]; [| |done]);
      simpl in *; simplify_eq; repeat split; intros; (done || lia).
  - assert (forall n c, rest !! n = Some c ->
              is_verify c = false ∧ is_balance c = false
              ∧ is_fetch c = false) as Hrest.
    { intros n c Hn.
      destruct (quiet_rest rest c Hq) as (?&?&?&_); [|done].
      by eapply list_elem_of_lookup_2. }
    destruct i as [|[|[|i]]]; (destruct j as [|[|[|j]]]);
      simpl in *; simplify_eq; repeat split; intros Hci Hcj;
      try (done || lia);
      try (apply Hrest in Hi as (?&?&?); congruence);
      try (apply Hrest in Hj as (?&?&?); congruence).
Qed.

Lemma outcome_gate (refuse : BalanceResult -> Reply) (request : Request)
    (calls : list (made event)) (reply : Reply) :
  outcome ok anthropicApiKey refuse request calls reply ->
  (contacts_upstream calls
   <-> verification_succeeded request calls ∧ balance_ok ok calls)
  ∧ (refused reply -> ¬ contacts_upstream calls).
Proof.
  intros [Hk|k msg Hk Hne|k jwt b Hk Hne Hok|k jwt b up rest r Hk Hne Hok Hq Hr].
  - split; [split|].
    + intros (c&Hc&_). by apply elem_of_nil in Hc.
    + intros [(c&?&?&Hc&_) _]. by apply elem_of_nil in Hc.
    + intros _ (c&Hc&_). by apply elem_of_nil in Hc.
  - split; [split|].
    + intros (c&Hc%list_elem_of_singleton&Hf). by subst c.
    + intros [(c&?&?&Hc%list_elem_of_singleton&Hv&_) _]. by subst c.
    + intros _ (c&Hc%list_elem_of_singleton&Hf). by subst c.
  - assert (¬ contacts_upstream
                [Made (VerifyToken k) (inr jwt);
                 Made (CheckBalance (Auth.userId jwt) k) b]) as Hno.
    { intros (c&Hc&Hf). repeat (apply elem_of_cons in Hc as [->|Hc]; [done|]).
      by apply elem_of_nil in Hc. }
    split; [split|]; [done| |done].
    intros [_ (c&b'&Hc&Hb&Hok')].
    repeat (apply elem_of_cons in Hc as [->|Hc];
            [simpl in Hb; simplify_eq; congruence|]).
    by apply elem_of_nil in Hc.
  - split; [split|]; [|intros _|done].
    + intros _. split.
      * exists (Made (VerifyToken k) (inr jwt)), k, jwt.
        split; [apply list_elem_of_here|done].
      * exists (Made (CheckBalance (Auth.userId jwt) k) b), b.
        split; [|done]. apply list_elem_of_further, list_elem_of_here.
    + exists (Made (Fetch (upstream_request anthropicApiKey request)) up).
      split; [|done]. do 2 apply list_elem_of_further. apply list_elem_of_here.
Qed.

Lemma outcome_refusal (refuse : BalanceResult -> Reply) (request : Request)
    (calls : list (made event)) (reply : Reply) (result : BalanceResult) :
  outcome ok anthropicApiKey refuse request calls reply ->
  balance_returned result calls -> ok result = false ->
  reply = refuse result ∧ ¬ contacts_upstream calls.
Proof.
  intros Hout. pose proof (outcome_gate _ _ _ _ Hout) as [Hiff _].
  destruct Hout
    as [Hk|k msg Hk Hne|k jwt b Hk Hne Hok|k jwt b up rest r Hk Hne Hok Hq Hr];
    intros (c&Hc&Hb) Hno.
  - by apply elem_of_nil in Hc.
  - apply list_elem_of_singleton in Hc. by subst c.
  - split.
    + repeat (apply elem_of_cons in Hc as [->|Hc];
              [simpl in Hb; by simplify_eq|]).
      by apply elem_of_nil in Hc.
    + intros [_ (c'&b'&Hc'&Hb'&Hok')]%Hiff.
      repeat (apply elem_of_cons in Hc' as [->|Hc'];
              [simpl in Hb'; simplify_eq; congruence|]).
      by apply elem_of_nil in Hc'.
  - exfalso.
    repeat (apply elem_of_cons in Hc as [->|Hc];
            [simpl in Hb; simplify_eq; congruence|]).
    by destruct (quiet_rest rest c Hq Hc) as (_&_&_&Hnone&_); congruence.
Qed.

(** Both versions of the handler do what the answers of the services
    call for. *)
Lemma handler_follows_world {W : Type} (answer : world event W) (w : W)
    (request : Request) :
  follows_world ok anthropicApiKey answer w request (refusal serviceUnavailable)
    (run answer
       (registerProxyRoute ok serviceUnavailable anthropicApiKey decode
          decoder0 JSON_parse toString gt0 calculateCostUsd request) w).
Proof.
  unfold follows_world, registerProxyRoute.
  destruct (headers request !! "x-api-key") as [[apiKey|l]|]; [|done..].
  destruct (String.eqb apiKey ""); [done|].
  unfold mbind, prog_bind. rewrite run_call_bind.
  destruct (answer _ (VerifyToken apiKey) w) as [[message|jwt] w1]; [done|].
  rewrite run_call_bind.
  destruct (answer _ (CheckBalance (Auth.userId jwt) apiKey) w1)
    as [result w2].
  destruct (ok result); cbn [negb].
  - pose proof (forward_run answer w2 request apiKey jwt)
      as (upstream & rest & Hc & Hq & Hr).
    destruct (run answer _ w2) as [[c a] w3]. simpl in *. subst c.
    by exists upstream, rest.
  - unfold refusal. by destruct (serviceUnavailable result) as [[]|].
Qed.

Lemma handler_first_follows_world {W : Type} (answer : world event W) (w : W)
    (request : Request) :
  follows_world ok anthropicApiKey answer w request refusal_first
    (run answer
       (registerProxyRoute_first ok anthropicApiKey decode decoder0 JSON_parse
          gt0 calculateCostUsd request) w).
Proof.
  unfold follows_world, registerProxyRoute_first.
  destruct (headers request !! "x-api-key") as [[apiKey|l]|]; [|done..].
  destruct (String.eqb apiKey ""); [done|].
  unfold mbind, prog_bind. rewrite run_call_bind.
  destruct (answer _ (VerifyToken apiKey) w) as [[message|jwt] w1]; [done|].
  rewrite run_call_bind.
  destruct (answer _ (CheckBalance (Auth.userId jwt) apiKey) w1)
    as [result w2].
  destruct (ok result); cbn [negb]; [|done].
  pose proof (forward_first_run answer w2 request apiKey jwt)
    as (upstream & rest & Hc & Hq & Hr).
  destruct (run answer _ w2) as [[c a] w3]. simpl in *. subst c.
  by exists upstream, rest.
Qed.

(** What such a run shows in its calls and in its reply is what the
    services answered. *)
Lemma world_gate {W : Type} (answer : world event W) (w : W)
    (request : Request) (refuse : BalanceResult -> Reply)
    (out : list (made event) * Reply * W) :
  (forall result, refused (refuse result)) ->
  follows_world ok anthropicApiKey answer w request refuse out ->
  (contacts_upstream out.1.1 <-> admitted ok answer w request)
  ∧ (verification_succeeded request out.1.1
     <-> exists apiKey jwt w1, verifies answer w request apiKey jwt w1)
  ∧ (forall result,
       balance_returned result out.1.1
       <-> exists w2, balance_answer answer w request result w2)
  ∧ (¬ admitted ok answer w request -> refused out.1.2)
  ∧ (forall result w2,
       balance_answer answer w request result w2 -> ok result = false ->
       out.1.2 = refuse result).
Proof.
  intros Hrefuse Hout. unfold follows_world in Hout.
  destruct out as [[calls reply] w']. cbn [fst snd].
  assert ((forall k jwt w1, ¬ verifies answer w request k jwt w1) ->
          (forall c, c ∈ calls ->
                     verified c = None ∧ balance_of c = None
                     ∧ is_fetch c = false) ->
          refused reply ->
          (contacts_upstream calls <-> admitted ok answer w request)
          ∧ (verification_succeeded request calls
             <-> exists apiKey jwt w1, verifies answer w request apiKey jwt w1)
          ∧ (forall result,
               balance_returned result calls
               <-> exists w2, balance_answer answer w request result w2)
          ∧ (¬ admitted ok answer w request -> refused reply)
          ∧ (forall result w2,
               balance_answer answer w request result w2 ->
               ok result = false -> reply = refuse result)) as Hstop.
  { intros Hnv Hcalls Hrefused.
    assert (forall result w2, ¬ balance_answer answer w request result w2)
      as Hnb by (intros result w2 (k & jwt & w1 & Hv & _); by eapply Hnv).
    split.
    { split.
      - intros (c & Hc & Hf). destruct (Hcalls c Hc) as (_ & _ & Hn).
        congruence.
      - intros (result & w2 & Hb & _). by eapply Hnb in Hb. }
    split.
    { split.
      - intros (c & k & jwt & Hc & Hv & _).
        destruct (Hcalls c Hc) as (Hn & _). congruence.
      - intros (k & jwt & w1 & Hv). by eapply Hnv in Hv. }
    split.
    { intros result. split.
      - intros (c & Hc & Hb). destruct (Hcalls c Hc) as (_ & Hn & _).
        congruence.
      - intros (w2 & Hb). by eapply Hnb in Hb. }
    split; [done|].
    intros result w2 Hb. by eapply Hnb in Hb. }
  destruct (headers request !! "x-api-key") as [[apiKey|l]|] eqn:Hh.
  2,3: injection Hout as -> -> _; apply Hstop;
    [intros k jwt w1 (Hk & _); congruence | by intros c Hc%elem_of_nil
    | split; [by left | by eexists]].
  destruct (String.eqb apiKey "") eqn:He.
  { injection Hout as -> -> _. apply Hstop.
    - intros k jwt w1 (Hk & Hne & _). rewrite Hh in Hk. injection Hk as <-.
      by apply String.eqb_eq in He.
    - by intros c Hc%elem_of_nil.
    - split; [by left | by eexists]. }
  apply String.eqb_neq in He.
  destruct (answer _ (VerifyToken apiKey) w) as [[message|jwt] w1] eqn:Hv.
  { injection Hout as -> -> _. apply Hstop.
    - intros k jwt w1' (Hk & _ & Hv'). rewrite Hh in Hk. injection Hk as <-.
      congruence.
    - intros c Hc%list_elem_of_singleton. by subst c.
    - split; [by left | by eexists]. }
  destruct (answer _ (CheckBalance (Auth.userId jwt) apiKey) w1)
    as [result w2] eqn:Hb.
  assert (verifies answer w request apiKey jwt w1) as Hver by done.
  assert (balance_answer answer w request result w2) as Hbal
    by (by exists apiKey, jwt, w1).
  assert (forall result' w2',
             balance_answer answer w request result' w2' -> result' = result)
    as Hsame.
  { intros result' w2' (k & jwt' & w1' & (Hk & _ & Hv') & Hb').
    rewrite Hh in Hk. injection Hk as <-.
    rewrite Hv in Hv'. injection Hv' as <- <-.
    rewrite Hb in Hb'. by injection Hb' as <- <-. }
  assert (forall rest,
             (forall c, c ∈ rest -> verified c = None ∧ balance_of c = None) ->
             let calls0 := Made (VerifyToken apiKey) (inr jwt)
                           :: Made (CheckBalance (Auth.userId jwt) apiKey) result
                           :: rest in
             (verification_succeeded request calls0
              <-> exists apiKey jwt w1, verifies answer w request apiKey jwt w1)
             ∧ (forall result',
                  balance_returned result' calls0
                  <-> exists w2, balance_answer answer w request result' w2))
    as Hboth.
  { intros rest Hrest calls0. split.
    - split; [intros _; by exists apiKey, jwt, w1|]. intros _.
      exists (Made (VerifyToken apiKey) (inr jwt)), apiKey, jwt.
      split; [apply list_elem_of_here | done].
    - intros result'. split.
      + intros (c & Hc & Hr). exists w2.
        apply elem_of_cons in Hc as [->|Hc]; [done|].
        apply elem_of_cons in Hc as [->|Hc].
        * simpl in Hr. by injection Hr as <-.
        * destruct (Hrest c Hc) as [_ Hn]. congruence.
      + intros (w2' & Hb'). rewrite (Hsame _ _ Hb').
        exists (Made (CheckBalance (Auth.userId jwt) apiKey) result).
        split; [apply list_elem_of_further, list_elem_of_here | done]. }
  destruct (ok result) eqn:Hok.
  - destruct Hout as (upstream & rest & Hc & Hq & Hr). simpl in Hc, Hr.
    subst calls.
    assert (admitted ok answer w request) as Hadm by (by exists result, w2).
    split.
    { split; [done|]. intros _.
      exists (Made (Fetch (upstream_request anthropicApiKey request)) upstream).
      split; [|done].
      apply list_elem_of_further, list_elem_of_further, list_elem_of_here. }
    destruct (Hboth
                (Made (Fetch (upstream_request anthropicApiKey request)) upstream
                 :: rest)) as [H1 H2].
    { intros c [->|Hc]%elem_of_cons; [done|].
      by destruct (quiet_rest rest c Hq Hc) as (_ & _ & _ & ? & ?). }
    split; [exact H1|]. split; [exact H2|]. split; [done|].
    intros result' w2' Hb' Hok'. rewrite (Hsame _ _ Hb') in Hok'. congruence.
  - injection Hout as -> -> _.
    destruct (Hboth []) as [H1 H2]; [by intros c Hc%elem_of_nil|].
    split.
    { split.
      - intros (c & Hc & Hf).
        apply elem_of_cons in Hc as [->|Hc]; [done|].
        apply list_elem_of_singleton in Hc. by subst c.
      - intros (result' & w2' & Hb' & Hok').
        rewrite (Hsame _ _ Hb') in Hok'. congruence. }
    split; [exact H1|]. split; [exact H2|]. split; [by intros _|].
    intros result' w2' Hb' _. by rewrite (Hsame _ _ Hb').
Qed.

(** C1.  In every run of the handler, in both versions, whatever the
    services answer: the upstream is contacted if and only if the
    verification of the [x-api-key] header succeeded and the balance
    check returned [ok == true], both as the calls of the run show them
    and as the services answer them: when [verifyToken] accepts the
    header and [checkBalance] then answers [ok == true] the fetch is
    made, and otherwise the request is refused with 401, 402 or 503;
    every verification comes before every balance check, which comes
    before every fetch; and a request the handler refuses with 401, 402
    or 503 and an error object never reaches the upstream. *)
Theorem gate_before_upstream {W : Type} (answer : world event W) (w : W)
    (request : Request) :
  let out := run answer
               (registerProxyRoute ok serviceUnavailable anthropicApiKey
                  decode decoder0 JSON_parse toString gt0 calculateCostUsd
                  request) w in
  let out_first := run answer
               (registerProxyRoute_first ok anthropicApiKey decode decoder0
                  JSON_parse gt0 calculateCostUsd request) w in
  ((contacts_upstream out.1.1
    <-> verification_succeeded request out.1.1 ∧ balance_ok ok out.1.1)
   ∧ gate_in_order out.1.1
   ∧ (refused out.1.2 -> ¬ contacts_upstream out.1.1)
   ∧ (contacts_upstream out.1.1 <-> admitted ok answer w request)
   ∧ (verification_succeeded request out.1.1
      <-> exists apiKey jwt w1, verifies answer w request apiKey jwt w1)
   ∧ (balance_ok ok out.1.1 <-> admitted ok answer w request)
   ∧ (¬ admitted ok answer w request -> refused out.1.2))
  ∧ ((contacts_upstream out_first.1.1
      <-> verification_succeeded request out_first.1.1
          ∧ balance_ok ok out_first.1.1)
     ∧ gate_in_order out_first.1.1
     ∧ (refused out_first.1.2 -> ¬ contacts_upstream out_first.1.1)
     ∧ (contacts_upstream out_first.1.1 <-> admitted ok answer w request)
     ∧ (verification_succeeded request out_first.1.1
        <-> exists apiKey jwt w1, verifies answer w request apiKey jwt w1)
     ∧ (balance_ok ok out_first.1.1 <-> admitted ok answer w request)
     ∧ (¬ admitted ok answer w request -> refused out_first.1.2)).
Proof.
  intros out out_first.
  pose proof (handler_outcome answer w request) as H.
  pose proof (handler_first_outcome answer w request) as H1.
  assert (forall (refuse : BalanceResult -> Reply)
                 (o : list (made event) * Reply * W),
             (forall result, refused (refuse result)) ->
             follows_world ok anthropicApiKey answer w request refuse o ->
             (contacts_upstream o.1.1 <-> admitted ok answer w request)
             ∧ (verification_succeeded request o.1.1
                <-> exists apiKey jwt w1, verifies answer w request apiKey jwt w1)
             ∧ (balance_ok ok o.1.1 <-> admitted ok answer w request)
             ∧ (¬ admitted ok answer w request -> refused o.1.2)) as Hworld.
  { intros refuse o Hrefuse Ho.
    destruct (world_gate answer w request refuse o Hrefuse Ho)
      as (Hc & Hv & Hb & Hr & _).
    split; [exact Hc|]. split; [exact Hv|]. split; [|exact Hr].
    split.
    - intros (c & result & Hin & Hbal & Hok).
      destruct (proj1 (Hb result)) as [w2 Hw]; [by exists c|].
      by exists result, w2.
    - intros (result & w2 & Hw & Hok).
      destruct (proj2 (Hb result)) as (c & Hin & Hbal); [by exists w2|].
      by exists c, result. }
  split.
  - destruct (outcome_gate _ _ _ _ H) as [Hiff Href].
    split; [exact Hiff|]. split; [by eapply outcome_in_order|].
    split; [exact Href|].
    apply (Hworld (refusal serviceUnavailable));
      [|apply handler_follows_world].
    intros result. unfold refusal.
    destruct (serviceUnavailable result) as [[]|];
      (split; [tauto | by eexists]).
  - destruct (outcome_gate _ _ _ _ H1) as [Hiff Href].
    split; [exact Hiff|]. split; [by eapply outcome_in_order|].
    split; [exact Href|].
    apply (Hworld refusal_first); [|apply handler_first_follows_world].
    intros result. split; [tauto | by eexists].
Qed.


(** The first version of the handler reads [ok] alone: its refusal for
    want of balance is always 402. *)
Lemma first_version_refuses_402 {W : Type} (answer : world event W) (w : W)
    (request : Request) (result : BalanceResult) :
  let out := run answer
               (registerProxyRoute_first ok anthropicApiKey decode decoder0
                  JSON_parse gt0 calculateCostUsd request) w in
  balance_returned result out.1.1 ->
  ok result = false ->
  out.1.2 = mkReply 402 ∅
              (SendJson (JObj [("error", JStr "Insufficient balance")]))
  ∧ ¬ contacts_upstream out.1.1.
Proof.
  intros out Hb Hok.
  pose proof (handler_first_outcome answer w request) as H.
  by destruct (outcome_refusal _ _ _ _ _ H Hb Hok) as [Hr Hno].
Qed.

End ProxyFacts.

(** The services accept the credential and report a usable balance: the
    request is admitted, and the run contacts the upstream. *)
Lemma gate_before_upstream_witness :
  Proxy.admitted Balance.ok (mock with_balance (Some sse_answer)) tt
    valid_request
  ∧ Proxy.contacts_upstream
      (handle with_balance (Some sse_answer) valid_request).1.1.
Proof.
  assert (Proxy.admitted Balance.ok (mock with_balance (Some sse_answer)) tt
            valid_request) as Hadm.
  { exists with_balance, tt. split; [|reflexivity].
    exists "valid-jwt", user1, tt.
    split; [|reflexivity]. split; [reflexivity|]. split; [discriminate|].
    reflexivity. }
  split; [exact Hadm|].
  apply (proj1 (gate_before_upstream Balance.ok Balance.serviceUnavailable
                  "sk-real-anthropic-key" ascii_decode tt JsonText.parse
                  string_of_list_byte positive cost_of
                  (mock with_balance (Some sse_answer)) tt valid_request)).
  exact Hadm.
Defined.



(** Scenarios of proxy.test.ts and of the specification (S1, S3); the
    cost of S1 is 189/50000 = 0.00378. *)
Example balance_exhausted :
  (handle broke None valid_request).1.2
  = Proxy.mkReply 402 ∅
      (Proxy.SendJson (JObj [("error", JStr "Insufficient balance")]))
  ∧ length (handle broke None valid_request).1.1 = 2%nat.
Proof. vm_compute. split; reflexivity. Qed.

Example upstream_unreachable :
  (handle with_balance None valid_request).1.2
  = Proxy.mkReply 502 ∅
      (Proxy.SendJson (JObj [("error", JStr "Failed to reach Anthropic API")])).
Proof. vm_compute. reflexivity. Qed.

Example streaming_is_metered :
  let out := handle with_balance (Some sse_answer) valid_request in
  omap reported out.1.1
  = [("valid-jwt",
      Proxy.mkReport "user-1" (JStr "claude-sonnet-4-6") (num 500) (num 150)
        (num 100) (num 0) (JNum (189 # 50000)%Q))]
  ∧ Proxy.reply_status out.1.2 = 200
  ∧ Some (Proxy.reply_sent out.1.2)
    = Proxy.SendStream <$> Proxy.res_body sse_answer.
Proof. vm_compute. repeat split. Qed.

(** Scenarios of balance.test.ts and of the specification (S5): a stale
    entry serves within the grace period and not beyond; an invalidated
    entry still serves when the billing server is down. *)
Example stale_within_grace :
  let fetched := (Balance.checkBalance ∅ 0 "user-stale" "token-7"
                    (Balance.Responded true
                       (Some (Balance.mkData (Some 20%Q) (Some 500%Q) None None)))).2 in
  (Balance.checkBalance fetched (3 * 60 * 1000) "user-stale" "token-7"
     (Balance.Responded false None)).1
  = Balance.mkResult 20 500 true None
  ∧ (Balance.checkBalance fetched (15 * 60 * 1000) "user-stale" "token-7"
       Balance.Rejected).1
    = Balance.mkResult 0 0 false (Some true)
  ∧ (Balance.checkBalance
       (Balance.invalidateBalanceCache fetched 1000 "user-stale")
       1000 "user-stale" "token-7" Balance.Rejected).1
    = Balance.mkResult 20 500 true None
  ∧ Balance.sweep fetched (15 * 60 * 1000) = ∅.
Proof. vm_compute. repeat split. Qed.

(** * Further properties of the code *)

Import MoreSamples.

(** ** The balance cache, call after call *)

Section BalanceCacheFacts.
Import Balance BalanceMore.

Lemma fresh_hit (cache : gmap string CacheEntry) (now : Z)
    (userId token : string) (net : fetch_outcome) (e : CacheEntry) :
  cache !! userId = Some e -> now < expiry e ->
  checkBalance cache now userId token net
  = (mkResult (cached_balance e) (cached_freeTokens e)
       (gt0 (cached_balance e) || gt0 (cached_freeTokens e)) None, cache).
Proof.
  intros He Hfresh. unfold checkBalance. rewrite He.
  assert ((expiry e >? now) = true) as -> by (rewrite Z.gtb_ltb; by apply Z.ltb_lt).
  done.
Qed.

Lemma not_fresh (cache : gmap string CacheEntry) (now : Z)
    (userId token : string) (net : fetch_outcome) :
  (forall e, cache !! userId = Some e -> expiry e <= now) ->
  checkBalance cache now userId token net
  = match net with
    | Responded true (Some data) =>
        (mkResult (or0 (data_balance data)) (or0 (data_freeTokens data))
           (gt0 (or0 (data_balance data)) || gt0 (or0 (data_freeTokens data)))
           None,
         <[userId := mkEntry (or0 (data_balance data))
                       (or0 (data_freeTokens data)) (now + CACHE_TTL_MS)]> cache)
    | _ => (fallbackToStaleCache userId (cache !! userId) now, cache)
    end.
Proof.
  intros Hold. unfold checkBalance.
  destruct (cache !! userId) as [e|] eqn:He.
  - assert ((expiry e >? now) = false) as ->.
    { rewrite Z.gtb_ltb. apply Z.ltb_ge. by apply Hold. }
    by destruct net as [|[] [data|]].
  - by destruct net as [|[] [data|]].
Qed.

(** X1.  A balance fetched at time [t] is served from the cache for the
    two minutes that follow: every check for that user in that time, with
    whatever token and whatever the network would have answered, returns
    the fetched result and leaves the cache as it is. *)
Theorem fetched_balance_is_cached (cache : gmap string CacheEntry) (t : Z)
    (userId token : string) (data : BalanceData) :
  (forall e, cache !! userId = Some e -> expiry e <= t) ->
  let first := checkBalance cache t userId token (Responded true (Some data)) in
  forall (now : Z) (token' : string) (net : fetch_outcome),
    t <= now < t + CACHE_TTL_MS ->
    checkBalance first.2 now userId token' net = first.
Proof.
  intros Hold first now token' net Hnow. subst first.
  rewrite (not_fresh _ _ _ _ _ Hold). simpl.
  rewrite (fresh_hit _ now userId token' net
             (mkEntry (or0 (data_balance data)) (or0 (data_freeTokens data))
                (t + CACHE_TTL_MS)));
    [reflexivity | apply lookup_insert_eq | simpl; lia].
Qed.

Lemma fallback_unavailable (userId : string) (cached : option CacheEntry)
    (now : Z) :
  serviceUnavailable (fallbackToStaleCache userId cached now) = Some true
  <-> (forall e, cached = Some e -> expiry e <= now - STALE_CACHE_TTL_MS).
Proof.
  unfold fallbackToStaleCache. destruct cached as [e|]; [|by split].
  destruct (expiry e >? now - STALE_CACHE_TTL_MS) eqn:Hg; simpl.
  - rewrite Z.gtb_ltb in Hg. apply Z.ltb_lt in Hg. split; [done|].
    intros H. specialize (H e eq_refl). lia.
  - rewrite Z.gtb_ltb in Hg. apply Z.ltb_ge in Hg. split; [|done].
    by intros _ e' [= <-].
Qed.

Lemma fallback_shape (userId : string) (cached : option CacheEntry) (now : Z) :
  let r := fallbackToStaleCache userId cached now in
  serviceUnavailable r = None
  \/ (serviceUnavailable r = Some true /\ ok r = false
      /\ balance r = 0%Q /\ freeTokens r = 0%Q).
Proof.
  unfold fallbackToStaleCache. destruct cached as [e|]; [|by right].
  destruct (expiry e >? now - STALE_CACHE_TTL_MS); [by left | by right].
Qed.

(** X2.  checkBalance reports the service unavailable exactly when the
    fetch yields no data and the cache holds no entry for the user that
    expired less than ten minutes ago.  It then refuses with zero
    balances, and whenever the fetch yields no data the cache is left as
    it was, so failing checks never prolong an entry.  The flag is never
    set to false. *)
Theorem unavailable_iff_no_data_and_no_grace (cache : gmap string CacheEntry)
    (now : Z) (userId token : string) (net : fetch_outcome) :
  let r := (checkBalance cache now userId token net).1 in
  let cache' := (checkBalance cache now userId token net).2 in
  (serviceUnavailable r = Some true
   <-> failed net = true
       /\ forall e, cache !! userId = Some e ->
                    expiry e <= now - STALE_CACHE_TTL_MS)
  /\ (serviceUnavailable r = Some true ->
      ok r = false /\ balance r = 0%Q /\ freeTokens r = 0%Q)
  /\ (failed net = true -> cache' = cache)
  /\ serviceUnavailable r <> Some false.
Proof.
  simpl.
  destruct (cache !! userId) as [e|] eqn:He.
  - destruct (Z_lt_le_dec now (expiry e)) as [Hfresh|Hold].
    + rewrite (fresh_hit _ _ _ _ net e He Hfresh). simpl.
      repeat split; try done.
      intros [_ H]. specialize (H e eq_refl). unfold STALE_CACHE_TTL_MS in H. lia.
    + rewrite not_fresh by (by intros e' Heq; rewrite He in Heq; injection Heq as <-).
      rewrite He.
      pose proof (fallback_unavailable userId (Some e) now) as Hiff.
      pose proof (fallback_shape userId (Some e) now) as Hshape. simpl in Hshape.
      destruct net as [|[] [data|]]; simpl.
      all: split; [|split; [|split]]; try done.
      all: try (split; [intros H; split; [done | by apply Hiff] | intros [_ H]; by apply Hiff]).
      all: try (split; [done | by intros [? _]]).
      all: try (intros H; destruct Hshape as [H'|H']; [congruence | tauto]).
      all: try (destruct Hshape as [H'|[H' _]]; congruence).
  - rewrite not_fresh by (by intros e' Heq; rewrite He in Heq).
    rewrite He.
    destruct net as [|[] [data|]]; simpl; repeat split; try done;
      try (intros [? ?]; done).
Qed.

Lemma alter_expiry_lookup (cache : gmap string CacheEntry) (t : Z)
    (userId : string) (e : CacheEntry) :
  cache !! userId = Some e ->
  invalidateBalanceCache cache t userId !! userId
  = Some (mkEntry (cached_balance e) (cached_freeTokens e) t).
Proof.
  intros He. unfold invalidateBalanceCache.
  by rewrite lookup_alter_eq, He.
Qed.

(** X3.  After invalidateBalanceCache(userId) at time [t], the next check
    for that user, at [t] or later, no longer answers from the cache: when
    the billing server answers with data the result is that data, stored
    for two minutes from the check; when it yields none, the balances of
    the invalidated entry are still returned during the ten minutes after
    [t], and the service is reported unavailable from then on. *)
Theorem invalidated_entry_is_refetched (cache : gmap string CacheEntry)
    (t now : Z) (userId token : string) (net : fetch_outcome) (e : CacheEntry) :
  cache !! userId = Some e -> t <= now ->
  let cache' := invalidateBalanceCache cache t userId in
  checkBalance cache' now userId token net
  = match net with
    | Responded true (Some data) =>
        let b := or0 (data_balance data) in
        let f := or0 (data_freeTokens data) in
        (mkResult b f (gt0 b || gt0 f) None,
         <[userId := mkEntry b f (now + CACHE_TTL_MS)]> cache)
    | _ =>
        (if now <? t + STALE_CACHE_TTL_MS
         then mkResult (cached_balance e) (cached_freeTokens e)
                (gt0 (cached_balance e) || gt0 (cached_freeTokens e)) None
         else mkResult 0 0 false (Some true),
         cache')
    end.
Proof.
  intros He Hnow cache'. subst cache'.
  pose proof (alter_expiry_lookup cache t userId e He) as Hl.
  rewrite not_fresh
    by (intros e' He'; rewrite Hl in He'; injection He' as <-; simpl; lia).
  rewrite Hl.
  assert (fallbackToStaleCache userId
            (Some (mkEntry (cached_balance e) (cached_freeTokens e) t)) now
          = if now <? t + STALE_CACHE_TTL_MS
            then mkResult (cached_balance e) (cached_freeTokens e)
                   (gt0 (cached_balance e) || gt0 (cached_freeTokens e)) None
            else mkResult 0 0 false (Some true)) as Hfb.
  { unfold fallbackToStaleCache. simpl. rewrite Z.gtb_ltb.
    destruct (now <? t + STALE_CACHE_TTL_MS) eqn:H1;
      destruct (now - STALE_CACHE_TTL_MS <? t) eqn:H2; try done;
      [apply Z.ltb_lt in H1; apply Z.ltb_ge in H2
      |apply Z.ltb_ge in H1; apply Z.ltb_lt in H2]; lia. }
  destruct net as [|[] [data|]]; rewrite ?Hfb; try done.
  simpl. f_equal. unfold invalidateBalanceCache.
  apply map_eq. intros k. destruct (decide (k = userId)) as [->|Hk].
  - by rewrite !lookup_insert_eq.
  - by rewrite !lookup_insert_ne, lookup_alter_ne.
Qed.



(** X5.  Users do not interfere in the balance cache: a check or an
    invalidation for one user leaves every other user's entry as it was,
    and the result of a check depends on the cache through the entry of
    the checked user alone. *)
Theorem balance_cache_per_user (cache : gmap string CacheEntry) (now : Z)
    (userId other token : string) (net : fetch_outcome) :
  userId <> other ->
  (checkBalance cache now userId token net).2 !! other = cache !! other
  /\ invalidateBalanceCache cache now userId !! other = cache !! other
  /\ forall cache2 : gmap string CacheEntry,
       cache2 !! userId = cache !! userId ->
       (checkBalance cache2 now userId token net).1
       = (checkBalance cache now userId token net).1.
Proof.
  intros Hne. split; [|split].
  - unfold checkBalance.
    destruct (cache !! userId) as [e|]; [destruct (expiry e >? now); [done|]|];
      destruct net as [|[] [data|]]; simpl; try done;
      by rewrite lookup_insert_ne.
  - unfold invalidateBalanceCache. by rewrite lookup_alter_ne.
  - intros cache2 H2. unfold checkBalance. rewrite H2.
    destruct (cache !! userId) as [e|]; [destruct (expiry e >? now); [done|]|];
      by destruct net as [|[] [data|]].
Qed.

End BalanceCacheFacts.

Lemma fetched_balance_is_cached_witness :
  (forall e : Balance.CacheEntry,
      (∅ : gmap string Balance.CacheEntry) !! "user-cache" = Some e ->
      Balance.expiry e <= 0)
  ∧ Balance.checkBalance
      (Balance.checkBalance ∅ 0 "user-cache" "token-c"
         (Balance.Responded true (Some rich))).2
      60000 "user-cache" "token-c" Balance.Rejected
    = Balance.checkBalance ∅ 0 "user-cache" "token-c"
        (Balance.Responded true (Some rich)).
Proof.
  assert (forall e : Balance.CacheEntry,
             (∅ : gmap string Balance.CacheEntry) !! "user-cache" = Some e ->
             Balance.expiry e <= 0) as H
    by (intros e He; rewrite lookup_empty in He; discriminate).
  split; [exact H|].
  apply (fetched_balance_is_cached ∅ 0 "user-cache" "token-c" rich H
           60000 "token-c" Balance.Rejected).
  unfold Balance.CACHE_TTL_MS. lia.
Defined.


Lemma invalidated_entry_is_refetched_witness :
  ({[ "user-cache" := rich_entry ]} : gmap string Balance.CacheEntry)
    !! "user-cache" = Some rich_entry
  /\ 60000 <= 61000
  /\ (Balance.checkBalance
        (Balance.invalidateBalanceCache {[ "user-cache" := rich_entry ]} 60000
           "user-cache")
        61000 "user-cache" "token-c" Balance.Rejected).1
     = Balance.mkResult 20 500 true None.
Proof.
  assert (({[ "user-cache" := rich_entry ]} : gmap string Balance.CacheEntry)
            !! "user-cache" = Some rich_entry) as H by apply lookup_singleton_eq.
  assert (60000 <= 61000) as Ht by lia.
  split; [exact H | split; [exact Ht|]].
  rewrite (invalidated_entry_is_refetched _ 60000 61000 "user-cache" "token-c"
             Balance.Rejected rich_entry H Ht).
  reflexivity.
Defined.

Lemma balance_cache_per_user_witness :
  "user-cache" <> "user-other"
  /\ (Balance.checkBalance {[ "user-other" := rich_entry ]} 0 "user-cache"
        "token-c" (Balance.Responded true (Some rich))).2 !! "user-other"
     = Some rich_entry.
Proof.
  assert ("user-cache" <> "user-other") as H by discriminate.
  split; [exact H|].
  rewrite (proj1 (balance_cache_per_user {[ "user-other" := rich_entry ]} 0
                    "user-cache" "user-other" "token-c"
                    (Balance.Responded true (Some rich)) H)).
  apply lookup_singleton_eq.
Defined.

(** ** The handler past the gate *)

Section ProxyRunFacts.
Import Prog Proxy ProxyMore.
Context {BalanceResult : Type}.
Variable ok : BalanceResult -> bool.
Variable serviceUnavailable : BalanceResult -> option bool.
Variable anthropicApiKey : string.
Context {D : Type}.
Variable decode : D -> chunk -> D * string.
Variable decoder0 : D.
Variable JSON_parse : string -> option json.
Variable toString : chunk -> string.
Variable gt0 : option json -> bool.
Variable calculateCostUsd : json -> usage_tokens -> json.

Local Abbreviation event := (@Proxy.event BalanceResult).
Local Abbreviation handler :=
  (registerProxyRoute ok serviceUnavailable anthropicApiKey decode decoder0
     JSON_parse toString gt0 calculateCostUsd).
Local Abbreviation handler_first :=
  (registerProxyRoute_first ok anthropicApiKey decode decoder0 JSON_parse gt0
     calculateCostUsd).
Local Abbreviation respond_new :=
  (respond (BalanceResult := BalanceResult) decode decoder0 JSON_parse toString
     gt0 calculateCostUsd).
Local Abbreviation respond_old :=
  (respond_first (BalanceResult := BalanceResult) decode decoder0 JSON_parse
     gt0 calculateCostUsd).

Lemma handler_passed {W : Type} (answer : world event W) (w : W)
    (request : Request) :
  passed anthropicApiKey answer respond_new request (run answer (handler request) w).
Proof.
  unfold registerProxyRoute.
  assert (forall (v : json) (w' : W),
            passed anthropicApiKey answer respond_new request ([], reject 401 v, w')) as H401.
  { intros v w'. apply stopped; try done. split; [by left | by eexists]. }
  destruct (headers request !! "x-api-key") as [[apiKey|l]|] eqn:Hk;
    [|simpl; apply H401..].
  destruct (String.eqb apiKey ""); [simpl; apply H401|].
  unfold mbind, prog_bind. rewrite run_call_bind.
  destruct (answer _ _ w) as [[message|jwt] w1].
  { simpl. apply stopped; try done. split; [by left | by eexists]. }
  rewrite run_call_bind.
  destruct (answer _ _ w1) as [result w2].
  destruct (ok result) eqn:Hok; cbn [negb].
  - unfold forward, mbind, prog_bind. rewrite run_call_bind.
    destruct (answer _ _ w2) as [[r|] w3].
    + pose proof (answered anthropicApiKey answer respond_new request apiKey jwt result r w3 Hk)
        as Hp.
      simpl in Hp. destruct (run answer _ w3) as [[c a] w4]. exact Hp.
    + rewrite run_call_bind. destruct (answer _ _ w3) as [[] w4]. simpl.
      by eapply unreachable.
  - destruct (serviceUnavailable result) as [[]|]; simpl;
      (apply stopped; try done; split; [tauto | by eexists]).
Qed.

Lemma handler_first_passed {W : Type} (answer : world event W) (w : W)
    (request : Request) :
  passed anthropicApiKey answer respond_old request (run answer (handler_first request) w).
Proof.
  unfold registerProxyRoute_first.
  assert (forall (v : json) (w' : W),
            passed anthropicApiKey answer respond_old request ([], reject 401 v, w')) as H401.
  { intros v w'. apply stopped; try done. split; [by left | by eexists]. }
  destruct (headers request !! "x-api-key") as [[apiKey|l]|] eqn:Hk;
    [|simpl; apply H401..].
  destruct (String.eqb apiKey ""); [simpl; apply H401|].
  unfold mbind, prog_bind. rewrite run_call_bind.
  destruct (answer _ _ w) as [[message|jwt] w1].
  { simpl. apply stopped; try done. split; [by left | by eexists]. }
  rewrite run_call_bind.
  destruct (answer _ _ w1) as [result w2].
  destruct (ok result) eqn:Hok; cbn [negb].
  - unfold forward_first, mbind, prog_bind. rewrite run_call_bind.
    destruct (answer _ _ w2) as [[r|] w3].
    + pose proof (answered anthropicApiKey answer respond_old request apiKey jwt result r w3 Hk)
        as Hp.
      simpl in Hp. destruct (run answer _ w3) as [[c a] w4]. exact Hp.
    + rewrite run_call_bind. destruct (answer _ _ w3) as [[] w4]. simpl.
      by eapply unreachable.
  - simpl. apply stopped; try done. split; [tauto | by eexists].
Qed.

Lemma gate_free_calls (calls : list (made event)) :
  Forall (fun c => is_gate c = false) calls -> omap fetch_of calls = [].
Proof.
  induction 1 as [|c calls Hc _ IH]; [done|].
  destruct c as [X e x]. by destruct e; simpl in *.
Qed.

Lemma respond_reply {W : Type} (answer : world event W) (w : W)
    (apiKey : string) (jwt : Auth.JwtPayload) (model : json) (r : Response) :
  (run answer (respond_new apiKey jwt model r) w).1.2
  = mkReply (status r) (passed_headers r)
      (if not_streaming r then SendBuffer (arrayBuffer r)
       else SendStream (default [] (res_body r))).
Proof.
  unfold respond. destruct (not_streaming r); unfold mbind, prog_bind;
    rewrite run_bind; destruct (run answer _ w) as [[c a] w1]; simpl; [done|].
  unfold pipeThrough. by rewrite enqueued_pipe.
Qed.

Lemma respond_first_reply {W : Type} (answer : world event W) (w : W)
    (apiKey : string) (jwt : Auth.JwtPayload) (model : json) (r : Response) :
  (run answer (respond_old apiKey jwt model r) w).1.2
  = mkReply (status r) (passed_headers r)
      (if not_streaming r then SendBuffer (arrayBuffer r)
       else SendStream (default [] (res_body r))).
Proof.
  unfold respond_first. destruct (not_streaming r); [done|].
  unfold mbind, prog_bind.
  rewrite run_bind; destruct (run answer _ w) as [[c a] w1]; simpl.
  unfold pipeThrough. by rewrite enqueued_pipe.
Qed.

Lemma passed_headers_lookup (r : Response) (h v : string) :
  passed_headers r !! h = Some v
  <-> res_headers r !! h = Some v ∧ v ≠ ""
      ∧ (h = "content-type" ∨ h = "request-id"
         ∨ startsWith h "x-ratelimit" = true).
Proof.
  assert (forall m : gmap string string,
            filter (fun kv => (startsWith kv.1 "x-ratelimit" = true
                               ∨ kv.1 = "request-id") ∧ kv.2 ≠ "") m !! h
            = Some v
            <-> m !! h = Some v ∧ v ≠ ""
                ∧ (h = "request-id" ∨ startsWith h "x-ratelimit" = true))
    as Hrate.
  { intros m. rewrite map_lookup_filter_Some. simpl. tauto. }
  unfold passed_headers, content_type.
  destruct (decide (h = "content-type")) as [->|Hh].
  - destruct (res_headers r !! "content-type") as [ct|] eqn:Hct.
    + destruct (String.eqb ct "") eqn:Hne.
      * apply String.eqb_eq in Hne. subst ct. rewrite Hrate, Hct.
        split; [intros (_&_&[?|?]); done | intros ([= <-]&?&_); done].
      * apply String.eqb_neq in Hne. rewrite lookup_insert_eq.
        split; [intros [= <-]; tauto | by intros (?&_)].
    + rewrite Hrate, Hct. split; [by intros (?&_) | by intros (?&_)].
  - destruct (res_headers r !! "content-type") as [ct|];
      [destruct (String.eqb ct "")|];
      rewrite ?lookup_insert_ne by done; rewrite Hrate; tauto.
Qed.

Lemma upstream_headers_lookup (request : Request) (h : string) :
  upstream_headers anthropicApiKey request !! h
  = if decide (h = "x-api-key") then Some anthropicApiKey
    else if decide (h = "content-type")
         then Some (default "application/json"
                      (string_value (headers request !! "content-type")))
    else if decide (h = "anthropic-version" ∨ h = "anthropic-beta")
         then string_value (headers request !! h)
    else None.
Proof.
  unfold upstream_headers, FORWARD_HEADERS, string_value. simpl.
  destruct (headers request !! "anthropic-version") as [[v1|?]|] eqn:H1;
    [destruct (String.eqb v1 "") eqn:E1|..];
    (destruct (headers request !! "anthropic-beta") as [[v2|?]|] eqn:H2;
       [destruct (String.eqb v2 "") eqn:E2|..]);
    (destruct (headers request !! "content-type") as [[v3|?]|] eqn:H3;
       [destruct (String.eqb v3 "") eqn:E3|..]);
    simpl; repeat case_decide; simplify_map_eq; try done;
    repeat match goal with
           | H : _ ∨ _ |- _ => destruct H; simplify_map_eq
           end; try done;
    rewrite ?H1, ?H2, ?H3, ?E1, ?E2, ?E3; try done.
Qed.

Lemma fetches_passed {W : Type} (answer : world event W)
    (answering : string -> Auth.JwtPayload -> json -> Response -> prog event Reply)
    (request : Request) (out : list (made event) * Reply * W) :
  (forall k jwt m r w1,
      Forall (fun c => is_gate c = false) (run answer (answering k jwt m r) w1).1.1) ->
  passed anthropicApiKey answer answering request out ->
  omap fetch_of out.1.1 = []
  ∨ exists upstream,
      omap fetch_of out.1.1
      = [(upstream_request anthropicApiKey request, upstream)].
Proof.
  intros Hq Hp.
  inversion Hp as [c a w' _ Hn _ _ Heq|k jwt res w' Hk Heq
                  |k jwt res r w1 Hk Heq];
    simpl; [by left | right; by eexists |].
  right. exists (Some r). f_equal. apply gate_free_calls, Hq.
Qed.

Lemma shape_passed {W : Type} (answer : world event W)
    (answering : string -> Auth.JwtPayload -> json -> Response -> prog event Reply)
    (request : Request) (out : list (made event) * Reply * W) :
  (forall k jwt m r w1,
      Forall (fun c => is_gate c = false) (run answer (answering k jwt m r) w1).1.1) ->
  passed anthropicApiKey answer answering request out ->
  upstream_shape anthropicApiKey request out.1.1.
Proof.
  intros Hq Hp. unfold upstream_shape.
  destruct (fetches_passed answer answering request out Hq Hp)
    as [-> | [upstream' ->]]; simpl.
  - split; [lia|]. intros rq upstream Hin. by apply elem_of_nil in Hin.
  - split; [lia|]. intros rq upstream Hin.
    apply list_elem_of_singleton in Hin. injection Hin as -> ->.
    unfold upstream_request; simpl.
    rewrite !upstream_headers_lookup. simpl.
    repeat split; try done.
    intros h [v Hv]. rewrite upstream_headers_lookup in Hv.
    repeat case_decide; try done; subst;
      repeat match goal with
             | H : _ ∨ _ |- _ => destruct H; subst
             end; set_solver.
Qed.

(** X6.  The request the handler sends upstream, in both versions: at
    most one fetch per request, a POST to
    https://api.anthropic.com/v1/messages whose body is the body of the
    client's request; its x-api-key header is the configured key, never
    the client's credential as such; content-type is the client's when
    that is a non-empty string and application/json otherwise;
    anthropic-version and anthropic-beta are the client's when non-empty
    strings and absent otherwise; no other header is sent. *)
Theorem upstream_request_shape {W : Type} (answer : world event W) (w : W)
    (request : Request) :
  upstream_shape anthropicApiKey request (run answer (handler request) w).1.1
  ∧ upstream_shape anthropicApiKey request
      (run answer (handler_first request) w).1.1.
Proof.
  split.
  - apply (shape_passed answer respond_new); [|apply handler_passed].
    intros k jwt m r w1.
    apply (respond_passes decode decoder0 JSON_parse toString gt0
             calculateCostUsd answer w1 k jwt m r).
  - apply (shape_passed answer respond_old); [|apply handler_first_passed].
    intros k jwt m r w1.
    apply (respond_first_passes decode decoder0 JSON_parse gt0
             calculateCostUsd answer w1 k jwt m r).
Qed.

(** X7.  When the upstream cannot be reached (the fetch is rejected), the
    handler, in both versions, answers 502 with the error object
    "Failed to reach Anthropic API", logs that one error and reports no
    usage. *)
Theorem unreachable_upstream_is_502 {W : Type} (answer : world event W) (w : W)
    (request : Request) (rq : UpstreamRequest) :
  let out := run answer (handler request) w in
  let out_first := run answer (handler_first request) w in
  ((rq, None) ∈ omap fetch_of out.1.1 ->
   out.1.2 = mkReply 502 ∅
               (SendJson (JObj [("error", JStr "Failed to reach Anthropic API")]))
   ∧ omap log_of out.1.1 = [("error", "Failed to reach Anthropic API")]
   ∧ omap report_of out.1.1 = [] ∧ omap report_first_of out.1.1 = [])
  ∧ ((rq, None) ∈ omap fetch_of out_first.1.1 ->
     out_first.1.2 = mkReply 502 ∅
                 (SendJson (JObj [("error", JStr "Failed to reach Anthropic API")]))
     ∧ omap log_of out_first.1.1 = [("error", "Failed to reach Anthropic API")]
     ∧ omap report_of out_first.1.1 = []
     ∧ omap report_first_of out_first.1.1 = []).
Proof.
  simpl. split.
  - pose proof (handler_passed answer w request) as Hp.
    inversion Hp as [c a w' _ Hn _ _ Heq|k jwt res w' Hk Heq
                    |k jwt res r w1 Hk Heq]; simpl.
    + rewrite Hn. by intros Hin%elem_of_nil.
    + done.
    + rewrite gate_free_calls
        by apply (respond_passes decode decoder0 JSON_parse toString gt0
                    calculateCostUsd answer w1 k jwt (request_model request) r).
      by intros [=]%list_elem_of_singleton.
  - pose proof (handler_first_passed answer w request) as Hp.
    inversion Hp as [c a w' _ Hn _ _ Heq|k jwt res w' Hk Heq
                    |k jwt res r w1 Hk Heq]; simpl.
    + rewrite Hn. by intros Hin%elem_of_nil.
    + done.
    + rewrite gate_free_calls
        by apply (respond_first_passes decode decoder0 JSON_parse gt0
                    calculateCostUsd answer w1 k jwt (request_model request) r).
      by intros [=]%list_elem_of_singleton.
Qed.

(** X8.  When the upstream answers, the handler, in both versions, passes
    the answer on: the reply has the upstream's status; it carries the
    bytes of the upstream body, as one buffer when the answer is not a
    stream and chunk by chunk when it is; and its headers are those
    upstream headers with a non-empty value that are content-type,
    request-id, or start with x-ratelimit.  Nothing of this depends on the
    decoder, the JSON parser or the metering. *)
Theorem upstream_answer_passes_through {W : Type} (answer : world event W)
    (w : W) (request : Request) (rq : UpstreamRequest) (r : Response) :
  let out := run answer (handler request) w in
  let out_first := run answer (handler_first request) w in
  let passes (reply : Reply) :=
    reply_status reply = status r
    ∧ reply_sent reply
      = (if not_streaming r then SendBuffer (arrayBuffer r)
         else SendStream (default [] (res_body r)))
    ∧ payload_bytes (reply_sent reply) = Some (arrayBuffer r)
    ∧ forall h v,
        reply_headers reply !! h = Some v
        <-> res_headers r !! h = Some v ∧ v ≠ ""
            ∧ (h = "content-type" ∨ h = "request-id"
               ∨ startsWith h "x-ratelimit" = true) in
  ((rq, Some r) ∈ omap fetch_of out.1.1 -> passes out.1.2)
  ∧ ((rq, Some r) ∈ omap fetch_of out_first.1.1 -> passes out_first.1.2).
Proof.
  assert (forall reply : Reply,
            reply = mkReply (status r) (passed_headers r)
                      (if not_streaming r then SendBuffer (arrayBuffer r)
                       else SendStream (default [] (res_body r))) ->
            reply_status reply = status r
            ∧ reply_sent reply
              = (if not_streaming r then SendBuffer (arrayBuffer r)
                 else SendStream (default [] (res_body r)))
            ∧ payload_bytes (reply_sent reply) = Some (arrayBuffer r)
            ∧ forall h v,
                reply_headers reply !! h = Some v
                <-> res_headers r !! h = Some v ∧ v ≠ ""
                    ∧ (h = "content-type" ∨ h = "request-id"
                       ∨ startsWith h "x-ratelimit" = true)) as Hpass.
  { intros reply ->. simpl. split; [done | split; [done | split]].
    - unfold not_streaming, arrayBuffer.
      destruct (res_body r) as [chunks|]; [|done].
      by destruct (content_type r) as [ct|];
        [destruct (negb (includes ct "text/event-stream"))|].
    - intros h v. apply passed_headers_lookup. }
  simpl. split.
  - pose proof (handler_passed answer w request) as Hp.
    inversion Hp as [c a w' _ Hn _ _ Heq|k jwt res w' Hk Heq
                    |k jwt res r' w1 Hk Heq]; simpl.
    + rewrite Hn. by intros Hin%elem_of_nil.
    + by intros [=]%list_elem_of_singleton.
    + rewrite gate_free_calls
        by apply (respond_passes decode decoder0 JSON_parse toString gt0
                    calculateCostUsd answer w1 k jwt (request_model request) r').
      intros [= -> ->]%list_elem_of_singleton.
      apply Hpass. apply respond_reply.
  - pose proof (handler_first_passed answer w request) as Hp.
    inversion Hp as [c a w' _ Hn _ _ Heq|k jwt res w' Hk Heq
                    |k jwt res r' w1 Hk Heq]; simpl.
    + rewrite Hn. by intros Hin%elem_of_nil.
    + by intros [=]%list_elem_of_singleton.
    + rewrite gate_free_calls
        by apply (respond_first_passes decode decoder0 JSON_parse gt0
                    calculateCostUsd answer w1 k jwt (request_model request) r').
      intros [= -> ->]%list_elem_of_singleton.
      apply Hpass. apply respond_first_reply.
Qed.

Lemma meter_json_reports {W : Type} (answer : world event W) (w : W)
    (apiKey : string) (jwt : Auth.JwtPayload) (model : json) (buf : chunk) :
  omap report_of
    (run answer
       (meter_json (BalanceResult := BalanceResult) JSON_parse toString gt0
          calculateCostUsd apiKey jwt model buf) w).1.1
  = match JSON_parse (toString buf) with
    | Some json =>
        let usage := prop json "usage" in
        let resolvedModel := or_default (prop json "model") model in
        let i := or_default (opt_prop usage "input_tokens") (num 0) in
        let o := or_default (opt_prop usage "output_tokens") (num 0) in
        let cr := or_default (opt_prop usage "cache_read_input_tokens") (num 0) in
        let cc :=
          or_default (opt_prop usage "cache_creation_input_tokens") (num 0) in
        if truthy usage
           && (gt0 (opt_prop usage "input_tokens")
               || gt0 (opt_prop usage "output_tokens"))
        then [(apiKey,
               mkReport (Auth.userId jwt) resolvedModel i o cr cc
                 (calculateCostUsd resolvedModel (mkUsage i o cr cc)))]
        else []
    | None => []
    end.
Proof.
  unfold meter_json.
  destruct (JSON_parse (toString buf)) as [json|];
    [|simpl; by destruct (answer _ _ w) as [[] ?]].
  destruct json; [simpl; by destruct (answer _ _ w) as [[] ?]|..];
    (match goal with
     | |- context [if ?b then _ else _] => destruct b; [|done]
     end;
     unfold mbind, prog_bind; rewrite run_call_bind;
     destruct (answer _ _ w) as [[] w1]; simpl;
     by destruct (answer _ _ w1) as [[] w2]).
Qed.

Lemma meter_stream_reports {W : Type} (answer : world event W) (w : W)
    (apiKey : string) (jwt : Auth.JwtPayload) (model : json) (s : stream D) :
  omap report_of
    (run answer
       (meter_stream (BalanceResult := BalanceResult) gt0 calculateCostUsd
          apiKey jwt model s) w).1.1
  = let usage := (read_usage s).2 in
    let resolvedModel := or_default (Some (getModel (read_usage s).1)) model in
    if gt0 (Some (StreamParser.inputTokens usage))
       || gt0 (Some (StreamParser.outputTokens usage))
    then [(apiKey,
           mkReport (Auth.userId jwt) resolvedModel
             (StreamParser.inputTokens usage) (StreamParser.outputTokens usage)
             (StreamParser.cacheReadTokens usage)
             (StreamParser.cacheCreationTokens usage)
             (calculateCostUsd resolvedModel usage))]
    else [].
Proof.
  unfold meter_stream. cbv zeta.
  match goal with
  | |- context [if ?b then _ else _] => destruct b; [|done]
  end.
  unfold mbind, prog_bind. rewrite run_call_bind.
  destruct (answer _ _ w) as [[] w1]. simpl.
  by destruct (answer _ _ w1) as [[] w2].
Qed.


(** The calls of [respond] are those of its metering. *)
Lemma respond_calls {W : Type} (answer : world event W) (w : W)
    (apiKey : string) (jwt : Auth.JwtPayload) (model : json) (r : Response) :
  (run answer (respond_new apiKey jwt model r) w).1.1
  = if not_streaming r then
      if res_ok r
         && match content_type r with
            | Some ct => includes ct "application/json"
            | None => false
            end
      then (run answer
              (meter_json (BalanceResult := BalanceResult) JSON_parse toString
                 gt0 calculateCostUsd apiKey jwt model (arrayBuffer r)) w).1.1
      else []
    else (run answer
            (meter_stream (BalanceResult := BalanceResult) gt0
               calculateCostUsd apiKey jwt model
               (pipeThrough decode decoder0 JSON_parse
                  (default [] (res_body r)))) w).1.1.
Proof.
  unfold respond. destruct (not_streaming r); unfold mbind, prog_bind;
    rewrite run_bind.
  - match goal with
    | |- context [if ?b then _ else _] => destruct b
    end.
    + destruct (run answer _ w) as [[c a] w1]. simpl. apply app_nil_r.
    + done.
  - destruct (run answer _ w) as [[c a] w1]. simpl. apply app_nil_r.
Qed.


(** The reports of [respond]: none or one, and that one the handler's
    own. *)
Lemma respond_reports_own {W : Type} (answer : world event W) (w : W)
    (apiKey : string) (jwt : Auth.JwtPayload) (model : json) (r : Response) :
  let calls := (run answer (respond_new apiKey jwt model r) w).1.1 in
  omap report_first_of calls = []
  ∧ (omap report_of calls = []
     ∨ exists sent, omap report_of calls = [sent]
                    ∧ own_report calculateCostUsd apiKey jwt sent).
Proof.
  cbv zeta. rewrite respond_calls.
  destruct (not_streaming r).
  - match goal with
    | |- context [if ?b then _ else _] => destruct b
    end; [|split; [done | by left]].
    split.
    + unfold meter_json.
      destruct (JSON_parse (toString (arrayBuffer r))) as [json|];
        [|simpl; by destruct (answer _ _ w) as [[] ?]].
      destruct json; [simpl; by destruct (answer _ _ w) as [[] ?]|..];
        (match goal with
         | |- context [if ?b then _ else _] => destruct b; [|done]
         end;
         unfold mbind, prog_bind; rewrite run_call_bind;
         destruct (answer _ _ w) as [[] w1]; simpl;
         by destruct (answer _ _ w1) as [[] w2]).
    + rewrite meter_json_reports.
      destruct (JSON_parse (toString (arrayBuffer r))) as [json|]; [|by left].
      cbv zeta.
      match goal with
      | |- context [if ?b then _ else _] => destruct b; [|by left]
      end.
      right. eexists. split; [done|]. by repeat split.
  - split.
    + unfold meter_stream. cbv zeta.
      match goal with
      | |- context [if ?b then _ else _] => destruct b; [|done]
      end.
      unfold mbind, prog_bind. rewrite run_call_bind.
      destruct (answer _ _ w) as [[] w1]. simpl.
      by destruct (answer _ _ w1) as [[] w2].
    + rewrite meter_stream_reports. cbv zeta.
      match goal with
      | |- context [if ?b then _ else _] => destruct b; [|by left]
      end.
      right. eexists. split; [done|]. repeat split.
      by destruct (read_usage _).2.
Qed.

Lemma reports_past_gate (k : string) (jwt : Auth.JwtPayload)
    (res : BalanceResult) (rq : UpstreamRequest) (up : option Response)
    (rest : list (made event)) :
  let calls := Made (VerifyToken k) (inr jwt)
               :: Made (CheckBalance (Auth.userId jwt) k) res
               :: Made (Fetch rq) up :: rest in
  omap report_of calls = omap report_of rest
  ∧ omap report_first_of calls = omap report_first_of rest
  ∧ omap fetch_of calls = (rq, up) :: omap fetch_of rest.
Proof. done. Qed.

(** X9.  In every run of the handler at most one usage report is made.
    A report is made only after the upstream has answered; it goes out
    under the credential the client sent in x-api-key, names the user of
    the principal that credential verified as, and its cost is
    calculateCostUsd of the model and the token counts it carries. *)
Theorem one_report_per_request {W : Type} (answer : world event W) (w : W)
    (request : Request) :
  let out := run answer (handler request) w in
  (length (omap report_of out.1.1) <= 1)%nat
  ∧ omap report_first_of out.1.1 = []
  ∧ forall sent,
      sent ∈ omap report_of out.1.1 ->
      exists apiKey jwt c rq r,
        headers request !! "x-api-key" = Some (HString apiKey)
        ∧ c ∈ out.1.1 ∧ verified c = Some (apiKey, jwt)
        ∧ own_report calculateCostUsd apiKey jwt sent
        ∧ (rq, Some r) ∈ omap fetch_of out.1.1.
Proof.
  cbv zeta.
  pose proof (handler_passed answer w request) as Hp.
  inversion Hp as [c a w' _ _ Hn Hn1 Heq|k jwt res w' Hk Heq
                  |k jwt res r w1 Hk Heq]; cbn [fst snd].
  - rewrite Hn, Hn1. simpl. split; [lia|]. split; [done|].
    by intros sent Hin%elem_of_nil.
  - simpl. split; [lia|]. split; [done|]. by intros sent Hin%elem_of_nil.
  - pose proof (respond_reports_own answer w1 k jwt (request_model request) r)
      as [Hfirst Hrep].
    cbv zeta in Hfirst, Hrep.
    destruct (reports_past_gate k jwt res
                (upstream_request anthropicApiKey request) (Some r)
                (run answer (respond_new k jwt (request_model request) r) w1).1.1)
      as (-> & -> & ->).
    rewrite Hfirst. split; [|split; [done|]].
    + destruct Hrep as [-> | [sent [-> _]]]; simpl; lia.
    + intros sent Hin.
      destruct Hrep as [Hrep | [sent' [Hrep Hown]]]; rewrite Hrep in Hin;
        [by apply elem_of_nil in Hin|].
      apply list_elem_of_singleton in Hin. subst sent'.
      exists k, jwt, (Made (VerifyToken k) (inr jwt)),
        (upstream_request anthropicApiKey request), r.
      split; [done|]. split; [apply list_elem_of_here|].
      split; [done|]. split; [done|]. apply list_elem_of_here.
Qed.




Lemma gate_free_args (calls : list (made event)) :
  Forall (fun c => is_gate c = false) calls ->
  omap verify_arg calls = [] ∧ omap balance_args calls = [].
Proof.
  induction 1 as [|c calls Hc _ [IH1 IH2]]; [done|].
  destruct c as [X e x]. by destruct e; simpl in *.
Qed.

Lemma args_past_gate (k : string) (v : string + Auth.JwtPayload) (u k' : string)
    (res : BalanceResult) (rq : UpstreamRequest) (up : option Response)
    (rest : list (made event)) :
  let calls := Made (VerifyToken k) v :: Made (CheckBalance u k') res
               :: Made (Fetch rq) up :: rest in
  omap verify_arg calls = k :: omap verify_arg rest
  ∧ omap balance_args calls = (u, k') :: omap balance_args rest.
Proof. done. Qed.

(** X12.  The first two steps of the handler, in both versions.  Without
    an x-api-key header that is a non-empty string the reply is 401
    "Missing x-api-key header" and no call is made.  Otherwise verifyToken
    is called once, with that header value.  When it throws, the reply is
    401 "Invalid or expired token" with the message of the error as
    details, and nothing else is called.  When it returns a principal,
    checkBalance is called once, with the principal's userId and the same
    header value. *)
Theorem authentication_step {W : Type} (answer : world event W) (w : W)
    (request : Request) :
  let out := run answer (handler request) w in
  let out_first := run answer (handler_first request) w in
  let steps (o : list (made event) * Reply * W) :=
    match string_value (headers request !! "x-api-key") with
    | None =>
        o = ([], mkReply 401 ∅
                   (SendJson (JObj [("error", JStr "Missing x-api-key header")])),
             w)
    | Some apiKey =>
        omap verify_arg o.1.1 = [apiKey]
        ∧ match answer _ (VerifyToken apiKey) w with
          | (inl message, w1) =>
              o = ([Made (VerifyToken apiKey) (inl message)],
                   mkReply 401 ∅
                     (SendJson (JObj [("error", JStr "Invalid or expired token");
                                      ("details", JStr message)])),
                   w1)
          | (inr jwt, w1) =>
              omap balance_args o.1.1 = [(Auth.userId jwt, apiKey)]
          end
    end in
  steps out ∧ steps out_first.
Proof.
  cbv zeta. unfold string_value, registerProxyRoute, registerProxyRoute_first.
  destruct (headers request !! "x-api-key") as [[apiKey|l]|] eqn:Hk;
    [|done..].
  destruct (String.eqb apiKey ""); [done|].
  unfold mbind, prog_bind. rewrite !run_call_bind.
  destruct (answer _ (VerifyToken apiKey) w) as [[message|jwt] w1]; [done|].
  rewrite !run_call_bind.
  destruct (answer _ (CheckBalance (Auth.userId jwt) apiKey) w1) as [result w2].
  destruct (ok result) eqn:Hok; cbn [negb].
  - pose proof (forward_run anthropicApiKey decode decoder0 JSON_parse toString
                  gt0 calculateCostUsd answer w2 request apiKey jwt)
      as (up & rest & Hc & Hq & _).
    pose proof (forward_first_run anthropicApiKey decode decoder0 JSON_parse
                  gt0 calculateCostUsd answer w2 request apiKey jwt)
      as (up' & rest' & Hc' & Hq' & _).
    destruct (gate_free_args rest Hq) as [Hv Hb].
    destruct (gate_free_args rest' Hq') as [Hv' Hb'].
    destruct (run answer (forward _ _ _ _ _ _ _ _ _ _) w2) as [[c a] w3].
    destruct (run answer (forward_first _ _ _ _ _ _ _ _ _) w2) as [[c' a'] w3'].
    simpl in Hc, Hc'. subst c c'. cbn [fst snd].
    destruct (args_past_gate apiKey (inr jwt) (Auth.userId jwt) apiKey result
                (upstream_request anthropicApiKey request) up rest)
      as [-> ->].
    destruct (args_past_gate apiKey (inr jwt) (Auth.userId jwt) apiKey result
                (upstream_request anthropicApiKey request) up' rest')
      as [-> ->].
    by rewrite Hv, Hb, Hv', Hb'.
  - by destruct (serviceUnavailable result) as [[]|].
Qed.

End ProxyRunFacts.

Lemma unreachable_upstream_is_502_witness :
  (sent_upstream, None)
    ∈ omap ProxyMore.fetch_of (handle with_balance None valid_request).1.1
  ∧ (handle with_balance None valid_request).1.2
    = Proxy.mkReply 502 ∅
        (Proxy.SendJson (JObj [("error", JStr "Failed to reach Anthropic API")])).
Proof.
  assert ((sent_upstream, None)
            ∈ omap ProxyMore.fetch_of
                (handle with_balance None valid_request).1.1) as Hin
    by (vm_compute; apply list_elem_of_here).
  split; [exact Hin|].
  exact (proj1 (proj1 (unreachable_upstream_is_502 Balance.ok
                         Balance.serviceUnavailable "sk-real-anthropic-key"
                         ascii_decode tt JsonText.parse string_of_list_byte positive
                         cost_of (mock with_balance None) tt valid_request
                         sent_upstream) Hin)).
Defined.

Lemma upstream_answer_passes_through_witness :
  (sent_upstream, Some json_answer)
    ∈ omap ProxyMore.fetch_of
        (handle with_balance (Some json_answer) valid_request).1.1
  ∧ Proxy.reply_status
      (handle with_balance (Some json_answer) valid_request).1.2 = 200.
Proof.
  assert ((sent_upstream, Some json_answer)
            ∈ omap ProxyMore.fetch_of
                (handle with_balance (Some json_answer) valid_request).1.1)
    as Hin by (vm_compute; apply list_elem_of_here).
  split; [exact Hin|].
  exact (proj1 (proj1 (upstream_answer_passes_through Balance.ok
                         Balance.serviceUnavailable "sk-real-anthropic-key"
                         ascii_decode tt JsonText.parse string_of_list_byte positive
                         cost_of (mock with_balance (Some json_answer)) tt
                         valid_request sent_upstream json_answer) Hin)).
Defined.



(** ** The principal of a verified token *)

Section PrincipalFacts.
Import Auth.
Variable jwtVerify : string -> string + list (string * json).

Lemma obj_get_set (fields : list (string * json)) (k k' : string) (v : json) :
  obj_get (obj_set fields k v) k'
  = if String.eqb k k' then Some v else obj_get fields k'.
Proof.
  induction fields as [|[k0 v0] rest IH]; simpl.
  - by destruct (String.eqb k k').
  - destruct (String.eqb k0 k) eqn:H0; simpl.
    + apply String.eqb_eq in H0. subst k0.
      by destruct (String.eqb k k').
    + destruct (String.eqb k0 k') eqn:H1; [|exact IH].
      apply String.eqb_eq in H1. subst k0.
      destruct (String.eqb k k') eqn:H2; [|done].
      apply String.eqb_eq in H2. subst k'. by rewrite String.eqb_refl in H0.
Qed.

(** X13.  verifyToken returns a principal only for a token that
    jose.jwtVerify accepted.  The principal carries every claim of the
    verified payload unchanged, but for userId, which holds the principal's
    user identifier; and that identifier is the string value of the
    payload's userId, sub or id claim. *)
Theorem verified_principal_keeps_claims (token : string) (p : JwtPayload) :
  verifyToken jwtVerify token = inr p ->
  exists payload,
    jwtVerify token = inr payload
    ∧ obj_get (claims p) "userId" = Some (JStr (userId p))
    ∧ (forall k, k ≠ "userId" -> obj_get (claims p) k = obj_get payload k)
    ∧ Some (JStr (userId p))
        ∈ [obj_get payload "userId"; obj_get payload "sub";
           obj_get payload "id"].
Proof.
  unfold verifyToken. destruct (jwtVerify token) as [message|payload]; [done|].
  intros Hp. exists payload. split; [done|].
  destruct (typeof_string _) as [u|] eqn:Hu; [|done].
  injection Hp as <-. simpl.
  split; [by rewrite obj_get_set, String.eqb_refl|].
  split.
  - intros k Hk. rewrite obj_get_set.
    destruct (String.eqb "userId" k) eqn:Heq; [|done].
    apply String.eqb_eq in Heq. by subst k.
  - unfold nullish_or in Hu.
    destruct (obj_get payload "userId") as [[]|];
      destruct (obj_get payload "sub") as [[]|];
      destruct (obj_get payload "id") as [[]|];
      simpl in Hu; try done; injection Hu as ->; set_solver.
Qed.

End PrincipalFacts.

Lemma verified_principal_keeps_claims_witness :
  Auth.verifyToken (accept sub_claims) "credential"
  = inr (Auth.mkJwt "user-1"
           [("userId", JStr "user-1"); ("sub", JStr "user-1"); ("id", num 7)])
  ∧ exists payload,
      accept sub_claims "credential" = inr payload
      ∧ obj_get [("userId", JStr "user-1"); ("sub", JStr "user-1"); ("id", num 7)]
          "sub"
        = obj_get payload "sub".
Proof.
  assert (Auth.verifyToken (accept sub_claims) "credential"
          = inr (Auth.mkJwt "user-1"
                   [("userId", JStr "user-1"); ("sub", JStr "user-1");
                    ("id", num 7)])) as H by reflexivity.
  split; [exact H|].
  destruct (verified_principal_keeps_claims (accept sub_claims) "credential" _ H)
    as (payload & Hv & _ & Hk & _).
  exists payload. split; [exact Hv|]. by apply Hk.
Defined.

(** ** Loading the configuration *)

Section ConfigFacts.
Import Config.
Context {number : Type}.
Variable parseInt : string -> number.

Lemma requireEnv_set (env : gmap string string) (name : string) :
  match requireEnv env name with
  | inr value => env !! name = Some value ∧ value ≠ ""
  | inl message => message = missing_variable name ∧ ¬ is_set env name
  end.
Proof.
  unfold requireEnv, is_set. destruct (env !! name) as [value|].
  - destruct (String.eqb value "") eqn:He.
    + apply String.eqb_eq in He. subst value.
      split; [done|]. by intros (v & [= <-] & Hv).
    + apply String.eqb_neq in He. done.
  - split; [done|]. by intros (v & Hv & _).
Qed.

(** X14.  The configuration loads exactly when ANTHROPIC_API_KEY,
    JWT_SECRET and DOMESTIC_API_URL are all set to non-empty values; it
    then holds these three values, and as port parseInt of PORT, or of
    "3000" when PORT is unset or empty.  Otherwise loading throws
    "Missing required environment variable: " followed by the name of the
    first of the three, in this order, that is unset or empty. *)
Theorem config_loads_or_names_first_missing (env : gmap string string) :
  match load env parseInt with
  | inr c =>
      env !! "ANTHROPIC_API_KEY" = Some (anthropicApiKey c)
      ∧ env !! "JWT_SECRET" = Some (jwtSecret c)
      ∧ env !! "DOMESTIC_API_URL" = Some (domesticApiUrl c)
      ∧ Forall (is_set env) required
      ∧ port c = parseInt (if decide (is_set env "PORT")
                           then default "3000" (env !! "PORT") else "3000")
  | inl message =>
      exists before name after,
        required = before ++ name :: after
        ∧ Forall (is_set env) before
        ∧ ¬ is_set env name
        ∧ message = ("Missing required environment variable: " ++ name)%string
  end.
Proof.
  unfold load, required.
  pose proof (requireEnv_set env "ANTHROPIC_API_KEY") as H1.
  pose proof (requireEnv_set env "JWT_SECRET") as H2.
  pose proof (requireEnv_set env "DOMESTIC_API_URL") as H3.
  destruct (requireEnv env "ANTHROPIC_API_KEY") as [m1|v1].
  { destruct H1 as [-> Hn]. by exists [], "ANTHROPIC_API_KEY", ["JWT_SECRET"; "DOMESTIC_API_URL"]. }
  destruct H1 as [Hv1 Hne1].
  destruct (requireEnv env "JWT_SECRET") as [m2|v2].
  { destruct H2 as [-> Hn].
    exists ["ANTHROPIC_API_KEY"], "JWT_SECRET", ["DOMESTIC_API_URL"].
    repeat split; try done. repeat constructor. by exists v1. }
  destruct H2 as [Hv2 Hne2].
  destruct (requireEnv env "DOMESTIC_API_URL") as [m3|v3].
  { destruct H3 as [-> Hn].
    exists ["ANTHROPIC_API_KEY"; "JWT_SECRET"], "DOMESTIC_API_URL", [].
    repeat split; try done. repeat constructor; [by exists v1 | by exists v2]. }
  destruct H3 as [Hv3 Hne3]. simpl.
  split; [done|]. split; [done|]. split; [done|]. split.
  { repeat constructor; [by exists v1 | by exists v2 | by exists v3]. }
  f_equal. unfold port_text.
  destruct (decide (is_set env "PORT")) as [(v & Hv & Hne)|Hn].
  - rewrite Hv. simpl. by apply String.eqb_neq in Hne as ->.
  - destruct (env !! "PORT") as [v|] eqn:Hv; [|done].
    destruct (String.eqb v "") eqn:He; [done|].
    apply String.eqb_neq in He. destruct Hn. by exists v.
Qed.

End ConfigFacts.

Lemma config_loads_or_names_first_missing_witness :
  exists before name after,
    Config.required = before ++ name :: after
    ∧ Forall (Config.is_set ConfigSamples.empty_secret_env) before
    ∧ ¬ Config.is_set ConfigSamples.empty_secret_env name
    ∧ "Missing required environment variable: JWT_SECRET"
      = ("Missing required environment variable: " ++ name)%string.
Proof.
  exact (config_loads_or_names_first_missing (fun text : string => text)
           ConfigSamples.empty_secret_env).
Defined.

(** ** What one event does to the accumulator *)

Section ExtractUsageFacts.

Lemma start_is_not_delta (event : json) :
  is_string (prop event "type") "message_start" = true ->
  is_string (prop event "type") "message_delta" = false.
Proof.
  unfold is_string. destruct (prop event "type") as [[]|]; try done.
  by intros ->%String.eqb_eq.
Qed.

Lemma on_message_start_twice (event : json) (u : usage_tokens) :
  on_message_start event (on_message_start event u) = on_message_start event u.
Proof.
  unfold on_message_start.
  destruct (is_string (prop event "type") "message_start"
            && truthy (opt_prop (prop event "message") "usage")); [|done].
  by destruct (opt_prop (prop event "message") "usage").
Qed.

Lemma on_message_start_output (event : json) (u : usage_tokens) :
  outputTokens (on_message_start event u) = outputTokens u.
Proof.
  unfold on_message_start.
  destruct (is_string (prop event "type") "message_start"
            && truthy (opt_prop (prop event "message") "usage")); [|done].
  by destruct (opt_prop (prop event "message") "usage").
Qed.

Lemma on_message_delta_twice (event : json) (u : usage_tokens) :
  on_message_delta event (on_message_delta event u) = on_message_delta event u.
Proof.
  unfold on_message_delta.
  destruct (is_string (prop event "type") "message_delta"
            && truthy (prop event "usage")); [|done].
  destruct (prop event "usage") as [eu|]; [|done].
  unfold assign_present.
  destruct (prop eu "output_tokens") as [[]|];
    destruct (prop eu "input_tokens") as [[]|];
    destruct (prop eu "cache_read_input_tokens") as [[]|];
    destruct (prop eu "cache_creation_input_tokens") as [[]|]; reflexivity.
Qed.

Lemma on_event_twice (event : json) (u : usage_tokens) :
  let f u := on_message_delta event (on_message_start event u) in
  f (f u) = f u.
Proof.
  cbv zeta.
  destruct (is_string (prop event "type") "message_start") eqn:Hs.
  - assert (forall v, on_message_delta event v = v) as Hd.
    { intros v. unfold on_message_delta.
      by rewrite (start_is_not_delta event Hs). }
    rewrite !Hd. apply on_message_start_twice.
  - assert (forall v, on_message_start event v = v) as Hd.
    { intros v. unfold on_message_start. by rewrite Hs. }
    rewrite !Hd. apply on_message_delta_twice.
Qed.

(** X15.  What extractUsage does with one event.  On null it throws
    before writing anything.  Otherwise it writes to the accumulator object
    it was given and to no other object; an event whose type is neither
    message_start nor message_delta changes nothing; a message_start event
    never changes the output token count; and applying the same event a
    second time changes nothing more. *)
Theorem extractUsage_frame (event : json) (usage : loc) (h : store) :
  match extractUsage event usage h with
  | None => event = JNull
  | Some h' =>
      event ≠ JNull
      ∧ (forall l, l ≠ usage -> h' !! l = h !! l)
      ∧ dom h' = dom h
      ∧ (is_string (prop event "type") "message_start" = false ->
         is_string (prop event "type") "message_delta" = false -> h' = h)
      ∧ (is_string (prop event "type") "message_start" = true ->
         outputTokens <$> h' !! usage = outputTokens <$> h !! usage)
      ∧ extractUsage event usage h' = Some h'
  end.
Proof.
  assert (forall f : usage_tokens -> usage_tokens,
             (forall l, l ≠ usage -> alter f usage h !! l = h !! l)
             ∧ dom (alter f usage h) = dom h) as Hframe.
  { intros f. split; [intros l Hl; by rewrite lookup_alter_ne|].
    apply dom_alter_L. }
  assert (forall h0 : store,
             alter (fun u => on_message_delta event (on_message_start event u))
               usage
               (alter
                  (fun u => on_message_delta event (on_message_start event u))
                  usage h0)
             = alter
                 (fun u => on_message_delta event (on_message_start event u))
                 usage h0) as Htwice.
  { intros h0. apply map_eq. intros l.
    destruct (decide (l = usage)) as [->|Hl].
    - rewrite !lookup_alter_eq. destruct (h0 !! usage) as [u|]; [|done].
      simpl. f_equal. apply (on_event_twice event u).
    - by rewrite !lookup_alter_ne. }
  assert (is_string (prop event "type") "message_start" = false ->
          is_string (prop event "type") "message_delta" = false ->
          alter (fun u => on_message_delta event (on_message_start event u))
            usage h = h) as Hother.
  { intros Hs Hd. apply map_eq. intros l.
    destruct (decide (l = usage)) as [->|Hl]; [|by rewrite lookup_alter_ne].
    rewrite lookup_alter_eq. destruct (h !! usage) as [u|]; [|done].
    simpl. f_equal. unfold on_message_delta, on_message_start.
    by rewrite Hs, Hd. }
  assert (is_string (prop event "type") "message_start" = true ->
          outputTokens
            <$> alter (fun u => on_message_delta event (on_message_start event u))
                  usage h !! usage
          = outputTokens <$> h !! usage) as Hout.
  { intros Hs. rewrite lookup_alter_eq.
    destruct (h !! usage) as [u|]; [|done]. simpl. f_equal.
    unfold on_message_delta. rewrite (start_is_not_delta event Hs). simpl.
    apply on_message_start_output. }
  unfold extractUsage.
  destruct event; [done|..];
    (split; [done|]); (split; [apply Hframe|]); (split; [apply Hframe|]);
    (split; [exact Hother|]); (split; [exact Hout|]); f_equal; apply Htwice.
Qed.

End ExtractUsageFacts.

(** ** The parser does not depend on where the chunks are cut *)

Section ChunkingFacts.
Import StreamMore.
Context {D : Type}.
Variable decode : D -> chunk -> D * string.
Variable decoder0 : D.
Variable JSON_parse : string -> option json.

Local Abbreviation lines_of :=
  (fold_left (fun (acc : stream D) line => transform_line JSON_parse line acc)).

Lemma append_assoc (x y z : string) :
  (x ++ (y ++ z))%string = ((x ++ y) ++ z)%string.
Proof.
  induction x as [|c x IH]; [done|].
  change (String c (x ++ (y ++ z)) = String c ((x ++ y) ++ z))%string.
  by rewrite IH.
Qed.

Lemma append_empty (x : string) : (x ++ "")%string = x.
Proof.
  induction x as [|c x IH]; [done|].
  change (String c (x ++ "")%string = String c x). by rewrite IH.
Qed.

Lemma split_lines_nonempty (t : string) : split_lines t ≠ [].
Proof.
  destruct t as [|c t]; simpl; [done|].
  destruct (Ascii.eqb c newline); [done|]. by destruct (split_lines t).
Qed.

Lemma split_lines_app (x y : string) :
  split_lines (x ++ y)%string
  = removelast (split_lines x)
    ++ split_lines (List.last (split_lines x) "" ++ y)%string.
Proof.
  induction x as [|c x IH]; [done|].
  pose proof (split_lines_nonempty x) as Hne.
  change (split_lines (String c x ++ y)%string)
    with (if Ascii.eqb c newline then EmptyString :: split_lines (x ++ y)%string
          else match split_lines (x ++ y)%string with
               | piece :: rest => String c piece :: rest
               | [] => [String c EmptyString]
               end).
  change (split_lines (String c x))
    with (if Ascii.eqb c newline then EmptyString :: split_lines x
          else match split_lines x with
               | piece :: rest => String c piece :: rest
               | [] => [String c EmptyString]
               end).
  destruct (Ascii.eqb c newline) eqn:Hc.
  - rewrite IH. destruct (split_lines x) as [|piece rest]; [done|].
    reflexivity.
  - rewrite IH. destruct (split_lines x) as [|piece rest]; [done|].
    destruct rest as [|r0 rs]; [|reflexivity].
    cbn [removelast List.last app].
    change (split_lines (String c piece ++ y)%string)
      with (if Ascii.eqb c newline
            then EmptyString :: split_lines (piece ++ y)%string
            else match split_lines (piece ++ y)%string with
                 | piece :: rest => String c piece :: rest
                 | [] => [String c EmptyString]
                 end).
    by rewrite Hc.
Qed.

Lemma removelast_last_app {A : Type} (l1 l2 : list A) (d : A) :
  l2 ≠ [] ->
  removelast (l1 ++ l2) = l1 ++ removelast l2
  ∧ List.last (l1 ++ l2) d = List.last l2 d.
Proof.
  intros Hne. split; [by apply removelast_app|].
  induction l1 as [|a l1 IH]; [done|].
  simpl. destruct (l1 ++ l2) eqn:Heq; [|exact IH].
  by apply app_eq_nil in Heq as [_ ?].
Qed.

Lemma transform_line_parsed (line : string) (s : stream D) :
  parsed (transform_line JSON_parse line s)
  = transform_line JSON_parse line (parsed s).
Proof.
  unfold transform_line. cbn [parsed heap usage].
  repeat (case_match; try reflexivity).
Qed.

Lemma flush_line_parsed (line : string) (s : stream D) :
  parsed (flush_line JSON_parse line s)
  = flush_line JSON_parse line (parsed s).
Proof.
  unfold flush_line. cbn [parsed heap usage].
  repeat (case_match; try reflexivity).
Qed.

Lemma transform_line_tail (line : string) (b : string) (d : D) (s : stream D) :
  transform_line JSON_parse line (with_tail b d s)
  = with_tail b d (transform_line JSON_parse line s).
Proof.
  unfold transform_line. cbn [with_tail heap usage].
  repeat (case_match; try reflexivity).
Qed.

Lemma lines_parsed (lines : list string) (s : stream D) :
  parsed (lines_of lines s) = lines_of lines (parsed s).
Proof.
  revert s. induction lines as [|l lines IH]; intros s; simpl; [done|].
  by rewrite IH, transform_line_parsed.
Qed.

Lemma lines_tail (lines : list string) (b : string) (d : D) (s : stream D) :
  lines_of lines (with_tail b d s) = with_tail b d (lines_of lines s).
Proof.
  revert s. induction lines as [|l lines IH]; intros s; simpl; [done|].
  by rewrite transform_line_tail, IH.
Qed.

(** One chunk, as the parser sees it. *)
Lemma transform_parsed (c : chunk) (s : stream D) :
  parsed (transform decode JSON_parse c s)
  = let lines := split_lines (buffer s ++ (decode (decoder s) c).2)%string in
    with_tail (List.last lines "") (decode (decoder s) c).1
      (lines_of (removelast lines) (parsed s)).
Proof.
  unfold transform. cbn [enqueue decoder buffer].
  destruct (decode (decoder s) c) as [d text]. cbn [fst snd]. cbv zeta.
  rewrite lines_parsed.
  change (parsed (set_buffer ?b (set_decoder ?d' (enqueue c s))))
    with (with_tail b d' (parsed s)).
  rewrite lines_tail.
  by destruct (lines_of _ (parsed s)).
Qed.

Lemma transform_respects (c : chunk) (s s' : stream D) :
  parsed s = parsed s' ->
  parsed (transform decode JSON_parse c s)
  = parsed (transform decode JSON_parse c s').
Proof.
  intros H. rewrite !transform_parsed. rewrite <- H.
  assert (buffer s = buffer s' ∧ decoder s = decoder s') as [-> ->]; [|done].
  by injection H.
Qed.

Lemma transform_app (a b : chunk) (s : stream D) :
  streaming decode ->
  parsed (transform decode JSON_parse (a ++ b) s)
  = parsed (transform decode JSON_parse b (transform decode JSON_parse a s)).
Proof.
  intros [_ Happ].
  rewrite (transform_parsed b), !transform_parsed.
  assert (decoder (transform decode JSON_parse a s) = (decode (decoder s) a).1
          ∧ buffer (transform decode JSON_parse a s)
            = List.last (split_lines (buffer s ++ (decode (decoder s) a).2)%string) "")
    as [-> ->].
  { pose proof (transform_parsed a s) as H. cbv zeta in H.
    split; [by injection H | by injection H]. }
  rewrite Happ.
  destruct (decode (decoder s) a) as [d1 t1]. cbn [fst snd].
  destruct (decode d1 b) as [d2 t2]. cbn [fst snd]. cbv zeta.
  rewrite append_assoc, split_lines_app.
  destruct (removelast_last_app
              (removelast (split_lines (buffer s ++ t1)%string))
              (split_lines
                 (List.last (split_lines (buffer s ++ t1)%string) "" ++ t2)%string)
              "" (split_lines_nonempty _)) as [-> ->].
  rewrite fold_left_app, lines_tail.
  by destruct (lines_of _ (lines_of _ (parsed s))).
Qed.

Lemma transform_empty (s : stream D) :
  streaming decode -> single_line (buffer s) = true ->
  parsed (transform decode JSON_parse [] s) = parsed s.
Proof.
  intros [Hnil _] Hs. rewrite transform_parsed, Hnil. cbn [fst snd].
  rewrite append_empty. by rewrite (split_single_line _ Hs).
Qed.

Lemma feed_concat (chunks : list chunk) (s : stream D) :
  streaming decode -> single_line (buffer s) = true ->
  parsed (feed decode JSON_parse chunks s)
  = parsed (transform decode JSON_parse (concat chunks) s).
Proof.
  intros Hd. revert s.
  induction chunks as [|c chunks IH]; intros s Hs.
  - simpl. symmetry. by apply transform_empty.
  - change (feed decode JSON_parse (c :: chunks) s)
      with (feed decode JSON_parse chunks (transform decode JSON_parse c s)).
    rewrite IH
      by apply (buffer_single_line decode JSON_parse [c] s Hs).
    simpl. symmetry. by apply transform_app.
Qed.

Lemma flush_respects (s s' : stream D) :
  parsed s = parsed s' ->
  parsed (flush JSON_parse s) = parsed (flush JSON_parse s').
Proof.
  intros H.
  assert (forall t : stream D,
            parsed (flush JSON_parse t) = flush JSON_parse (parsed t)) as Hf.
  { intros t. unfold flush. cbn [parsed buffer].
    destruct (negb (String.eqb (trim (buffer t)) "")); [|done].
    generalize (split_lines (buffer t)). intros lines. revert t.
    induction lines as [|l lines IH]; intros t; simpl; [done|].
    rewrite IH, flush_line_parsed. reflexivity. }
  by rewrite !Hf, H.
Qed.

(** X16.  For a decoder that decodes in streaming mode, what the parser
    extracts depends on the bytes of the stream and not on how they are cut
    into chunks: two sequences of chunks with the same concatenation leave,
    when the stream is closed, the same token counts for getUsage() and the
    same model for getModel(), also when a line, or a multi-byte
    character, is split between two chunks. *)
Theorem chunk_boundaries_do_not_matter (chunks1 chunks2 : list chunk) :
  streaming decode ->
  concat chunks1 = concat chunks2 ->
  let s1 := pipeThrough decode decoder0 JSON_parse chunks1 in
  let s2 := pipeThrough decode decoder0 JSON_parse chunks2 in
  (read_usage s1).2 = (read_usage s2).2
  ∧ getModel (read_usage s1).1 = getModel (read_usage s2).1.
Proof.
  intros Hd Hcat s1 s2.
  assert (parsed s1 = parsed s2) as H.
  { subst s1 s2. unfold pipeThrough, pipe. apply flush_respects.
    rewrite !feed_concat by done. by rewrite Hcat. }
  rewrite !read_usage_value.
  assert (heap s1 = heap s2 ∧ usage s1 = usage s2 ∧ model s1 = model s2)
    as (-> & -> & Hm) by (by injection H).
  split; [done|]. exact Hm.
Qed.

End ChunkingFacts.

Lemma ascii_decode_streaming : StreamMore.streaming ascii_decode.
Proof.
  split; [by intros []|].
  intros [] a b. unfold ascii_decode. f_equal.
  induction a as [|x a IH]; [done|].
  change (String (ascii_of_byte x) (string_of_list_byte (a ++ b))
          = String (ascii_of_byte x)
              (string_of_list_byte a ++ string_of_list_byte b)%string).
  by rewrite IH.
Qed.

Lemma chunk_boundaries_do_not_matter_witness :
  StreamMore.streaming ascii_decode
  ∧ concat [take 20 start_bytes; drop 20 start_bytes] = concat [start_bytes]
  ∧ (read_usage
       (pipeThrough ascii_decode tt JsonText.parse
          [take 20 start_bytes; drop 20 start_bytes])).2
    = (read_usage (pipeThrough ascii_decode tt JsonText.parse [start_bytes])).2.
Proof.
  assert (concat [take 20 start_bytes; drop 20 start_bytes]
          = concat [start_bytes]) as Hcat by (vm_compute; reflexivity).
  split; [exact ascii_decode_streaming|]. split; [exact Hcat|].
  exact (proj1 (chunk_boundaries_do_not_matter ascii_decode tt JsonText.parse
                  _ _ ascii_decode_streaming Hcat)).
Defined.

(** ** The retry queue: one scan, and where its entries come from *)

Section RetryQueueFacts.
Import Billing BillingMore.
Context {number : Type}.
Variable add : number -> number -> number.

Local Abbreviation reporter := (Billing.reporter number).
Local Abbreviation entry := (Billing.entry number).

(** X17.  One run of _processRetryQueue at time [now] keeps in the queue,
    in their order, exactly the entries whose nextRetry is after [now];
    POSTs, in queue order and once each, exactly the due entries whose
    incremented retry count is at most MAX_RETRIES, with that count; drops
    the other due entries; and starts no first send and creates no entry.
    Its loop ends within as many turns as the queue is long. *)
Theorem retry_scan_partitions (now : Z) (s : reporter) (extra : nat) :
  let s' := _processRetryQueue now s in
  failedReports s' = filter (waits now) (failedReports s)
  ∧ retrying s'
    = retrying s ++ (bump <$> filter (sent_at now) (failedReports s))
  ∧ posted s' = posted s ++ (filter (sent_at now) (failedReports s)).*1
  ∧ sending s' = sending s
  ∧ allocated s' = allocated s
  ∧ scan (length (failedReports s) + extra) now 0 s = s'.
Proof.
  intros s'.
  destruct (processRetryQueue_spec now s) as (Hq & Hr & Hp & Hs & Ha).
  fold s' in Hq, Hr, Hp, Hs, Ha.
  split; [exact Hq|]. split; [exact Hr|]. split; [exact Hp|].
  split; [exact Hs|]. split; [exact Ha|].
  destruct (scan_spec (length (failedReports s) + extra) now 0 s)
    as (Hq' & Hr' & Hp' & Hs' & Ha'); [lia|].
  rewrite drop_0 in Hq', Hr', Hp'. simpl in Hq'.
  destruct (scan _ now 0 s) as [q1 s1 r1 p1 a1].
  destruct s' as [q2 s2 r2 p2 a2]. simpl in *. congruence.
Qed.

Lemma pending_exec (s : reporter) (a : action number)
    (known : list (string * payload number)) :
  pending s ⊆ known -> pending (exec add s a) ⊆ known ++ submitted add [a].
Proof.
  intros Hs x Hx. apply elem_of_app.
  assert (forall y, y ∈ pending s -> y ∈ known ∨ y ∈ submitted add [a])
    as Hold by (intros y Hy; left; by apply Hs).
  unfold pending in *.
  assert (forall y, y ∈ sending s -> y ∈ known ∨ y ∈ submitted add [a]) as Hsend.
  { intros y Hy. apply Hold. apply elem_of_app. by left. }
  assert (forall y, y ∈ failedReports s ->
                    origin y ∈ known ∨ origin y ∈ submitted add [a]) as Hqueue.
  { intros y Hy. apply Hold. apply elem_of_app. right. apply elem_of_app. left.
    by apply list_elem_of_fmap_2. }
  assert (forall y, y ∈ retrying s ->
                    origin y ∈ known ∨ origin y ∈ submitted add [a]) as Hretry.
  { intros y Hy. apply Hold. apply elem_of_app. right. apply elem_of_app. right.
    by apply list_elem_of_fmap_2. }
  clear Hold Hs.
  destruct a as [tok r|i success now|now|i success now]; cbn [exec] in Hx.
  - unfold reportUsage, sendReport in Hx.
    cbn [sending failedReports retrying] in Hx.
    apply elem_of_app in Hx as [Hx|Hx].
    + apply elem_of_app in Hx as [Hx|Hx]; [by apply Hsend|].
      apply list_elem_of_singleton in Hx. subst x. right.
      apply list_elem_of_here.
    + apply elem_of_app in Hx as [Hx|Hx];
        apply list_elem_of_fmap in Hx as (y & -> & Hy); auto.
  - unfold first_settles in Hx.
    destruct (sending s !! i) as [[tok p]|] eqn:Hi.
    + assert ((tok, p) ∈ sending s) as Hin by (by eapply list_elem_of_lookup_2).
      assert (forall y, y ∈ delete i (sending s) -> y ∈ sending s) as Hdel.
      { intros y Hy. rewrite (delete_Permutation _ _ _ Hi).
        by apply list_elem_of_further. }
      destruct success; [|unfold enqueueFailedReport in Hx];
        cbn [sending failedReports retrying] in Hx.
      * apply elem_of_app in Hx as [Hx|Hx]; [by apply Hsend, Hdel|].
        apply elem_of_app in Hx as [Hx|Hx];
          apply list_elem_of_fmap in Hx as (y & -> & Hy); auto.
      * apply elem_of_app in Hx as [Hx|Hx]; [by apply Hsend, Hdel|].
        apply elem_of_app in Hx as [Hx|Hx];
          apply list_elem_of_fmap in Hx as (y & -> & Hy); [|by auto].
        apply elem_of_app in Hy as [Hy|Hy].
        -- apply Hqueue. destruct (_ <=? _)%nat; [|done].
           by apply elem_of_tail.
        -- apply list_elem_of_singleton in Hy. subst y. by apply Hsend.
    + apply elem_of_app in Hx as [Hx|Hx]; [by apply Hsend|].
      apply elem_of_app in Hx as [Hx|Hx];
        apply list_elem_of_fmap in Hx as (y & -> & Hy); auto.
  - destruct (processRetryQueue_spec now s) as (Hq & Hr & _ & Hsd & _).
    rewrite Hq, Hr, Hsd in Hx.
    apply elem_of_app in Hx as [Hx|Hx]; [by apply Hsend|].
    apply elem_of_app in Hx as [Hx|Hx];
      apply list_elem_of_fmap in Hx as (y & -> & Hy).
    + apply list_elem_of_filter in Hy as [_ Hy]. by apply Hqueue.
    + apply elem_of_app in Hy as [Hy|Hy]; [by apply Hretry|].
      apply list_elem_of_fmap in Hy as (z & -> & Hz).
      apply list_elem_of_filter in Hz as [_ Hz].
      change (origin (bump z)) with (origin z). by apply Hqueue.
  - unfold retry_settles in Hx.
    destruct (retrying s !! i) as [[l e]|] eqn:Hi.
    + assert ((l, e) ∈ retrying s) as Hin by (by eapply list_elem_of_lookup_2).
      assert (forall y, y ∈ delete i (retrying s) -> y ∈ retrying s) as Hdel.
      { intros y Hy. rewrite (delete_Permutation _ _ _ Hi).
        by apply list_elem_of_further. }
      assert (forall q : list entry,
                 (forall y, y ∈ q -> y ∈ failedReports s
                                     ∨ origin y = origin (l, e)) ->
                 x ∈ sending s ++ (origin <$> q)
                       ++ (origin <$> delete i (retrying s)) ->
                 x ∈ known ∨ x ∈ submitted add [RetrySettles i success now])
        as Hcase.
      { intros q Hq Hx'.
        apply elem_of_app in Hx' as [Hx'|Hx']; [by apply Hsend|].
        apply elem_of_app in Hx' as [Hx'|Hx'];
          apply list_elem_of_fmap in Hx' as (y & -> & Hy).
        - destruct (Hq y Hy) as [Hy'| ->]; [by apply Hqueue | by apply Hretry].
        - by apply Hretry, Hdel. }
      destruct success;
        [cbn [sending failedReports retrying] in Hx;
         apply (Hcase (failedReports s)); auto|].
      destruct (retries e <? MAX_RETRIES);
        [|cbn [sending failedReports retrying] in Hx;
          apply (Hcase (failedReports s)); auto].
      cbn [failedReports] in Hx.
      destruct (_ <? _)%nat; unfold set_queue in Hx;
        cbn [sending failedReports retrying] in Hx;
        [|apply (Hcase (failedReports s)); auto].
      eapply Hcase; [|exact Hx].
      intros y [Hy|Hy]%elem_of_app; [by left|].
      apply list_elem_of_singleton in Hy. subst y. by right.
    + apply elem_of_app in Hx as [Hx|Hx]; [by apply Hsend|].
      apply elem_of_app in Hx as [Hx|Hx];
        apply list_elem_of_fmap in Hx as (y & -> & Hy); auto.
Qed.

(** X18.  Nothing is billed that was not reported: at every point, each
    POST that is pending, and each entry that waits in the queue or is
    under retry, carries the credential and the payload object of a report
    handed to reportUsage; queueing and retrying never alter them. *)
Theorem pending_reports_were_submitted (script : list (action number)) :
  pending (Billing.run add script) ⊆ submitted add script.
Proof.
  unfold Billing.run.
  induction script as [|a script IH] using rev_ind.
  - by intros x Hx%elem_of_nil.
  - rewrite fold_left_app. simpl.
    unfold submitted. rewrite omap_app. apply pending_exec. exact IH.
Qed.

End RetryQueueFacts.
